(** * BrowserService: URL matching, access policy, ranking and search

    A shallow embedding of [src/browser/BrowserService.cpp] (KeePassXC browser
    integration).  Qt strings are modelled by [string], C++ [int] by [Z],
    by-reference parameters and member fields by explicit state passing, and
    modal dialogs by scripts that record what the user (or the environment)
    does while the dialog is open. *)

From Stdlib Require Import ZArith Lia Bool Ascii String List.
From stdpp Require Import base option list gmap strings.

#[local] Set Warnings "-register-all".

Local Open Scope Z_scope.

(** ** QString

    The part of the [QString] interface used by [BrowserService.cpp]. *)
Module QString.

Definition isEmpty (s : string) : bool :=
  match s with
  | EmptyString => true
  | String _ _ => false
  end.

Fixpoint length (s : string) : Z :=
  match s with
  | EmptyString => 0
  | String _ s' => 1 + length s'
  end.

(** [s.startsWith(p)] *)
Fixpoint startsWith (s p : string) {struct p} : bool :=
  match p with
  | EmptyString => true
  | String c p' =>
      match s with
      | EmptyString => false
      | String d s' => Ascii.eqb c d && startsWith s' p'
      end
  end.

(** [s.indexOf(needle, from)], scanning a string that starts at index [from]:
    the index of the first occurrence, [-1] when there is none. *)
Fixpoint indexOfFrom (s needle : string) (from : Z) : Z :=
  if startsWith s needle then from
  else match s with
       | EmptyString => -1
       | String _ s' => indexOfFrom s' needle (from + 1)
       end.

Definition indexOf (s needle : string) : Z := indexOfFrom s needle 0.

(** [s.contains(needle)] is [indexOf(needle) != -1]; in particular every
    string contains the empty string. *)
Definition contains (s needle : string) : bool :=
  negb (indexOf s needle =? -1).

(** [s.count(needle)]: the number of (possibly overlapping) occurrences. *)
Fixpoint count (s needle : string) : Z :=
  (if startsWith s needle then 1 else 0) +
  match s with
  | EmptyString => 0
  | String _ s' => count s' needle
  end.

Fixpoint drop (n : nat) (s : string) : string :=
  match n, s with
  | O, _ => s
  | S _, EmptyString => EmptyString
  | S n', String _ s' => drop n' s'
  end.

Fixpoint take (n : nat) (s : string) : string :=
  match n, s with
  | O, _ => EmptyString
  | S _, EmptyString => EmptyString
  | S n', String c s' => String c (take n' s')
  end.

(** [s.mid(pos)]: the tail of [s] from index [pos] on. *)
Definition mid (s : string) (pos : Z) : string := drop (Z.to_nat pos) s.

(** [s.chop(n)]: [s] without its last [n] characters. *)
Definition chop (s : string) (n : Z) : string :=
  take (Z.to_nat (length s - n)) s.

(** [s.endsWith(x)] *)
Definition endsWith (s x : string) : bool :=
  (length x <=? length s) && String.eqb (mid s (length s - length x)) x.

(** [s.split(sep)] with the default [KeepEmptyParts]; never empty. *)
Fixpoint split (s : string) (sep : ascii) : list string :=
  match s with
  | EmptyString => [EmptyString]
  | String c s' =>
      if Ascii.eqb c sep then EmptyString :: split s' sep
      else match split s' sep with
           | [] => [String c EmptyString]
           | w :: ws => String c w :: ws
           end
  end.

(** [QList<QString>::last()] on the result of a [split]. *)
Definition last (l : list string) : string := List.last l EmptyString.

End QString.

(** ** Domain relaxation: [BrowserService::removeFirstDomain]

    The [QString&] parameter is returned next to the result. *)
Definition removeFirstDomain (hostname : string) : bool * string :=
  let pos := QString.indexOf hostname "." in
  if pos <? 0 then (false, hostname)
  else
    (* Don't remove the second-level domain if it's the only one *)
    if QString.count hostname "." >? 1 then
      let hostname := QString.mid hostname (pos + 1) in
      (negb (QString.isEmpty hostname), hostname)
    else
      (* Nothing removed *)
      (false, hostname).

(** The hosts produced by calling [removeFirstDomain] again and again, as the
    [do ... while] loop of [searchEntries] does, for at most [fuel] rounds. *)
Fixpoint relaxations (fuel : nat) (hostname : string) : list string :=
  match fuel with
  | O => []
  | S fuel' =>
      match removeFirstDomain hostname with
      | (true, hostname') => hostname' :: relaxations fuel' hostname'
      | (false, _) => []
      end
  end.

(** ** The Qt interface

    [QUrl] values are records of their components; parsing and printing, the
    public-suffix table behind [QUrl::topLevelDomain], [QHostAddress],
    locale-aware comparison and [std::sort] belong to Qt and the C++ library
    and are taken as an interface. *)
Record QUrl := mkQUrl {
  url_scheme : string;
  url_userInfo : string;
  url_host : string;
  url_port : Z;                      (* [-1] when the URL has no port *)
  url_path : string;
  url_query : option string;
  url_fragment : option string
}.

(** [QUrl::FormattingOptions], restricted to the flags the service sets. *)
Record FormattingOptions := mkFormat {
  StripTrailingSlash : bool;
  RemovePath : bool;
  RemoveQuery : bool;
  RemoveFragment : bool
}.

Definition setScheme (u : QUrl) (s : string) : QUrl :=
  mkQUrl s (url_userInfo u) (url_host u) (url_port u) (url_path u)
         (url_query u) (url_fragment u).

Definition setPath (u : QUrl) (p : string) : QUrl :=
  mkQUrl (url_scheme u) (url_userInfo u) (url_host u) (url_port u) p
         (url_query u) (url_fragment u).

Definition hasQuery (u : QUrl) : bool :=
  match url_query u with Some _ => true | None => false end.

Definition hasFragment (u : QUrl) : bool :=
  match url_fragment u with Some _ => true | None => false end.

Class Platform := {
  (** [QUrl(const QString&)] *)
  QUrl_parse : string -> QUrl;
  (** [QUrl::fromUserInput] *)
  QUrl_fromUserInput : string -> QUrl;
  (** [QUrl::toString] *)
  QUrl_toString : QUrl -> FormattingOptions -> string;
  (** [QUrl::topLevelDomain]: the public suffix with its leading dot, the
      empty string when the host has no valid one. *)
  QUrl_topLevelDomain : QUrl -> string;
  (** [QHostAddress(s).isNull()]: [s] is not an IP address literal. *)
  QHostAddress_isNull : string -> bool;
  (** [QString::localeAwareCompare] *)
  localeAwareCompare : string -> string -> Z;
  (** [std::sort] with a strict-order predicate *)
  std_sort : forall A : Type, (A -> A -> bool) -> list A -> list A
}.

(** [browserSettings()]: the options read by the functions below. *)
Record BrowserSettings := mkSettings {
  alwaysAllowAccess : bool;
  httpAuthPermission : bool;
  searchInAllDatabases : bool;
  matchUrlScheme : bool;
  allowExpiredCredentials : bool;
  sortByTitle : bool;
  bestMatchOnly : bool
}.

Section DomainMatcher.
Context `{Platform}.
Variable settings : BrowserSettings.

(** [BrowserService::baseDomain] *)
Definition baseDomain (hostname : string) : string :=
  let qurl := QUrl_fromUserInput hostname in
  let host := url_host qurl in
  (* If the hostname is an IP address, return it directly *)
  if negb (QHostAddress_isNull hostname) then hostname
  else if QString.isEmpty host
          || negb (QString.contains host (QUrl_topLevelDomain qurl)) then ""
  else
    let host := QString.chop host (QString.length (QUrl_topLevelDomain qurl)) in
    let baseDomain := QString.last (QString.split host ".") in
    baseDomain +:+ QUrl_topLevelDomain qurl.

(** The character class of the regular expression in [handleURL]:
    less-than, greater-than, caret, backquote, braces and bar. *)
Definition illegalChars : list ascii :=
  ["<"; ">"; "^"; "`"; "{"; "|"; "}"]%char.

Fixpoint hasIllegalChar (s : string) : bool :=
  match s with
  | EmptyString => false
  | String c s' => existsb (Ascii.eqb c) illegalChars || hasIllegalChar s'
  end.

(** [BrowserService::handleURL] *)
Definition handleURL (entryUrl url submitUrl : string) : bool :=
  if QString.isEmpty entryUrl then false
  else
    let entryQUrl :=
      if QString.contains entryUrl "://" then QUrl_parse entryUrl
      else
        let u := QUrl_fromUserInput entryUrl in
        if matchUrlScheme settings then setScheme u "https" else u in
    (* Make a direct compare if a local file is used *)
    if QString.contains url "file://" then String.eqb entryUrl submitUrl
    (* URL host validation fails *)
    else if QString.isEmpty (url_host entryQUrl) then false
    else
      let siteQUrl := QUrl_parse url in
      (* Match port, if used *)
      if (url_port entryQUrl >? 0)
         && negb (url_port entryQUrl =? url_port siteQUrl) then false
      (* Match scheme *)
      else if matchUrlScheme settings
              && negb (QString.isEmpty (url_scheme entryQUrl))
              && negb (String.eqb (url_scheme entryQUrl) (url_scheme siteQUrl))
      then false
      (* Check for illegal characters *)
      else if hasIllegalChar entryUrl then false
      (* Match the base domain *)
      else if negb (String.eqb (baseDomain (url_host siteQUrl))
                               (baseDomain (url_host entryQUrl))) then false
      (* Match the subdomains with the limited wildcard *)
      else if QString.endsWith (url_host siteQUrl) (url_host entryQUrl) then true
      else false.

End DomainMatcher.

(** ** Data model *)

(** An [Entry*]: [entry_ptr] is the identity of the object, the other fields
    are what the service reads from it.  The access rule an entry carries in
    its custom data is mutable and lives in the service state below. *)
Record Entry := mkEntry {
  entry_ptr : nat;
  entry_url : string;
  entry_attributes : list (string * string);
  entry_customData : gmap string string;
  entry_isExpired : bool;
  entry_isRecycled : bool
}.

(** [entry->attributes()->keys()] and [entry->attributes()->value(key)] *)
Definition attributes_keys (e : Entry) : list string :=
  map fst (entry_attributes e).

Fixpoint assoc_value (l : list (string * string)) (key : string) : string :=
  match l with
  | [] => ""
  | (k, v) :: l' => if String.eqb k key then v else assoc_value l' key
  end.

Definition attributes_value (e : Entry) (key : string) : string :=
  assoc_value (entry_attributes e) key.

(** [CustomData::contains] and [CustomData::value] *)
Definition customData_contains (m : gmap string string) (key : string) : bool :=
  bool_decide (is_Some (m !! key)).

Definition customData_value (m : gmap string string) (key : string) : string :=
  default "" (m !! key).

(** [QList<Entry*>::contains]: pointer equality. *)
Definition entries_contains (entries : list Entry) (entry : Entry) : bool :=
  existsb (fun e => Nat.eqb (entry_ptr e) (entry_ptr entry)) entries.

(** [QList::isEmpty] *)
Definition QList_isEmpty {A : Type} (l : list A) : bool :=
  match l with
  | [] => true
  | _ :: _ => false
  end.

(** A group with the answers of [isRecycled()] and
    [resolveSearchingEnabled()], its entries and its child groups. *)
Inductive Group := mkGroup {
  group_isRecycled : bool;
  group_resolveSearchingEnabled : bool;
  group_entries : list Entry;
  group_children : list Group
}.

(** Modelled from the spec: [Group::groupsRecursive(true)] (core/Group.cpp is
    not part of the sources at hand), the group itself followed by the groups
    below it: "recursively scan ... groups". *)
Fixpoint groupsRecursive (g : Group) : list Group :=
  g :: flat_map groupsRecursive (group_children g).

Record Database := mkDatabase {
  db_customData : gmap string string;   (* [db->metadata()->customData()] *)
  db_rootGroup : option Group
}.

Record DatabaseWidget := mkWidget {
  widget_database : option Database;     (* [dbWidget->database()], may be null *)
  widget_isLocked : bool
}.

(** Modelled from the spec: [BrowserEntryConfig] (BrowserEntryConfig.cpp is
    not part of the sources at hand), the spec's AccessRule: "allowedHosts:
    set<string>, deniedHosts: set<string>, realm: optional<string>"; the
    mutators "add to the respective set (mutually exclusive: adding to allowed
    must remove from denied for that host, and vice versa)". *)
Module BrowserEntryConfig.

Record t := mk {
  allowedHosts : gset string;
  deniedHosts : gset string;
  storedRealm : option string
}.

(** A freshly constructed [BrowserEntryConfig]. *)
Definition empty : t := mk ∅ ∅ None.

Definition isAllowed (c : t) (host : string) : bool :=
  bool_decide (host ∈ allowedHosts c).

Definition isDenied (c : t) (host : string) : bool :=
  bool_decide (host ∈ deniedHosts c).

Definition realm (c : t) : string := default "" (storedRealm c).

Definition allow (c : t) (host : string) : t :=
  mk ({[host]} ∪ allowedHosts c) (deniedHosts c ∖ {[host]}) (storedRealm c).

Definition deny (c : t) (host : string) : t :=
  mk (allowedHosts c ∖ {[host]}) ({[host]} ∪ deniedHosts c) (storedRealm c).

Definition setRealm (c : t) (r : string) : t :=
  mk (allowedHosts c) (deniedHosts c) (Some r).

End BrowserEntryConfig.

(** ** Service state *)

(** What the user interface was asked to show. *)
Inductive UiEvent :=
  | AccessDialogShown (items : list nat)   (* the entries listed, by pointer *)
  | KeyDialogShown
  | OverwritePromptShown (id : string).

Record State := mkState {
  m_dialogActive : bool;
  m_currentDatabaseWidget : option DatabaseWidget;
  openDatabases : list DatabaseWidget;    (* [getMainWindow()->getOpenDatabases()] *)
  (** the access rule stored with each entry, by entry pointer *)
  accessRules : gmap nat BrowserEntryConfig.t;
  (** the dialogs shown so far, oldest first *)
  ui : list UiEvent
}.

Definition set_dialogActive (st : State) (b : bool) : State :=
  mkState b (m_currentDatabaseWidget st) (openDatabases st) (accessRules st) (ui st).

Definition set_currentDatabaseWidget (st : State) (w : option DatabaseWidget) : State :=
  mkState (m_dialogActive st) w (openDatabases st) (accessRules st) (ui st).

Definition set_accessRules (st : State) (r : gmap nat BrowserEntryConfig.t) : State :=
  mkState (m_dialogActive st) (m_currentDatabaseWidget st) (openDatabases st) r (ui st).

Definition show (st : State) (ev : UiEvent) : State :=
  mkState (m_dialogActive st) (m_currentDatabaseWidget st) (openDatabases st)
          (accessRules st) (ui st ++ [ev]).

(** [config.load(entry)]: [None] when the entry stores no rule (the call
    returns [false] and leaves the fresh config untouched). *)
Definition config_load (st : State) (entry : Entry) : option BrowserEntryConfig.t :=
  accessRules st !! entry_ptr entry.

(** [config.save(entry)] *)
Definition config_save (st : State) (entry : Entry) (c : BrowserEntryConfig.t) : State :=
  set_accessRules st (<[entry_ptr entry := c]> (accessRules st)).

(** [BrowserService::isDatabaseOpened] *)
Definition isDatabaseOpened (st : State) : bool :=
  match m_currentDatabaseWidget st with
  | Some w => negb (widget_isLocked w)
  | None => false
  end.

(** [BrowserService::getDatabase] *)
Definition getDatabase (st : State) : option Database :=
  match m_currentDatabaseWidget st with
  | Some w => widget_database w
  | None => None
  end.

(** The signal [databaseLocked()] of the current widget. *)
Definition lockCurrentDatabase (st : State) : State :=
  match m_currentDatabaseWidget st with
  | Some w =>
      set_currentDatabaseWidget st (Some (mkWidget (widget_database w) true))
  | None => st
  end.

(** [BrowserService::Access] *)
Inductive Access := Denied | Unknown | Allowed.

(** ** Dialog scripts

    A modal dialog runs a nested event loop: while it is open the user may act
    on it and further client requests may be delivered to the service.  A
    script lists what happens while one dialog is open and how it ends. *)

(** How [BrowserAccessControlDialog::exec] ends.  Only [UserAccepts] makes it
    return [QDialog::Accepted]; the two signals are connected to [reject()]. *)
Inductive DialogEnd :=
  | UserAccepts (selectedRows : list nat) (remember : bool)
  | UserRejects
  | DatabaseLocked
  | ActiveDatabaseChanged (w : option DatabaseWidget).

(** The arguments of a call of [confirmEntries]. *)
Record ConfirmRequest := mkConfirm {
  pwEntriesToConfirm : list Entry;
  confirm_url : string;
  confirm_host : string;
  confirm_submitHost : string;
  confirm_realm : string;
  confirm_httpAuth : bool
}.

Inductive DialogEvent :=
  (** the signal [disableAccess(item)] for the row of [item] *)
  | DisableAccess (row : nat)
  (** another request reaches [confirmEntries] while the dialog is open; its
      own dialog, were one shown, would follow [script] *)
  | Reentrant (req : ConfirmRequest) (script : AccessDialog)
with AccessDialog :=
  | accessDialog (events : list DialogEvent) (finish : DialogEnd).

(** One round of the association dialog of [storeKey]. *)
Inductive KeyDialogEnd :=
  | KeyAccepted                  (* [exec()] returns [QDialog::Accepted] *)
  | KeyRejected
  | KeyDatabaseLocked.           (* [databaseLocked()], connected to [reject()] *)

Inductive Button := Overwrite | Cancel.

Record KeyDialogRound := mkRound {
  key_finish : KeyDialogEnd;
  key_textValue : string;        (* [keyDialog.textValue()] *)
  key_answer : Button            (* the answer to the overwrite prompt, if shown *)
}.

Section Service.
Context `{Platform}.
Variable settings : BrowserSettings.
(** Constants declared outside BrowserService.cpp. *)
Variable TRUE_STR : string.
Variable BrowserKeyPrefix : string.    (* [CustomData::BrowserKeyPrefix] *)
Variable Created : string.             (* [CustomData::Created] *)
(** The JSON object built by [prepareEntry]. *)
Variable QJsonObject : Type.
Variable prepareEntry : Entry -> QJsonObject.

Definition OPTION_HIDE_ENTRY : string := "BrowserHideEntry".
Definition OPTION_ONLY_HTTP_AUTH : string := "BrowserOnlyHttpAuth".
Definition ADDITIONAL_URL : string := "KP2A_URL".

(** *** [BrowserService::checkAccess] *)
Definition checkAccess (st : State) (entry : Entry)
           (host submitHost realm : string) : Access :=
  match config_load st entry with
  | None => Unknown
  | Some config =>
      if entry_isExpired entry then
        if allowExpiredCredentials settings then Allowed else Denied
      else if BrowserEntryConfig.isAllowed config host
              && (QString.isEmpty submitHost
                  || BrowserEntryConfig.isAllowed config submitHost)
      then Allowed
      else if BrowserEntryConfig.isDenied config host
              || (negb (QString.isEmpty submitHost)
                  && BrowserEntryConfig.isDenied config submitHost)
      then Denied
      else if negb (QString.isEmpty realm)
              && negb (String.eqb (BrowserEntryConfig.realm config) realm)
      then Denied
      else Unknown
  end.

(** *** [BrowserService::sortPriority] *)
Definition format_full : FormattingOptions := mkFormat true false false false.
Definition format_base : FormattingOptions := mkFormat true true true true.

(** The local [url] of [sortPriority] after its two adjustments. *)
Definition entryQUrl (entry : Entry) : QUrl :=
  let url := QUrl_parse (entry_url entry) in
  let url := if QString.isEmpty (url_scheme url) then setScheme url "https" else url in
  (* Add the empty path to the URL if it's missing *)
  if QString.isEmpty (url_path url) && negb (hasFragment url) && negb (hasQuery url)
  then setPath url "/" else url.

(** The locals [entryURL] and [baseEntryURL] of [sortPriority]. *)
Definition entryURL (entry : Entry) : string :=
  QUrl_toString (entryQUrl entry) format_full.

Definition baseEntryURL (entry : Entry) : string :=
  QUrl_toString (entryQUrl entry) format_base.

Definition sortPriority (entry : Entry) (host submitUrl baseSubmitUrl : string) : Z :=
  let url := entryQUrl entry in
  let entryURL := entryURL entry in
  let baseEntryURL := baseEntryURL entry in
  if negb (QString.contains (url_host url) ".")
     && negb (String.eqb (url_host url) "localhost") then 0
  else if String.eqb submitUrl entryURL then 100
  else if QString.startsWith submitUrl entryURL
          && negb (String.eqb entryURL host)
          && negb (String.eqb baseSubmitUrl entryURL) then 90
  else if QString.startsWith submitUrl baseEntryURL
          && negb (String.eqb entryURL host)
          && negb (String.eqb baseSubmitUrl baseEntryURL) then 80
  else if String.eqb entryURL host then 70
  else if String.eqb entryURL baseSubmitUrl then 60
  else if QString.startsWith entryURL submitUrl then 50
  else if QString.startsWith entryURL baseSubmitUrl
          && negb (String.eqb baseSubmitUrl host) then 40
  else if QString.startsWith submitUrl entryURL then 30
  else if QString.startsWith submitUrl baseEntryURL then 20
  else if QString.startsWith entryURL host then 10
  else if QString.startsWith host entryURL then 5
  else 0.

(** *** [BrowserService::searchEntries(db, url, submitUrl)] *)

(** The loop over the attribute keys of one entry. *)
Definition scanAdditionalUrls (entry : Entry) (url submitUrl : string)
           (entries : list Entry) : list Entry :=
  fold_left
    (fun entries key =>
       (* Search for additional URL's starting with KP2A_URL *)
       if QString.startsWith key ADDITIONAL_URL
          && handleURL settings (attributes_value entry key) url submitUrl
          && negb (entries_contains entries entry)
       then entries ++ [entry]
       else entries)
    (attributes_keys entry) entries.

(** The body of the loop over the entries of a group. *)
Definition scanEntry (url submitUrl : string)
           (entries : list Entry) (entry : Entry) : list Entry :=
  if entry_isRecycled entry then entries
  else
    let entries := scanAdditionalUrls entry url submitUrl entries in
    if negb (handleURL settings (entry_url entry) url submitUrl) then entries
    else entries ++ [entry].

(** The body of the loop over the groups of the database. *)
Definition scanGroup (url submitUrl : string)
           (entries : list Entry) (group : Group) : list Entry :=
  if group_isRecycled group || negb (group_resolveSearchingEnabled group)
  then entries
  else fold_left (scanEntry url submitUrl) (group_entries group) entries.

Definition searchEntries_db (db : Database) (url submitUrl : string) : list Entry :=
  match db_rootGroup db with
  | None => []
  | Some rootGroup =>
      fold_left (scanGroup url submitUrl) (groupsRecursive rootGroup) []
  end.

(** *** [BrowserService::searchEntries(url, submitUrl, keyList)] *)

(** The lambda [databaseConnected]. *)
Definition databaseConnected (keyList : list (string * string)) (db : Database) : bool :=
  existsb
    (fun keyPair =>
       let key := customData_value (db_customData db) (BrowserKeyPrefix +:+ keyPair.1) in
       negb (QString.isEmpty key) && String.eqb keyPair.2 key)
    keyList.

(** The list of databases to search.  Without [searchInAllDatabases] the
    current database is dereferenced unchecked: [None] stands for the null
    dereference when there is none. *)
Definition databasesToSearch (st : State) (keyList : list (string * string))
  : option (list Database) :=
  if searchInAllDatabases settings then
    Some (fold_left
            (fun databases dbWidget =>
               match widget_database dbWidget with
               | Some db =>
                   if databaseConnected keyList db then databases ++ [db]
                   else databases
               | None => databases
               end)
            (openDatabases st) [])
  else
    match getDatabase st with
    | Some db => Some (if databaseConnected keyList db then [db] else [])
    | None => None
    end.

(** One pass of the [for] loop inside the [do ... while]. *)
Definition scanDatabases (databases : list Database) (url submitUrl : string)
           (entries : list Entry) : list Entry :=
  fold_left (fun entries db => entries ++ searchEntries_db db url submitUrl)
            databases entries.

(** The [do ... while] loop; [fuel] bounds the number of further rounds and
    [None] means that it ran out. *)
Fixpoint searchLoop (fuel : nat) (databases : list Database) (url submitUrl : string)
         (hostname : string) (entries : list Entry) : option (list Entry) :=
  let entries := scanDatabases databases url submitUrl entries in
  if QList_isEmpty entries then
    match removeFirstDomain hostname with
    | (true, hostname) =>
        match fuel with
        | O => None
        | S fuel' => searchLoop fuel' databases url submitUrl hostname entries
        end
    | (false, _) => Some entries
    end
  else Some entries.

Definition searchEntries (st : State) (url submitUrl : string)
           (keyList : list (string * string)) : option (list Entry) :=
  match databasesToSearch st keyList with
  | None => None
  | Some databases =>
      (* Search entries matching the hostname *)
      let hostname := url_host (QUrl_parse url) in
      searchLoop (Z.to_nat (QString.length hostname))
                 databases url submitUrl hostname []
  end.

(** *** [BrowserService::confirmEntries] *)

(** [config.load(entry)] into a fresh [BrowserEntryConfig]. *)
Definition loadedConfig (st : State) (entry : Entry) : BrowserEntryConfig.t :=
  default BrowserEntryConfig.empty (config_load st entry).

(** The slot connected to [disableAccess].  The dialog lists exactly the
    entries of [pwEntriesToConfirm], so the row of an item is an index into
    that list; a row outside it is ignored here. *)
Definition disableAccess (req : ConfirmRequest) (st : State) (row : nat) : State :=
  match pwEntriesToConfirm req !! row with
  | None => st
  | Some entry =>
      let config := loadedConfig st entry in
      let config := BrowserEntryConfig.deny config (confirm_host req) in
      let config :=
        if negb (QString.isEmpty (confirm_submitHost req))
           && negb (String.eqb (confirm_host req) (confirm_submitHost req))
        then BrowserEntryConfig.deny config (confirm_submitHost req) else config in
      let config :=
        if negb (QString.isEmpty (confirm_realm req))
        then BrowserEntryConfig.setRealm config (confirm_realm req) else config in
      config_save st entry config
  end.

(** The body of the loop over the selected items of an accepted dialog; as
    above, a row outside the list is ignored. *)
Definition allowSelected (req : ConfirmRequest) (remember : bool)
           (acc : list Entry * State) (row : nat) : list Entry * State :=
  let (allowedEntries, st) := acc in
  match pwEntriesToConfirm req !! row with
  | None => acc
  | Some entry =>
      let st :=
        if remember then
          let config := loadedConfig st entry in
          let config := BrowserEntryConfig.allow config (confirm_host req) in
          let config :=
            if negb (QString.isEmpty (confirm_submitHost req))
               && negb (String.eqb (confirm_host req) (confirm_submitHost req))
            then BrowserEntryConfig.allow config (confirm_submitHost req) else config in
          let config :=
            if negb (QString.isEmpty (confirm_realm req))
            then BrowserEntryConfig.setRealm config (confirm_realm req) else config in
          config_save st entry config
        else st in
      (allowedEntries ++ [entry], st)
  end.

(** What the end of the dialog does to the service state. *)
Definition dialogEnds (finish : DialogEnd) (st : State) : State :=
  match finish with
  | UserAccepts _ _ => st
  | UserRejects => st
  | DatabaseLocked => lockCurrentDatabase st
  | ActiveDatabaseChanged w => set_currentDatabaseWidget st w
  end.

(** [accessControlDialog.exec()]: the nested event loop.  [confirm] is
    [confirmEntries] itself, entered again by a request that arrives while
    the dialog is open. *)
Definition execDialog
           (confirm : AccessDialog -> State -> ConfirmRequest -> list Entry * State)
           (req : ConfirmRequest) : list DialogEvent -> State -> State :=
  fix exec (events : list DialogEvent) (st : State) {struct events} : State :=
    match events with
    | [] => st
    | DisableAccess row :: events' => exec events' (disableAccess req st row)
    | Reentrant req' script' :: events' => exec events' (confirm script' st req').2
    end.

Fixpoint confirmEntries (script : AccessDialog) (st : State) (req : ConfirmRequest)
         {struct script} : list Entry * State :=
  if QList_isEmpty (pwEntriesToConfirm req) || m_dialogActive st then ([], st)
  else
    match script with
    | accessDialog events finish =>
        let st := set_dialogActive st true in
        let st := show st (AccessDialogShown (map entry_ptr (pwEntriesToConfirm req))) in
        let st := execDialog confirmEntries req events st in
        let st := dialogEnds finish st in
        let (allowedEntries, st) :=
          match finish with
          | UserAccepts selectedRows remember =>
              fold_left (allowSelected req remember) selectedRows ([], st)
          | _ => ([], st)
          end in
        let st := set_dialogActive st false in
        (allowedEntries, st)
    end.

(** *** [BrowserService::sortEntries] *)

(** [QMultiMap::values(key)]: the values inserted under [key], the most
    recently inserted first. *)
Definition multimap_values (priorities : list (Z * Entry)) (i : Z) : list Entry :=
  rev (map snd (List.filter (fun p => p.1 =? i) priorities)).

(** The comparison passed to [std::sort]. *)
Definition entryLess (field : string) (left right : Entry) : bool :=
  (localeAwareCompare (attributes_value left field) (attributes_value right field) <? 0)
  || ((localeAwareCompare (attributes_value left field) (attributes_value right field) =? 0)
      && (localeAwareCompare (attributes_value left "UserName")
                             (attributes_value right "UserName") <? 0)).

(** The values of [i] in [for (int i = 100; i >= 0; i -= 5)]. *)
Definition priorityLevels : list Z :=
  map (fun k => 100 - 5 * Z.of_nat k) (seq 0 21).

Fixpoint collectLevels (pwEntries : list Entry) (priorities : list (Z * Entry))
         (field : string) (levels : list Z) (results : list Entry) : list Entry :=
  match levels with
  | [] => results
  | i :: levels' =>
      if Z.of_nat (List.length (multimap_values priorities i)) >? 0 then
        (* Sort same priority entries by Title or UserName *)
        let entries := std_sort Entry (entryLess field) (multimap_values priorities i) in
        let results := results ++ entries in
        if bestMatchOnly settings && negb (QList_isEmpty pwEntries) then
          (* Early out once we find the highest batch of matches *)
          results
        else collectLevels pwEntries priorities field levels' results
      else collectLevels pwEntries priorities field levels' results
  end.

Definition sortEntries (pwEntries : list Entry) (host entryUrl : string) : list Entry :=
  let url := QUrl_parse entryUrl in
  let url := if QString.isEmpty (url_scheme url) then setScheme url "https" else url in
  let submitUrl := QUrl_toString url format_full in
  let baseSubmitUrl := QUrl_toString url format_base in
  (* Build map of prioritized entries *)
  let priorities :=
    map (fun entry => (sortPriority entry host submitUrl baseSubmitUrl, entry)) pwEntries in
  let field := if sortByTitle settings then "Title" else "UserName" in
  collectLevels pwEntries priorities field priorityLevels [].

(** *** [BrowserService::findMatchingEntries] *)

(** The body of the loop that checks entries for authorization; the
    accumulator is [(pwEntriesToConfirm, pwEntries)]. *)
Definition authorize (st : State) (host submitHost realm : string) (httpAuth : bool)
           (acc : list Entry * list Entry) (entry : Entry) : list Entry * list Entry :=
  let (toConfirm, pwEntries) := acc in
  if customData_contains (entry_customData entry) OPTION_HIDE_ENTRY
     && String.eqb (customData_value (entry_customData entry) OPTION_HIDE_ENTRY) TRUE_STR
  then acc
  else if negb httpAuth
          && customData_contains (entry_customData entry) OPTION_ONLY_HTTP_AUTH
          && String.eqb (customData_value (entry_customData entry) OPTION_ONLY_HTTP_AUTH)
                        TRUE_STR
  then acc
  (* HTTP Basic Auth always needs a confirmation *)
  else if negb (httpAuthPermission settings) && httpAuth
  then (toConfirm ++ [entry], pwEntries)
  else
    match checkAccess st entry host submitHost realm with
    | Denied => acc
    | Unknown =>
        if alwaysAllowAccess settings then (toConfirm, pwEntries ++ [entry])
        else (toConfirm ++ [entry], pwEntries)
    | Allowed => (toConfirm, pwEntries ++ [entry])
    end.

(** [None]: [searchEntries] dereferenced a null database. *)
Definition findMatchingEntries (script : AccessDialog) (st : State)
           (dbid url submitUrl realm : string)
           (keyList : list (string * string)) (httpAuth : bool)
  : option (list QJsonObject * State) :=
  let host := url_host (QUrl_parse url) in
  let submitHost := url_host (QUrl_parse submitUrl) in
  match searchEntries st url submitUrl keyList with
  | None => None
  | Some found =>
      (* Check entries for authorization *)
      let (toConfirm, pwEntries) :=
        fold_left (authorize st host submitHost realm httpAuth) found ([], []) in
      (* Confirm entries *)
      let (selectedEntriesToConfirm, st) :=
        confirmEntries script st
                       (mkConfirm toConfirm url host submitHost realm httpAuth) in
      let pwEntries :=
        if negb (QList_isEmpty selectedEntriesToConfirm)
        then pwEntries ++ selectedEntriesToConfirm else pwEntries in
      if QList_isEmpty pwEntries then Some ([], st)
      (* Ensure that database is not locked when the popup was visible *)
      else if negb (isDatabaseOpened st) then Some ([], st)
      else
        (* Sort results *)
        let pwEntries := sortEntries pwEntries host submitUrl in
        (* Fill the list *)
        Some (map prepareEntry pwEntries, st)
  end.

(** *** [BrowserService::storeKey] *)

(** The custom-data keys under which an association is persisted. *)
Definition keyName (id : string) : string := BrowserKeyPrefix +:+ id.
Definition createdName (id : string) : string := Created +:+ "_" +:+ id.

(** [db->metadata()->customData()->set(key, value)] on the current database. *)
Definition customData_set (st : State) (key value : string) : State :=
  match m_currentDatabaseWidget st with
  | Some (mkWidget (Some db) locked) =>
      set_currentDatabaseWidget st
        (Some (mkWidget (Some (mkDatabase (<[key := value]> (db_customData db))
                                          (db_rootGroup db))) locked))
  | _ => st
  end.

(** The [do ... while] loop of [storeKey], one [KeyDialogRound] per
    iteration; [db] is the database fetched before the loop, [now] the
    formatted [Clock::currentDateTime()].  [None]: the script ended while a
    dialog was still open. *)
Fixpoint storeKeyLoop (script : list KeyDialogRound) (db : Database) (st : State)
         (key now : string) : option (string * State) :=
  match script with
  | [] => None
  | round :: script' =>
      let st := show st KeyDialogShown in
      let st := match key_finish round with
                | KeyDatabaseLocked => lockCurrentDatabase st
                | _ => st
                end in
      let ok := match key_finish round with KeyAccepted => true | _ => false end in
      let id := key_textValue round in
      if negb ok || QString.isEmpty id || negb (isDatabaseOpened st) then Some ("", st)
      else
        let contains := customData_contains (db_customData db) (keyName id) in
        let st := if contains then show st (OverwritePromptShown id) else st in
        let dialogResult := if contains then key_answer round else Cancel in
        if contains && match dialogResult with Cancel => true | Overwrite => false end
        then storeKeyLoop script' db st key now
        else
          let st := customData_set st (keyName id) key in
          let st := customData_set st (createdName id) now in
          Some (id, st)
  end.

Definition storeKey (script : list KeyDialogRound) (st : State) (key now : string)
  : option (string * State) :=
  match getDatabase st with
  | None => Some ("", st)
  | Some db => storeKeyLoop script db st key now
  end.

(** *** Predicates used to state the properties *)

(** Some attribute whose key starts with [KP2A_URL] holds a matching URL. *)
Definition additionalUrlMatches (entry : Entry) (url submitUrl : string) : bool :=
  existsb (fun key =>
             QString.startsWith key ADDITIONAL_URL
             && handleURL settings (attributes_value entry key) url submitUrl)
          (attributes_keys entry).

(** The parts of the state that the event handlers of the dialog leave alone. *)
Definition sameSession (st st' : State) : Prop :=
  m_dialogActive st' = m_dialogActive st
  /\ ui st' = ui st
  /\ m_currentDatabaseWidget st' = m_currentDatabaseWidget st.

(** The state in which [exec()] of the label dialog returns. *)
Definition afterKeyDialog (round : KeyDialogRound) (st : State) : State :=
  match key_finish round with
  | KeyDatabaseLocked => lockCurrentDatabase (show st KeyDialogShown)
  | _ => show st KeyDialogShown
  end.

(** A round in which the user accepts a non-empty label that already has a
    key and answers the overwrite prompt with [Cancel]. *)
Definition declinedCollision (db : Database) (round : KeyDialogRound) : bool :=
  match key_finish round with KeyAccepted => true | _ => false end
  && negb (QString.isEmpty (key_textValue round))
  && customData_contains (db_customData db)
                         (keyName (key_textValue round))
  && match key_answer round with Cancel => true | Overwrite => false end.

End Service.

(** ** A small executable instance of the Qt interface

    Enough of [QUrl], [QHostAddress], [localeAwareCompare] and [std::sort] to
    run the service on concrete requests: URLs of the shape
    [scheme://host[:port][/path]] in lower case, without user info, query or
    fragment; dotted-quad IPv4 literals; a public-suffix table of five
    entries; comparison by character code; insertion sort. *)
Module Sample.

Fixpoint digitsValue (s : string) (acc : Z) : Z :=
  match s with
  | EmptyString => acc
  | String c s' => digitsValue s' (10 * acc + (Z.of_nat (nat_of_ascii c) - 48))
  end.

Fixpoint allDigits (s : string) : bool :=
  match s with
  | EmptyString => true
  | String c s' =>
      (48 <=? Z.of_nat (nat_of_ascii c)) && (Z.of_nat (nat_of_ascii c) <=? 57)
      && allDigits s'
  end.

(** [host[:port]] followed by the path *)
Definition parseAfterScheme (scheme rest : string) : QUrl :=
  let slash := QString.indexOf rest "/" in
  let authority :=
    if slash <? 0 then rest else QString.take (Z.to_nat slash) rest in
  let path := if slash <? 0 then "" else QString.mid rest slash in
  let colon := QString.indexOf authority ":" in
  let host :=
    if colon <? 0 then authority else QString.take (Z.to_nat colon) authority in
  let port :=
    if colon <? 0 then -1 else digitsValue (QString.mid authority (colon + 1)) 0 in
  mkQUrl scheme "" host port path None None.

Definition parse (s : string) : QUrl :=
  let i := QString.indexOf s "://" in
  if i <? 0 then mkQUrl "" "" "" (-1) s None None
  else parseAfterScheme (QString.take (Z.to_nat i) s) (QString.mid s (i + 3)).

Definition fromUserInput (s : string) : QUrl :=
  if QString.contains s "://" then parse s else parseAfterScheme "http" s.

Definition toString (u : QUrl) (o : FormattingOptions) : string :=
  let path := if RemovePath o then "" else url_path u in
  let path :=
    if StripTrailingSlash o && QString.endsWith path "/"
    then QString.chop path 1 else path in
  let authority :=
    if QString.isEmpty (url_host u) then ""
    else "//" +:+ url_host u in
  (if QString.isEmpty (url_scheme u) then "" else url_scheme u +:+ ":")
  +:+ authority +:+ path.

Definition publicSuffixes : list string :=
  [".co.uk"; ".com"; ".org"; ".net"; ".uk"].

Definition topLevelDomain (u : QUrl) : string :=
  match List.filter (QString.endsWith ("." +:+ url_host u)) publicSuffixes with
  | [] => ""
  | tld :: _ => tld
  end.

Definition isIPv4 (s : string) : bool :=
  match QString.split s "." with
  | [a; b; c; d] =>
      forallb (fun part => negb (QString.isEmpty part) && allDigits part
                           && (digitsValue part 0 <=? 255)) [a; b; c; d]
  | _ => false
  end.

Definition compare (a b : string) : Z :=
  match String.compare a b with
  | Lt => -1
  | Eq => 0
  | Gt => 1
  end.

Fixpoint insert {A : Type} (less : A -> A -> bool) (x : A) (l : list A) : list A :=
  match l with
  | [] => [x]
  | y :: l' => if less y x then y :: insert less x l' else x :: l
  end.

Definition sort (A : Type) (less : A -> A -> bool) (l : list A) : list A :=
  fold_right (insert less) [] l.

#[local] Instance platform : Platform := {|
  QUrl_parse := parse;
  QUrl_fromUserInput := fromUserInput;
  QUrl_toString := toString;
  QUrl_topLevelDomain := topLevelDomain;
  QHostAddress_isNull := fun s => negb (isIPv4 s);
  localeAwareCompare := compare;
  std_sort := sort
|}.

Definition settings : BrowserSettings :=
  mkSettings false false false false false true false.

(** The login and the title of an entry, standing for [prepareEntry]. *)
Definition prepare (e : Entry) : string * string :=
  (attributes_value e "UserName", attributes_value e "Title").

End Sample.

(** ** Sample requests *)

Module AccessExamples.

Definition rule : BrowserEntryConfig.t :=
  BrowserEntryConfig.setRealm
    (BrowserEntryConfig.allow BrowserEntryConfig.empty "example.com") "Intranet".

Definition entry : Entry :=
  mkEntry 1%nat "https://example.com" [] ∅ false false.

Definition expired : Entry :=
  mkEntry 2%nat "https://example.com" [] ∅ true false.

Definition state : State :=
  mkState false None [] (<[1%nat := rule]> ∅) [].

End AccessExamples.

Module RankingExamples.

Definition intranetLogin : Entry :=
  mkEntry 1%nat "https://intranet/login" [] ∅ false false.
Definition intranet : Entry :=
  mkEntry 2%nat "https://intranet" [] ∅ false false.

Definition mailLogin : Entry :=
  mkEntry 3%nat "https://mail.example.com/login" [] ∅ false false.
Definition mail : Entry :=
  mkEntry 4%nat "https://mail.example.com" [] ∅ false false.

End RankingExamples.

Module SearchExamples.

(** An entry for [example.com] with the same site as additional URL. *)
Definition entry : Entry :=
  mkEntry 1%nat "https://example.com"
          [("KP2A_URL", "https://www.example.com");
           ("Title", "Example"); ("UserName", "alice")]
          ∅ false false.

Definition database : Database :=
  mkDatabase ∅ (Some (mkGroup false true [entry] [])).

End SearchExamples.

Module RelaxationExamples.

(** A database associated with the client [chrome-laptop] that holds one
    entry, for [co.uk]. *)
Definition entry : Entry :=
  mkEntry 1%nat "https://co.uk" [("Title", "Registry"); ("UserName", "bob")]
          ∅ false false.

Definition database : Database :=
  mkDatabase (<["KPXC_BROWSER_chrome-laptop" := "c2hhcmVkIGtleQ=="]> ∅)
             (Some (mkGroup false true [entry] [])).

Definition state : State :=
  mkState false (Some (mkWidget (Some database) false))
          [mkWidget (Some database) false] ∅ [].

Definition keyList : list (string * string) :=
  [("chrome-laptop", "c2hhcmVkIGtleQ==")].

End RelaxationExamples.

Module ConfirmExamples.

Definition allowedRule : BrowserEntryConfig.t :=
  BrowserEntryConfig.allow BrowserEntryConfig.empty "example.com".

(** Two entries for [example.com]: the first carries a rule that allows the
    host, the second carries none. *)
Definition known : Entry :=
  mkEntry 1%nat "https://example.com"
          [("Title", "Example"); ("UserName", "alice")] ∅ false false.

Definition fresh : Entry :=
  mkEntry 2%nat "https://example.com"
          [("Title", "Example"); ("UserName", "bob")] ∅ false false.

Definition database : Database :=
  mkDatabase (<["KPXC_BROWSER_chrome-laptop" := "c2hhcmVkIGtleQ=="]> ∅)
             (Some (mkGroup false true [known; fresh] [])).

Definition idle : State :=
  mkState false (Some (mkWidget (Some database) false))
          [mkWidget (Some database) false] (<[1%nat := allowedRule]> ∅) [].

Definition busy : State := set_dialogActive idle true.

Definition keyList : list (string * string) :=
  [("chrome-laptop", "c2hhcmVkIGtleQ==")].

Definition request : ConfirmRequest :=
  mkConfirm [fresh] "https://example.com/login" "example.com" "example.com" "" false.

(** While the dialog is open a second request arrives and the user disables
    the listed entry; then the database is locked. *)
Definition lockedWhileOpen : AccessDialog :=
  accessDialog
    [Reentrant request (accessDialog [] (UserAccepts [0%nat] true)); DisableAccess 0]
    DatabaseLocked.

End ConfirmExamples.

Module AssociationExamples.

(** The label [chrome-laptop] is taken, so the first round collides and the
    user declines to overwrite; the second label is free. *)
Definition collide : KeyDialogRound := mkRound KeyAccepted "chrome-laptop" Cancel.
Definition free : KeyDialogRound := mkRound KeyAccepted "firefox-desktop" Cancel.
Definition giveUp : KeyDialogRound := mkRound KeyRejected "" Cancel.

Definition key : string := "bmV3IGtleQ==".
Definition now : string := "01/11/2026 18:00".

End AssociationExamples.

(** ** Further operations of the service *)

(** [QString::remove(const QString&)]: every occurrence of [needle] is
    removed, scanning from the left and resuming right after each removed
    occurrence; an empty [needle] removes nothing.  [skip] counts the
    characters of the current occurrence still to be dropped. *)
Fixpoint QString_removeFrom (needle : string) (skip : nat) (s : string) : string :=
  match s with
  | EmptyString => EmptyString
  | String c s' =>
      match skip with
      | S skip' => QString_removeFrom needle skip' s'
      | O =>
          if negb (QString.isEmpty needle) && QString.startsWith s needle
          then QString_removeFrom needle (Z.to_nat (QString.length needle) - 1) s'
          else String c (QString_removeFrom needle O s')
      end
  end.

Definition QString_remove (s needle : string) : string :=
  QString_removeFrom needle O s.

(** [entry->attributes()->contains(name)] *)
Definition attributes_contains (e : Entry) (name : string) : bool :=
  existsb (String.eqb name) (attributes_keys e).

(** [entry->attributes()->remove(name)] and
    [entry->customData()->set(key, value)], as updates of the entry. *)
Definition attributes_remove (e : Entry) (name : string) : Entry :=
  mkEntry (entry_ptr e) (entry_url e)
          (List.filter (fun kv => negb (String.eqb kv.1 name)) (entry_attributes e))
          (entry_customData e) (entry_isExpired e) (entry_isRecycled e).

Definition entry_customData_set (e : Entry) (key value : string) : Entry :=
  mkEntry (entry_ptr e) (entry_url e) (entry_attributes e)
          (<[key := value]> (entry_customData e))
          (entry_isExpired e) (entry_isRecycled e).

Definition KEEPASSXCBROWSER_NAME : string := "KeePassXC-Browser Settings".
Definition KEEPASSXCBROWSER_OLD_NAME : string := "keepassxc-browser Settings".
Definition KEEPASSHTTP_NAME : string := "KeePassHttp Settings".

(** [BrowserService::moveSettingsToCustomData]; the entry is returned next to
    the result. *)
Definition moveSettingsToCustomData (entry : Entry) (name : string) : bool * Entry :=
  if attributes_contains entry name then
    let attr := attributes_value entry name in
    let entry :=
      if negb (QString.isEmpty attr)
      then entry_customData_set entry KEEPASSXCBROWSER_NAME attr else entry in
    let entry := attributes_remove entry name in
    (true, entry)
  else (false, entry).

(** The three calls that [convertAttributesToCustomData] makes for one entry,
    with the number of them that returned [true]. *)
Definition moveAllSettingsToCustomData (entry : Entry) : Z * Entry :=
  let counter := 0 in
  let (moved, entry) := moveSettingsToCustomData entry KEEPASSHTTP_NAME in
  let counter := if moved then counter + 1 else counter in
  let (moved, entry) := moveSettingsToCustomData entry KEEPASSXCBROWSER_OLD_NAME in
  let counter := if moved then counter + 1 else counter in
  let (moved, entry) := moveSettingsToCustomData entry KEEPASSXCBROWSER_NAME in
  let counter := if moved then counter + 1 else counter in
  (counter, entry).

Section Registry.
Variables BrowserKeyPrefix BrowserLegacyKeyPrefix : string.

(** [BrowserService::getKey] *)
Definition getKey (st : State) (id : string) : string :=
  match getDatabase st with
  | None => ""
  | Some db => customData_value (db_customData db) (keyName BrowserKeyPrefix id)
  end.

(** The body of the loop of [moveKeysToCustomData]; the accumulator is
    [(keyCounter, db)]. *)
Definition moveKey (entry : Entry) (acc : Z * option Database) (key : string)
  : Z * option Database :=
  let (keyCounter, db) := acc in
  if QString.contains key BrowserLegacyKeyPrefix then
    let publicKey := QString_remove key BrowserLegacyKeyPrefix in
    (* Add key to database custom data *)
    match db with
    | Some d =>
        if negb (customData_contains (db_customData d) (keyName BrowserKeyPrefix publicKey))
        then (keyCounter + 1,
              Some (mkDatabase (<[keyName BrowserKeyPrefix publicKey
                                  := attributes_value entry key]> (db_customData d))
                               (db_rootGroup d)))
        else acc
    | None => acc
    end
  else acc.

(** [BrowserService::moveKeysToCustomData]; the database is returned next to
    the counter. *)
Definition moveKeysToCustomData (entry : Entry) (db : option Database)
  : Z * option Database :=
  fold_left (moveKey entry) (attributes_keys entry) (0, db).

End Registry.

(** The lambda [getGroupName] of [createNewGroup]: the path of the first
    [depth + 1] names of [groups].  [None] stands for an index outside
    [groups]. *)
Fixpoint getGroupName_loop (groups : list string) (i n : nat) (gName : string)
  : option string :=
  match n with
  | O => Some gName
  | S n' =>
      match groups !! i with
      | None => None
      | Some g =>
          getGroupName_loop groups (S i) n'
                            (gName +:+ (if Nat.eqb i 0 then "" else "/") +:+ g)
      end
  end.

Definition getGroupName (groups : list string) (depth : nat) : option string :=
  getGroupName_loop groups 0 (depth + 1) "".

(** [BrowserService::processClientMessage].  [Action] is the state of a
    [BrowserAction], [create] a fresh one, [process] its
    [processClientMessage], [clientID] reads [message["clientID"].toString()].
    The result is the client map and the response handed to the host, if
    any. *)
Section Clients.
Variables Message Response Action : Type.
Variable clientID : Message -> string.
Variable create : Action.
Variable process : Action -> Message -> Action * Response.

Definition processClientMessage (m_browserClients : gmap string Action)
           (message : Message) : gmap string Action * option Response :=
  let id := clientID message in
  if QString.isEmpty id then (m_browserClients, None)
  else
    (* Create a new client action if we haven't seen this id yet *)
    let m_browserClients :=
      if negb (bool_decide (is_Some (m_browserClients !! id)))
      then <[id := create]> m_browserClients else m_browserClients in
    match m_browserClients !! id with
    | Some action =>
        let (action, response) := process action message in
        (<[id := action]> m_browserClients, Some response)
    | None => (m_browserClients, None)
    end.

(** The messages of a list, delivered one after the other. *)
Definition processClientMessages (m_browserClients : gmap string Action)
           (messages : list Message) : gmap string Action :=
  fold_left (fun clients message => (processClientMessage clients message).1)
            messages m_browserClients.

(** The session of one client after its own messages. *)
Definition sessionAfter (action : Action) (messages : list Message) : Action :=
  fold_left (fun action message => (process action message).1) messages action.

End Clients.

Arguments processClientMessage {Message Response Action}.
Arguments processClientMessages {Message Response Action}.
Arguments sessionAfter {Message Response Action}.

(** *** Predicates used to state further properties *)
Section MatchPredicates.
Context `{Platform}.
Variable settings : BrowserSettings.

(** The primary URL or some additional URL of the entry matches. *)
Definition entryMatches (entry : Entry) (url submitUrl : string) : bool :=
  handleURL settings (entry_url entry) url submitUrl
  || additionalUrlMatches settings entry url submitUrl.

(** The group is scanned: neither recycled nor excluded from searching. *)
Definition searchableGroup (group : Group) : bool :=
  negb (group_isRecycled group || negb (group_resolveSearchingEnabled group)).

End MatchPredicates.

Section AuthorizationPredicates.
Variable settings : BrowserSettings.
Variable TRUE_STR : string.

(** The custom-data option [key] of the entry is set to [TRUE_STR]. *)
Definition optionSet (entry : Entry) (key : string) : bool :=
  customData_contains (entry_customData entry) key
  && String.eqb (customData_value (entry_customData entry) key) TRUE_STR.

(** The entry passes the two filters at the head of the authorization loop:
    it is not hidden, and it is not reserved for HTTP authentication unless
    the request is one. *)
Definition visibleEntry (httpAuth : bool) (entry : Entry) : bool :=
  negb (optionSet entry OPTION_HIDE_ENTRY)
  && negb (negb httpAuth && optionSet entry OPTION_ONLY_HTTP_AUTH).

(** The request is an HTTP authentication request and the setting that lets
    such requests skip the confirmation is off. *)
Definition confirmationForced (httpAuth : bool) : bool :=
  negb (httpAuthPermission settings) && httpAuth.

Definition isUnknown (a : Access) : bool :=
  match a with Unknown => true | _ => false end.

Definition isAllowedAccess (a : Access) : bool :=
  match a with Allowed => true | _ => false end.

(** The entry is put on the list to confirm. *)
Definition routedToConfirmation (st : State) (host submitHost realm : string)
           (httpAuth : bool) (entry : Entry) : bool :=
  visibleEntry httpAuth entry
  && (confirmationForced httpAuth
      || (isUnknown (checkAccess settings st entry host submitHost realm)
          && negb (alwaysAllowAccess settings))).

(** The entry is put on the list of results without confirmation. *)
Definition includedByPolicy (st : State) (host submitHost realm : string)
           (httpAuth : bool) (entry : Entry) : bool :=
  visibleEntry httpAuth entry
  && negb (confirmationForced httpAuth)
  && (isAllowedAccess (checkAccess settings st entry host submitHost realm)
      || (isUnknown (checkAccess settings st entry host submitHost realm)
          && alwaysAllowAccess settings)).

End AuthorizationPredicates.

(** The rule allows the request host and, when there is one, the submit host. *)
Definition hostsAllowed (c : BrowserEntryConfig.t) (host submitHost : string) : bool :=
  BrowserEntryConfig.isAllowed c host
  && (QString.isEmpty submitHost || BrowserEntryConfig.isAllowed c submitHost).

(** The entry behind the pointer stores a rule that allows the request. *)
Definition entryAllows (st : State) (ptr : nat) (host submitHost : string) : bool :=
  match accessRules st !! ptr with
  | Some c => hostsAllowed c host submitHost
  | None => false
  end.

Definition isDisableAccess (ev : DialogEvent) : bool :=
  match ev with
  | DisableAccess _ => true
  | Reentrant _ _ => false
  end.

Definition remembers (finish : DialogEnd) : bool :=
  match finish with
  | UserAccepts _ remember => remember
  | _ => false
  end.

Section RankingPredicates.
Context `{Platform}.

(** The priority that [sortEntries] computes for an entry: [sortPriority]
    against the submit URL and base submit URL it derives from [entryUrl]. *)
Definition priorityFor (host entryUrl : string) (entry : Entry) : Z :=
  let url := QUrl_parse entryUrl in
  let url := if QString.isEmpty (url_scheme url) then setScheme url "https" else url in
  sortPriority entry host (QUrl_toString url format_full) (QUrl_toString url format_base).

(** No entry of the list has a priority above that of an entry before it. *)
Fixpoint nonIncreasing (priority : Entry -> Z) (l : list Entry) : Prop :=
  match l with
  | [] => True
  | e :: l' => (forall e', In e' l' -> priority e' <= priority e) /\ nonIncreasing priority l'
  end.

(** Each level is below the one before it. *)
Fixpoint levelsDecreasing (levels : list Z) : bool :=
  match levels with
  | [] => true
  | i :: levels' =>
      match levels' with
      | [] => true
      | j :: _ => (j <? i) && levelsDecreasing levels'
      end
  end.

(** The contract of [std::sort] used to state the properties of [sortEntries]: the sorted sequence is a
    rearrangement of the given one. *)
Definition sortRearranges : Prop :=
  forall (less : Entry -> Entry -> bool) (l : list Entry),
    Permutation (std_sort Entry less l) l.

End RankingPredicates.

Module RankingSettings.

(** The sample settings with "best match only" switched on. *)
Definition bestMatch : BrowserSettings :=
  mkSettings false false false false false true true.

End RankingSettings.

Section UrlPredicates.
Context `{Platform}.
Variable settings : BrowserSettings.

(** The local [entryQUrl] of [handleURL]: the entry URL as parsed there. *)
Definition parsedEntryUrl (entryUrl : string) : QUrl :=
  if QString.contains entryUrl "://" then QUrl_parse entryUrl
  else
    let u := QUrl_fromUserInput entryUrl in
    if matchUrlScheme settings then setScheme u "https" else u.

End UrlPredicates.

(** The parts of a [split], put together again with the separator. *)
Fixpoint joinWith (sep : ascii) (parts : list string) : string :=
  match parts with
  | [] => ""
  | part :: rest =>
      match rest with
      | [] => part
      | _ :: _ => part +:+ String sep (joinWith sep rest)
      end
  end.

(** Clients whose messages are pairs of a client ID and a payload, whose
    sessions log the payloads received, newest first, and answer with the
    payload. *)
Module ClientExamples.

Definition Message : Type := string * string.
Definition Action : Type := list string.
Definition clientID (message : Message) : string := message.1.
Definition create : Action := [].
Definition process (action : Action) (message : Message) : Action * string :=
  (message.2 :: action, message.2).

Definition messages : list Message :=
  [("tab-1", "get-logins"); ("", "ping"); ("tab-2", "associate");
   ("tab-1", "lock-database")].

End ClientExamples.

(** * Properties *)

(** ** Facts about the [QString] operations *)
Module QStringFacts.
Import QString.

Lemma append_nil_l b : "" +:+ b = b.
Proof. reflexivity. Qed.

Lemma append_cons c a b : String c a +:+ b = String c (a +:+ b).
Proof. reflexivity. Qed.

Lemma length_nonneg s : 0 <= length s.
Proof. induction s; cbn [length]; lia. Qed.

Lemma isEmpty_true s : isEmpty s = true <-> s = "".
Proof. destruct s; simpl; split; congruence. Qed.

Lemma isEmpty_false s : isEmpty s = false <-> s <> "".
Proof. destruct s; simpl; split; congruence. Qed.

Lemma startsWith_dot s :
  startsWith s "." = true <-> exists s', s = String "."%char s'.
Proof.
  destruct s as [|c s]; cbn [startsWith].
  - split; [discriminate | intros [s' Hs]; discriminate].
  - rewrite andb_true_r. split.
    + intros Hc. apply Ascii.eqb_eq in Hc. subst c. eauto.
    + intros [s' Hs]. apply Ascii.eqb_eq. congruence.
Qed.

Lemma startsWith_empty s : startsWith s "" = true.
Proof. destruct s; reflexivity. Qed.

Lemma contains_empty s : contains s "" = true.
Proof. unfold contains, indexOf. destruct s; reflexivity. Qed.

Lemma count_dot_nonneg s : 0 <= count s ".".
Proof.
  induction s as [|c s IH].
  - simpl. lia.
  - cbn [count]. destruct (startsWith (String c s) "."); lia.
Qed.

Lemma count_dot_le_length s : count s "." <= length s.
Proof.
  induction s as [|c s IH].
  - simpl. lia.
  - cbn [count length]. destruct (startsWith (String c s) "."); lia.
Qed.

Lemma count_dot_cons c s :
  count (String c s) "." = (if Ascii.eqb "."%char c then 1 else 0) + count s ".".
Proof. cbn [count startsWith]. rewrite andb_true_r. reflexivity. Qed.

Lemma count_dot_app a b : count (a +:+ b) "." = count a "." + count b ".".
Proof.
  induction a as [|c a IH].
  - rewrite append_nil_l. simpl. lia.
  - rewrite append_cons, !count_dot_cons, IH. lia.
Qed.

Lemma length_app a b : length (a +:+ b) = length a + length b.
Proof.
  induction a as [|c a IH]; rewrite ?append_nil_l, ?append_cons; cbn [length]; lia.
Qed.

Lemma drop_app a b : drop (Z.to_nat (length a)) (a +:+ b) = b.
Proof.
  induction a as [|c a IH].
  - reflexivity.
  - cbn [length]. pose proof (length_nonneg a).
    replace (Z.to_nat (1 + length a)) with (S (Z.to_nat (length a))) by lia.
    rewrite append_cons. exact IH.
Qed.

Lemma take_length s : take (Z.to_nat (length s)) s = s.
Proof.
  induction s as [|c s IH].
  - reflexivity.
  - cbn [length]. pose proof (length_nonneg s).
    replace (Z.to_nat (1 + length s)) with (S (Z.to_nat (length s))) by lia.
    simpl. now rewrite IH.
Qed.

Lemma chop_zero s : chop s 0 = s.
Proof. unfold chop. rewrite Z.sub_0_r. apply take_length. Qed.

Lemma append_empty_r s : s +:+ "" = s.
Proof. induction s as [|c s IH]; rewrite ?append_nil_l, ?append_cons; congruence. Qed.

(** Where the first dot is: the label before it has none, and [indexOf]
    is the length of that label. *)
Lemma first_dot s from :
  0 < count s "." ->
  exists label rest,
    s = label +:+ "." +:+ rest
    /\ count label "." = 0
    /\ indexOfFrom s "." from = from + length label.
Proof.
  revert from. induction s as [|c s IH]; intros from Hpos.
  - simpl in Hpos. lia.
  - destruct (Ascii.eqb "."%char c) eqn:Hc.
    + apply Ascii.eqb_eq in Hc. subst c.
      exists "", s. repeat split. cbn. lia.
    + rewrite count_dot_cons, Hc in Hpos.
      destruct (IH (from + 1)) as (label & rest & Hs & Hlabel & Hidx); [lia|].
      exists (String c label), rest. repeat split.
      * rewrite append_cons. now rewrite <- Hs.
      * rewrite count_dot_cons, Hc. lia.
      * cbn [indexOfFrom startsWith]. rewrite Hc. simpl andb. cbv iota.
        rewrite Hidx. cbn [length]. lia.
Qed.

Lemma no_dot s from : count s "." = 0 -> indexOfFrom s "." from = -1.
Proof.
  revert from. induction s as [|c s IH]; intros from Hz.
  - reflexivity.
  - rewrite count_dot_cons in Hz. pose proof (count_dot_nonneg s).
    destruct (Ascii.eqb "."%char c) eqn:Hc; [lia|].
    cbn [indexOfFrom startsWith]. rewrite Hc. simpl andb. cbv iota.
    apply IH. lia.
Qed.

End QStringFacts.

(** ** Domain relaxation *)
Section Relaxation.
Import QString QStringFacts.

Lemma drop_past_dot label rest :
  mid (label +:+ "." +:+ rest) (length label + 1) = rest.
Proof.
  unfold mid. induction label as [|c label IH].
  - reflexivity.
  - cbn [length]. pose proof (length_nonneg label).
    replace (Z.to_nat (1 + length label + 1))
      with (S (Z.to_nat (length label + 1))) by lia.
    rewrite append_cons. exact IH.
Qed.

Lemma removeFirstDomain_many_dots hostname :
  1 < count hostname "." ->
  exists label rest,
    hostname = label +:+ "." +:+ rest
    /\ count label "." = 0
    /\ removeFirstDomain hostname = (true, rest)
    /\ count rest "." = count hostname "." - 1.
Proof.
  intros Hdots.
  destruct (first_dot hostname 0) as (label & rest & Hs & Hlabel & Hidx); [lia|].
  assert (Hrest : count rest "." = count hostname "." - 1).
  { rewrite Hs. rewrite count_dot_app, Hlabel, append_cons, count_dot_cons.
    rewrite append_nil_l. simpl (Ascii.eqb _ _). cbv iota. lia. }
  exists label, rest. repeat split; try assumption.
  unfold removeFirstDomain, indexOf. rewrite Hidx.
  pose proof (length_nonneg label).
  destruct (Z.ltb_spec (0 + length label) 0); [lia|].
  destruct (Z.gtb_spec (count hostname ".") 1); [|lia].
  rewrite Z.add_0_l. replace (mid hostname (length label + 1)) with rest
    by (rewrite Hs; symmetry; apply drop_past_dot).
  destruct rest; [simpl in Hrest; lia | reflexivity].
Qed.

Lemma removeFirstDomain_few_dots hostname :
  count hostname "." <= 1 -> removeFirstDomain hostname = (false, hostname).
Proof.
  intros Hdots. unfold removeFirstDomain.
  destruct (Z.ltb_spec (indexOf hostname ".") 0); [reflexivity|].
  destruct (Z.gtb_spec (count hostname ".") 1); [lia | reflexivity].
Qed.

Lemma relaxations_stop fuel : forall hostname,
  count hostname "." <= 1 + Z.of_nat fuel ->
  Z.of_nat (List.length (relaxations fuel hostname)) = Z.max 0 (count hostname "." - 1)
  /\ relaxations (S fuel) hostname = relaxations fuel hostname
  /\ Forall (fun h => 1 <= count h ".") (relaxations fuel hostname).
Proof.
  induction fuel as [|fuel IH]; intros hostname Hfuel.
  - cbn [relaxations]. rewrite removeFirstDomain_few_dots by lia.
    repeat split; [simpl; lia | constructor].
  - destruct (Z_le_gt_dec (count hostname ".") 1) as [Hfew|Hmany].
    + cbn [relaxations]. rewrite removeFirstDomain_few_dots by lia.
      repeat split; [simpl; lia | constructor].
    + destruct (removeFirstDomain_many_dots hostname)
        as (label & rest & _ & _ & Hrm & Hrest); [lia|].
      destruct (IH rest) as (Hlen & Hstable & Hall); [lia|].
      change (relaxations (S (S fuel)) hostname)
        with (match removeFirstDomain hostname with
              | (true, h') => h' :: relaxations (S fuel) h'
              | (false, _) => []
              end).
      cbn [relaxations] in *. rewrite Hrm. repeat split.
      * cbn [List.length]. lia.
      * f_equal. exact Hstable.
      * constructor; [lia | exact Hall].
Qed.

(** C8.  [removeFirstDomain] strips exactly the left-most label of a host
    with more than one dot and returns [true]; it returns [false] and leaves
    a host with at most one dot unchanged.  Repeated application stops after
    as many rounds as the host has dots beyond the first, every host it
    produces still has a dot (a second-level domain is never stripped to a
    bare top-level domain), and from [a.b.c.d] it yields [b.c.d], then
    [c.d], then stops. *)
Theorem removeFirstDomain_terminates_above_tld :
  (forall hostname, 1 < count hostname "." ->
     exists label rest,
       hostname = label +:+ "." +:+ rest
       /\ count label "." = 0
       /\ removeFirstDomain hostname = (true, rest)
       /\ count rest "." = count hostname "." - 1)
  /\ (forall hostname, count hostname "." <= 1 ->
        removeFirstDomain hostname = (false, hostname))
  /\ (forall fuel hostname, count hostname "." <= 1 + Z.of_nat fuel ->
        Z.of_nat (List.length (relaxations fuel hostname))
        = Z.max 0 (count hostname "." - 1)
        /\ relaxations (S fuel) hostname = relaxations fuel hostname
        /\ Forall (fun h => 1 <= count h ".") (relaxations fuel hostname))
  /\ (forall fuel, relaxations (2 + fuel) "a.b.c.d" = ["b.c.d"; "c.d"]).
Proof.
  split; [exact removeFirstDomain_many_dots|].
  split; [exact removeFirstDomain_few_dots|].
  split; [exact relaxations_stop|].
  intros [|fuel]; reflexivity.
Qed.

Lemma removeFirstDomain_terminates_above_tld_witness :
  exists label rest,
    "a.b.c.d" = label +:+ "." +:+ rest
    /\ count label "." = 0
    /\ removeFirstDomain "a.b.c.d" = (true, rest)
    /\ count rest "." = count "a.b.c.d" "." - 1.
Proof.
  apply (proj1 removeFirstDomain_terminates_above_tld "a.b.c.d").
  vm_compute. reflexivity.
Defined.

End Relaxation.

(** ** Registrable domain *)
Section BaseDomain.
Context `{Platform}.
Import QString QStringFacts.

Lemma baseDomain_ip hostname :
  QHostAddress_isNull hostname = false -> baseDomain hostname = hostname.
Proof. intros Hip. unfold baseDomain. now rewrite Hip. Qed.

Lemma baseDomain_guard hostname :
  QHostAddress_isNull hostname = true ->
  isEmpty (url_host (QUrl_fromUserInput hostname)) = true
  \/ contains (url_host (QUrl_fromUserInput hostname))
              (QUrl_topLevelDomain (QUrl_fromUserInput hostname)) = false ->
  baseDomain hostname = "".
Proof.
  intros Hip Hguard. unfold baseDomain. rewrite Hip. cbn [negb].
  destruct Hguard as [-> | ->]; [reflexivity|].
  now rewrite orb_true_r.
Qed.

Lemma baseDomain_no_suffix hostname :
  QHostAddress_isNull hostname = true ->
  url_host (QUrl_fromUserInput hostname) <> "" ->
  QUrl_topLevelDomain (QUrl_fromUserInput hostname) = "" ->
  baseDomain hostname = last (split (url_host (QUrl_fromUserInput hostname)) ".").
Proof.
  intros Hip Hhost Htld. unfold baseDomain. rewrite Hip, Htld. cbn [negb].
  apply isEmpty_false in Hhost. rewrite Hhost, contains_empty. cbn [negb orb].
  change (length "") with 0. now rewrite chop_zero, append_empty_r.
Qed.

(** C5 (amended).  [baseDomain] returns an IP-literal host unchanged.  For
    any other host it returns the empty string when the parsed host is empty
    or does not contain the public suffix reported for it; a non-empty host
    for which no public suffix is recognised (the reported suffix is empty)
    is mapped to its last dot-separated label, not to the empty string. *)
Theorem baseDomain_ip_and_suffix hostname :
  (QHostAddress_isNull hostname = false -> baseDomain hostname = hostname)
  /\ (QHostAddress_isNull hostname = true ->
      isEmpty (url_host (QUrl_fromUserInput hostname)) = true
      \/ contains (url_host (QUrl_fromUserInput hostname))
                  (QUrl_topLevelDomain (QUrl_fromUserInput hostname)) = false ->
      baseDomain hostname = "")
  /\ (QHostAddress_isNull hostname = true ->
      url_host (QUrl_fromUserInput hostname) <> "" ->
      QUrl_topLevelDomain (QUrl_fromUserInput hostname) = "" ->
      baseDomain hostname
      = last (split (url_host (QUrl_fromUserInput hostname)) ".")).
Proof.
  split; [apply baseDomain_ip|].
  split; [apply baseDomain_guard | apply baseDomain_no_suffix].
Qed.

End BaseDomain.

(** C5, as stated, fails: [localhost] is no IP literal and has no public
    suffix, yet its base domain is [localhost], not the empty string.  The
    reported suffix is the empty string, which every host contains, so the
    guard lets the host through and its last label is returned. *)
Lemma baseDomain_localhost :
  @QHostAddress_isNull Sample.platform "localhost" = true
  /\ @QUrl_topLevelDomain Sample.platform
       (@QUrl_fromUserInput Sample.platform "localhost") = ""
  /\ @baseDomain Sample.platform "localhost" = "localhost".
Proof. repeat split. Qed.

Lemma baseDomain_ip_and_suffix_witness :
  @baseDomain Sample.platform "192.168.0.1" = "192.168.0.1"
  /\ @baseDomain Sample.platform "co.uk" = ""
  /\ @baseDomain Sample.platform "intranet"
     = QString.last (QString.split "intranet" ".").
Proof.
  split; [|split].
  - apply (proj1 (@baseDomain_ip_and_suffix Sample.platform "192.168.0.1")).
    reflexivity.
  - apply (proj1 (proj2 (@baseDomain_ip_and_suffix Sample.platform "co.uk")));
      [reflexivity | right; reflexivity].
  - apply (proj2 (proj2 (@baseDomain_ip_and_suffix Sample.platform "intranet")));
      [reflexivity | discriminate | reflexivity].
Defined.

(** ** Access policy *)
Section AccessPolicy.
Variable settings : BrowserSettings.

(** C3.  For a non-expired entry whose stored rule allows the request host,
    the submit host being empty or allowed as well, [checkAccess] answers
    [Allowed] whatever realm is requested and whatever realm the rule
    stores: the realm is compared only after the allow-by-host and
    deny-by-host checks have both failed, where a mismatch denies. *)
Theorem checkAccess_host_before_realm st entry config host submitHost realm :
  config_load st entry = Some config ->
  entry_isExpired entry = false ->
  (BrowserEntryConfig.isAllowed config host = true ->
   QString.isEmpty submitHost = true
   \/ BrowserEntryConfig.isAllowed config submitHost = true ->
   checkAccess settings st entry host submitHost realm = Allowed)
  /\ (BrowserEntryConfig.isAllowed config host
      && (QString.isEmpty submitHost
          || BrowserEntryConfig.isAllowed config submitHost) = false ->
      BrowserEntryConfig.isDenied config host
      || (negb (QString.isEmpty submitHost)
          && BrowserEntryConfig.isDenied config submitHost) = false ->
      QString.isEmpty realm = false ->
      BrowserEntryConfig.realm config <> realm ->
      checkAccess settings st entry host submitHost realm = Denied).
Proof.
  intros Hload Hfresh. unfold checkAccess. rewrite Hload, Hfresh. split.
  - intros Hhost Hsubmit. rewrite Hhost. cbn [andb].
    destruct Hsubmit as [-> | ->]; [reflexivity|].
    now rewrite orb_true_r.
  - intros Hallow Hdeny Hrealm Hdiff. rewrite Hallow, Hdeny, Hrealm.
    apply String.eqb_neq in Hdiff. now rewrite Hdiff.
Qed.

(** C9.  An entry without a stored browser configuration gets [Unknown],
    whatever the other arguments: expiry is looked at only once a
    configuration has been loaded. *)
Theorem checkAccess_no_config_unknown st entry host submitHost realm :
  config_load st entry = None ->
  checkAccess settings st entry host submitHost realm = Unknown.
Proof. intros Hload. unfold checkAccess. now rewrite Hload. Qed.

End AccessPolicy.

Lemma checkAccess_host_before_realm_witness :
  checkAccess Sample.settings AccessExamples.state AccessExamples.entry
              "example.com" "" "Other realm" = Allowed.
Proof.
  apply (proj1 (checkAccess_host_before_realm
                  Sample.settings AccessExamples.state AccessExamples.entry
                  AccessExamples.rule "example.com" "" "Other realm"
                  eq_refl eq_refl)).
  - vm_compute. reflexivity.
  - left. reflexivity.
Defined.

Lemma checkAccess_no_config_unknown_witness :
  allowExpiredCredentials Sample.settings = false
  /\ entry_isExpired AccessExamples.expired = true
  /\ checkAccess Sample.settings AccessExamples.state AccessExamples.expired
                 "example.com" "" "" = Unknown.
Proof.
  split; [reflexivity|]. split; [reflexivity|].
  apply checkAccess_no_config_unknown. reflexivity.
Defined.

(** ** Ranking *)
Section Ranking.
Context `{Platform}.

(** Every rule below the exact match gives at most 90. *)
Lemma sortPriority_not_exact entry host submitUrl baseSubmitUrl :
  entryURL entry <> submitUrl ->
  sortPriority entry host submitUrl baseSubmitUrl <= 90.
Proof.
  intros Hdiff. unfold sortPriority.
  assert (Hneq : String.eqb submitUrl (entryURL entry) = false)
    by (apply String.eqb_neq; congruence).
  rewrite Hneq.
  repeat match goal with
         | |- context [if ?b then _ else _] => destruct b
         end; lia.
Qed.

Lemma sortPriority_exact entry host submitUrl baseSubmitUrl :
  entryURL entry = submitUrl ->
  QString.contains (url_host (entryQUrl entry)) "." = true
  \/ url_host (entryQUrl entry) = "localhost" ->
  sortPriority entry host submitUrl baseSubmitUrl = 100.
Proof.
  intros Hsame Hhost. unfold sortPriority.
  assert (Hguard : negb (QString.contains (url_host (entryQUrl entry)) ".")
                   && negb (String.eqb (url_host (entryQUrl entry)) "localhost")
                   = false).
  { destruct Hhost as [-> | ->]; [reflexivity|].
    rewrite String.eqb_refl. apply andb_false_r. }
  rewrite Hguard, Hsame, String.eqb_refl. reflexivity.
Qed.

(** C6 (amended).  Scored against the same request, an entry whose URL
    equals the submit URL and whose host contains a dot or is [localhost]
    gets 100, strictly more than any entry that matches the submit URL only
    as a prefix.  (An exact match on a host without a dot other than
    [localhost] gets 0 from the first rule and outranks nothing.) *)
Theorem sortPriority_exact_outranks_prefix e1 e2 host submitUrl baseSubmitUrl :
  entryURL e1 = submitUrl ->
  QString.contains (url_host (entryQUrl e1)) "." = true
  \/ url_host (entryQUrl e1) = "localhost" ->
  QString.startsWith submitUrl (entryURL e2) = true ->
  entryURL e2 <> submitUrl ->
  sortPriority e1 host submitUrl baseSubmitUrl = 100
  /\ sortPriority e2 host submitUrl baseSubmitUrl
     < sortPriority e1 host submitUrl baseSubmitUrl.
Proof.
  intros Hexact Hhost _ Hprefix.
  pose proof (sortPriority_exact e1 host submitUrl baseSubmitUrl Hexact Hhost) as H1.
  pose proof (sortPriority_not_exact e2 host submitUrl baseSubmitUrl Hprefix) as H2.
  split; [exact H1 | lia].
Qed.

End Ranking.

(** C6, as stated, fails: for the submit URL [https://intranet/login] the
    entry with exactly that URL and the entry [https://intranet], a proper
    prefix of it, both score 0. *)
Lemma sortPriority_exact_without_dot :
  @entryURL Sample.platform RankingExamples.intranetLogin = "https://intranet/login"
  /\ QString.startsWith "https://intranet/login"
       (@entryURL Sample.platform RankingExamples.intranet) = true
  /\ @entryURL Sample.platform RankingExamples.intranet <> "https://intranet/login"
  /\ @sortPriority Sample.platform RankingExamples.intranetLogin
       "intranet" "https://intranet/login" "https://intranet" = 0
  /\ @sortPriority Sample.platform RankingExamples.intranet
       "intranet" "https://intranet/login" "https://intranet" = 0.
Proof. repeat split. vm_compute. discriminate. Qed.

Lemma sortPriority_exact_outranks_prefix_witness :
  @sortPriority Sample.platform RankingExamples.mailLogin
    "mail.example.com" "https://mail.example.com/login" "https://mail.example.com" = 100
  /\ @sortPriority Sample.platform RankingExamples.mail
       "mail.example.com" "https://mail.example.com/login" "https://mail.example.com"
     < @sortPriority Sample.platform RankingExamples.mailLogin
         "mail.example.com" "https://mail.example.com/login" "https://mail.example.com".
Proof.
  apply (@sortPriority_exact_outranks_prefix Sample.platform).
  - reflexivity.
  - left. reflexivity.
  - reflexivity.
  - vm_compute. discriminate.
Defined.

(** ** Scanning one database *)
Section SingleStore.
Context `{Platform}.
Variable settings : BrowserSettings.

Lemma entries_contains_snoc entries entry :
  entries_contains (entries ++ [entry]) entry = true.
Proof.
  unfold entries_contains. rewrite existsb_app. cbn [existsb].
  rewrite Nat.eqb_refl. cbn [orb]. apply orb_true_r.
Qed.

Lemma scanKeys_result entry url submitUrl keys : forall entries,
  fold_left
    (fun entries key =>
       if QString.startsWith key ADDITIONAL_URL
          && handleURL settings (attributes_value entry key) url submitUrl
          && negb (entries_contains entries entry)
       then entries ++ [entry] else entries) keys entries
  = if existsb (fun key =>
                  QString.startsWith key ADDITIONAL_URL
                  && handleURL settings (attributes_value entry key) url submitUrl)
               keys
       && negb (entries_contains entries entry)
    then entries ++ [entry] else entries.
Proof.
  induction keys as [|key keys IH]; intros entries.
  - reflexivity.
  - cbn [fold_left existsb]. rewrite IH.
    destruct (QString.startsWith key ADDITIONAL_URL
              && handleURL settings (attributes_value entry key) url submitUrl).
    + destruct (entries_contains entries entry) eqn:Hin; cbn [andb negb orb].
      * rewrite Hin, andb_false_r. reflexivity.
      * rewrite entries_contains_snoc, andb_false_r. reflexivity.
    + cbn [andb orb]. reflexivity.
Qed.

Lemma scanAdditionalUrls_result entry url submitUrl entries :
  scanAdditionalUrls settings entry url submitUrl entries
  = if additionalUrlMatches settings entry url submitUrl
       && negb (entries_contains entries entry)
    then entries ++ [entry] else entries.
Proof. apply scanKeys_result. Qed.

(** An entry that is not yet in the list, with a matching additional URL and
    a matching primary URL, is appended twice: the additional-URL loop adds
    it, and the primary URL is then tested and the entry added again, this
    time without the [contains] check. *)
Theorem scanEntry_lists_entry_twice entry url submitUrl entries :
  entry_isRecycled entry = false ->
  entries_contains entries entry = false ->
  additionalUrlMatches settings entry url submitUrl = true ->
  handleURL settings (entry_url entry) url submitUrl = true ->
  scanEntry settings url submitUrl entries entry = entries ++ [entry; entry].
Proof.
  intros Hlive Hnew Haux Hprimary. unfold scanEntry.
  rewrite Hlive, scanAdditionalUrls_result, Haux, Hnew, Hprimary.
  cbn [andb negb]. now rewrite <- app_assoc.
Qed.

End SingleStore.

Lemma scanEntry_lists_entry_twice_witness :
  @scanEntry Sample.platform Sample.settings
     "https://www.example.com/login" "https://www.example.com/login"
     [] SearchExamples.entry
  = [SearchExamples.entry; SearchExamples.entry].
Proof.
  apply (@scanEntry_lists_entry_twice Sample.platform Sample.settings
           SearchExamples.entry
           "https://www.example.com/login" "https://www.example.com/login" []);
    reflexivity.
Defined.

(** C4 fails on the code: an entry can appear twice in the result for one
    database.  The entry has the primary URL [https://example.com] and the
    additional URL [https://www.example.com]; for a page on
    [www.example.com] both match, the scan goes on to the primary URL after
    the additional one has included the entry, and the entry is listed
    twice. *)
Example searchEntries_db_duplicate :
  @searchEntries_db Sample.platform Sample.settings SearchExamples.database
     "https://www.example.com/login" "https://www.example.com/login"
  = [SearchExamples.entry; SearchExamples.entry].
Proof. reflexivity. Qed.

(** ** Searching the connected databases *)
Section MultiStore.
Context `{Platform}.
Variable settings : BrowserSettings.
Variable BrowserKeyPrefix : string.
Import QString QStringFacts.

Lemma scanDatabases_app databases url submitUrl : forall entries,
  scanDatabases settings databases url submitUrl entries
  = entries ++ scanDatabases settings databases url submitUrl [].
Proof.
  unfold scanDatabases.
  induction databases as [|db databases IH]; intros entries; cbn [fold_left].
  - now rewrite app_nil_r.
  - rewrite IH, (IH ([] ++ _)), app_assoc. reflexivity.
Qed.

Lemma scanDatabases_empty databases url submitUrl entries :
  scanDatabases settings databases url submitUrl entries = [] ->
  scanDatabases settings databases url submitUrl [] = [].
Proof.
  rewrite scanDatabases_app. intros Hnil.
  now destruct (app_eq_nil _ _ Hnil).
Qed.

(** The loop always ends, and with the result of its first round: the host
    being relaxed is not an argument of the scan. *)
Lemma searchLoop_result databases url submitUrl fuel : forall hostname entries,
  count hostname "." <= 1 + Z.of_nat fuel ->
  searchLoop settings fuel databases url submitUrl hostname entries
  = Some (scanDatabases settings databases url submitUrl entries).
Proof.
  induction fuel as [|fuel IH]; intros hostname entries Hfuel;
    cbn [searchLoop];
    destruct (scanDatabases settings databases url submitUrl entries)
      as [|e found] eqn:Hscan; cbn [QList_isEmpty]; try reflexivity.
  - rewrite removeFirstDomain_few_dots by lia. reflexivity.
  - destruct (Z_le_gt_dec (count hostname ".") 1) as [Hfew|Hmany].
    + rewrite removeFirstDomain_few_dots by lia. reflexivity.
    + destruct (removeFirstDomain_many_dots hostname)
        as (label & rest & _ & _ & Hrm & Hrest); [lia|].
      rewrite Hrm, IH by lia.
      now rewrite (scanDatabases_empty _ _ _ _ Hscan).
Qed.

Lemma searchEntries_defined st url submitUrl keyList databases :
  databasesToSearch settings BrowserKeyPrefix st keyList = Some databases ->
  searchEntries settings BrowserKeyPrefix st url submitUrl keyList
  = Some (scanDatabases settings databases url submitUrl []).
Proof.
  intros Hdbs. unfold searchEntries. rewrite Hdbs.
  apply searchLoop_result.
  pose proof (count_dot_le_length (url_host (QUrl_parse url))).
  pose proof (length_nonneg (url_host (QUrl_parse url))). lia.
Qed.

(** [searchEntries] returns what the first scan of the connected databases
    returns, for every request: each further round of the loop runs the scan
    with the same [url] and [submitUrl], the relaxed [hostname] is never used
    for matching, and a request whose first scan finds nothing gets nothing. *)
Theorem searchEntries_result_is_first_scan st url submitUrl keyList :
  searchEntries settings BrowserKeyPrefix st url submitUrl keyList
  = match databasesToSearch settings BrowserKeyPrefix st keyList with
    | None => None
    | Some databases => Some (scanDatabases settings databases url submitUrl [])
    end.
Proof.
  destruct (databasesToSearch settings BrowserKeyPrefix st keyList)
    as [databases|] eqn:Hdbs.
  - now apply searchEntries_defined.
  - unfold searchEntries. now rewrite Hdbs.
Qed.

End MultiStore.

(** C1 fails on the code: the relaxed host is not used for matching.  For a
    request for [www.example.co.uk] against a connected database whose only
    entry is for [co.uk], the first scan finds nothing, the loop relaxes the
    host to [example.co.uk] and then [co.uk], the entry matches a page on
    [co.uk], and [searchEntries] still returns nothing: every round scans with
    the unchanged request URL. *)
Example searchEntries_relaxed_host_unused :
  relaxations 5 "www.example.co.uk" = ["example.co.uk"; "co.uk"]
  /\ @handleURL Sample.platform Sample.settings
       "https://co.uk" "https://co.uk/" "https://co.uk/" = true
  /\ @searchEntries Sample.platform Sample.settings "KPXC_BROWSER_"
       RelaxationExamples.state
       "https://www.example.co.uk/" "https://www.example.co.uk/"
       RelaxationExamples.keyList = Some [].
Proof. repeat split. Qed.

(** ** Confirmation *)
Section Confirmation.

Lemma sameSession_refl st : sameSession st st.
Proof. repeat split. Qed.

Lemma sameSession_trans st1 st2 st3 :
  sameSession st1 st2 -> sameSession st2 st3 -> sameSession st1 st3.
Proof. unfold sameSession. intuition congruence. Qed.

Lemma config_save_session st entry config :
  sameSession st (config_save st entry config).
Proof. repeat split. Qed.

Lemma disableAccess_session req st row : sameSession st (disableAccess req st row).
Proof.
  unfold disableAccess.
  destruct (pwEntriesToConfirm req !! row);
    [apply config_save_session | apply sameSession_refl].
Qed.

Lemma allowSelected_session req remember rows : forall allowed st,
  sameSession st (fold_left (allowSelected req remember) rows (allowed, st)).2.
Proof.
  induction rows as [|row rows IH]; intros allowed st; cbn [fold_left].
  - apply sameSession_refl.
  - unfold allowSelected at 2.
    destruct (pwEntriesToConfirm req !! row) as [entry|]; [|apply IH].
    eapply sameSession_trans; [|apply IH].
    destruct remember; [apply config_save_session | apply sameSession_refl].
Qed.

(** A request that finds the flag set returns at once, without a dialog. *)
Lemma confirmEntries_busy script st req :
  m_dialogActive st = true -> confirmEntries script st req = ([], st).
Proof.
  intros Hbusy. destruct script as [events finish]. cbn [confirmEntries].
  now rewrite Hbusy, orb_true_r.
Qed.

(** While the dialog is open, requests that arrive show no dialog of their
    own and the flag stays set. *)
Lemma execDialog_session req events : forall st,
  m_dialogActive st = true ->
  sameSession st (execDialog confirmEntries req events st).
Proof.
  induction events as [|[row|req' script'] events IH]; intros st Hbusy;
    cbn [execDialog].
  - apply sameSession_refl.
  - pose proof (disableAccess_session req st row) as Hrow.
    eapply sameSession_trans; [exact Hrow|].
    apply IH. destruct Hrow as (-> & _). exact Hbusy.
  - rewrite confirmEntries_busy by exact Hbusy. cbn [snd]. now apply IH.
Qed.

Lemma confirmEntries_nothing_to_confirm script st req :
  pwEntriesToConfirm req = [] -> confirmEntries script st req = ([], st).
Proof.
  intros Hnil. destruct script as [events finish]. cbn [confirmEntries].
  now rewrite Hnil.
Qed.

Lemma confirmEntries_prompt script st req :
  m_dialogActive st = false ->
  pwEntriesToConfirm req <> [] ->
  m_dialogActive (confirmEntries script st req).2 = false
  /\ ui (confirmEntries script st req).2
     = ui st ++ [AccessDialogShown (map entry_ptr (pwEntriesToConfirm req))].
Proof.
  intros Hidle Hsome. destruct script as [events finish]. cbn [confirmEntries].
  rewrite Hidle. destruct (pwEntriesToConfirm req) as [|e es] eqn:Hreq; [congruence|].
  cbn [QList_isEmpty orb]. rewrite <- Hreq.
  set (opened := show (set_dialogActive st true) _).
  destruct (execDialog_session req events opened eq_refl) as (_ & Hui & _).
  set (after := execDialog confirmEntries req events opened) in *.
  assert (Hend : ui (dialogEnds finish after) = ui after).
  { destruct finish; cbn [dialogEnds]; try reflexivity.
    unfold lockCurrentDatabase. now destruct (m_currentDatabaseWidget after). }
  destruct finish as [rows remember| | |w]; cbn [snd].
  - destruct (fold_left (allowSelected req remember) rows
                        ([], dialogEnds (UserAccepts rows remember) after))
      as [allowed st'] eqn:Hfold.
    pose proof (allowSelected_session req remember rows []
                  (dialogEnds (UserAccepts rows remember) after)) as (_ & Hui' & _).
    rewrite Hfold in Hui'. cbn [snd] in *. split; [reflexivity|].
    cbn [set_dialogActive ui]. now rewrite Hui', Hend, Hui.
  - split; [reflexivity|]. cbn [set_dialogActive ui]. now rewrite Hend, Hui.
  - split; [reflexivity|]. cbn [set_dialogActive ui]. now rewrite Hend, Hui.
  - split; [reflexivity|]. cbn [set_dialogActive ui]. now rewrite Hend, Hui.
Qed.

(** C2.  A call of [confirmEntries] that finds the in-flight flag set returns
    the empty list at once and leaves the state as it is: no dialog is shown.
    A call that finds it clear and has entries to confirm shows exactly one
    dialog, whatever requests arrive while that dialog is open, and however
    the dialog ends (approval, rejection, database lock, change of the active
    database) the flag is clear again when the call returns. *)
Theorem confirmEntries_single_flight script st req :
  (m_dialogActive st = true -> confirmEntries script st req = ([], st))
  /\ (m_dialogActive st = false ->
      pwEntriesToConfirm req <> [] ->
      m_dialogActive (confirmEntries script st req).2 = false
      /\ ui (confirmEntries script st req).2
         = ui st ++ [AccessDialogShown (map entry_ptr (pwEntriesToConfirm req))]).
Proof.
  split; [apply confirmEntries_busy | apply confirmEntries_prompt].
Qed.

End Confirmation.

Lemma confirmEntries_single_flight_witness :
  confirmEntries ConfirmExamples.lockedWhileOpen ConfirmExamples.busy
                 ConfirmExamples.request = ([], ConfirmExamples.busy)
  /\ m_dialogActive
       (confirmEntries ConfirmExamples.lockedWhileOpen ConfirmExamples.idle
                       ConfirmExamples.request).2 = false
  /\ ui (confirmEntries ConfirmExamples.lockedWhileOpen ConfirmExamples.idle
                        ConfirmExamples.request).2
     = ui ConfirmExamples.idle
       ++ [AccessDialogShown (map entry_ptr (pwEntriesToConfirm ConfirmExamples.request))].
Proof.
  split.
  - apply (proj1 (confirmEntries_single_flight
                    ConfirmExamples.lockedWhileOpen ConfirmExamples.busy
                    ConfirmExamples.request)).
    reflexivity.
  - apply (proj2 (confirmEntries_single_flight
                    ConfirmExamples.lockedWhileOpen ConfirmExamples.idle
                    ConfirmExamples.request));
      [reflexivity | discriminate].
Defined.

(** ** Answering a request *)
Section Matching.
Context `{Platform}.
Variable settings : BrowserSettings.
Variable TRUE_STR BrowserKeyPrefix : string.
Variable QJsonObject : Type.
Variable prepareEntry : Entry -> QJsonObject.

Lemma databasesToSearch_defined st keyList :
  searchInAllDatabases settings = true \/ getDatabase st <> None ->
  exists databases,
    databasesToSearch settings BrowserKeyPrefix st keyList = Some databases.
Proof.
  intros Hmode. unfold databasesToSearch.
  destruct (searchInAllDatabases settings); [eauto|].
  destruct Hmode as [Hall|Hdb]; [discriminate|].
  destruct (getDatabase st); [eauto | congruence].
Qed.

(** C10.  A request returns as soon as the current database can be
    dereferenced, and when the database is no longer open in the state that
    [confirmEntries] leaves behind, the answer is empty: the entries allowed by
    policy before the dialog are dropped together with those that awaited
    confirmation. *)
Theorem findMatchingEntries_locked_is_empty
        script st dbid url submitUrl realm keyList httpAuth :
  searchInAllDatabases settings = true \/ getDatabase st <> None ->
  exists result toConfirm,
    let st' :=
      (confirmEntries script st
         (mkConfirm toConfirm url (url_host (QUrl_parse url))
                    (url_host (QUrl_parse submitUrl)) realm httpAuth)).2 in
    findMatchingEntries settings TRUE_STR BrowserKeyPrefix QJsonObject prepareEntry
                        script st dbid url submitUrl realm keyList httpAuth
    = Some (result, st')
    /\ (isDatabaseOpened st' = false -> result = []).
Proof.
  intros Hmode.
  destruct (databasesToSearch_defined st keyList Hmode) as [databases Hdbs].
  unfold findMatchingEntries.
  rewrite (searchEntries_defined settings BrowserKeyPrefix st url submitUrl
                                 keyList databases Hdbs).
  destruct (fold_left (authorize settings TRUE_STR st _ _ realm httpAuth)
                      (scanDatabases settings databases url submitUrl []) ([], []))
    as [toConfirm pwEntries].
  destruct (confirmEntries script st _) as [selected st'] eqn:Hconfirm.
  destruct (QList_isEmpty _) eqn:Hnone.
  - exists [], toConfirm. rewrite Hconfirm. split; [reflexivity | auto].
  - destruct (isDatabaseOpened st') eqn:Hopen; cbn [negb].
    + eexists _, toConfirm. rewrite Hconfirm. cbn [snd]. rewrite Hopen.
      split; [reflexivity | discriminate].
    + exists [], toConfirm. rewrite Hconfirm. split; [reflexivity | auto].
Qed.

End Matching.

Lemma findMatchingEntries_locked_is_empty_witness :
  exists result toConfirm,
    let st' :=
      (confirmEntries ConfirmExamples.lockedWhileOpen ConfirmExamples.idle
         (mkConfirm toConfirm "https://example.com/login"
                    (url_host (@QUrl_parse Sample.platform "https://example.com/login"))
                    (url_host (@QUrl_parse Sample.platform "https://example.com/login"))
                    "" false)).2 in
    @findMatchingEntries Sample.platform Sample.settings "true" "KPXC_BROWSER_"
       (string * string) Sample.prepare
       ConfirmExamples.lockedWhileOpen ConfirmExamples.idle ""
       "https://example.com/login" "https://example.com/login" ""
       ConfirmExamples.keyList false
    = Some (result, st')
    /\ (isDatabaseOpened st' = false -> result = []).
Proof.
  apply (@findMatchingEntries_locked_is_empty Sample.platform).
  right. discriminate.
Defined.

(** The same request twice: [alice]'s entry is allowed by its stored rule and
    [bob]'s entry awaits confirmation.  When the database is locked while the
    dialog is open the answer is empty; when the user merely rejects, the
    entry allowed by policy is returned. *)
Example findMatchingEntries_lock_drops_allowed :
  fst <$> @findMatchingEntries Sample.platform Sample.settings "true" "KPXC_BROWSER_"
            (string * string) Sample.prepare
            ConfirmExamples.lockedWhileOpen ConfirmExamples.idle ""
            "https://example.com/login" "https://example.com/login" ""
            ConfirmExamples.keyList false
  = Some []
  /\ fst <$> @findMatchingEntries Sample.platform Sample.settings "true" "KPXC_BROWSER_"
               (string * string) Sample.prepare
               (accessDialog [] UserRejects) ConfirmExamples.idle ""
               "https://example.com/login" "https://example.com/login" ""
               ConfirmExamples.keyList false
     = Some [("alice", "Example")].
Proof. split; vm_compute; reflexivity. Qed.

(** ** Association *)
Section Association.
Variables BrowserKeyPrefix Created : string.
Import QString QStringFacts.

Lemma append_assoc a b c : (a +:+ b) +:+ c = a +:+ b +:+ c.
Proof.
  induction a as [|x a IH]; rewrite ?append_nil_l, ?append_cons; congruence.
Qed.

Lemma append_inj_r s : forall a b, a +:+ s = b +:+ s -> a = b.
Proof.
  induction a as [|x a IH]; intros [|y b]; rewrite ?append_nil_l, ?append_cons;
    intros Heq.
  - reflexivity.
  - apply (f_equal length) in Heq. cbn [length] in Heq.
    rewrite length_app in Heq. pose proof (length_nonneg b). lia.
  - apply (f_equal length) in Heq. cbn [length] in Heq.
    rewrite length_app in Heq. pose proof (length_nonneg a). lia.
  - injection Heq as -> Heq. f_equal. now apply IH.
Qed.

Lemma keyName_not_createdName id :
  BrowserKeyPrefix <> Created +:+ "_" ->
  createdName Created id <> keyName BrowserKeyPrefix id.
Proof.
  intros Hdiff Heq. unfold createdName, keyName in Heq.
  rewrite <- append_assoc in Heq. apply append_inj_r in Heq. congruence.
Qed.

Lemma getDatabase_show st ev : getDatabase (show st ev) = getDatabase st.
Proof. reflexivity. Qed.

Lemma getDatabase_lock st : getDatabase (lockCurrentDatabase st) = getDatabase st.
Proof.
  unfold lockCurrentDatabase, getDatabase.
  destruct (m_currentDatabaseWidget st) as [w|] eqn:Hw; cbn; now rewrite ?Hw.
Qed.

Lemma getDatabase_afterKeyDialog round st :
  getDatabase (afterKeyDialog round st) = getDatabase st.
Proof.
  unfold afterKeyDialog.
  destruct (key_finish round); now rewrite ?getDatabase_lock, ?getDatabase_show.
Qed.

Lemma customData_set_open st db key value :
  isDatabaseOpened st = true ->
  getDatabase st = Some db ->
  isDatabaseOpened (customData_set st key value) = true
  /\ getDatabase (customData_set st key value)
     = Some (mkDatabase (<[key := value]> (db_customData db)) (db_rootGroup db)).
Proof.
  unfold isDatabaseOpened, getDatabase, customData_set.
  destruct (m_currentDatabaseWidget st) as [[[d|] locked]|]; cbn;
    intros Hopen Hdb; try discriminate.
  injection Hdb as ->. split; [exact Hopen | reflexivity].
Qed.

(** One round of the loop, by cases. *)
Lemma storeKeyLoop_round round script db st key now :
  storeKeyLoop BrowserKeyPrefix Created (round :: script) db st key now
  = let st1 := afterKeyDialog round st in
    let id := key_textValue round in
    if negb (match key_finish round with KeyAccepted => true | _ => false end)
       || isEmpty id || negb (isDatabaseOpened st1)
    then Some ("", st1)
    else if declinedCollision BrowserKeyPrefix db round
    then storeKeyLoop BrowserKeyPrefix Created script db
                      (show st1 (OverwritePromptShown id)) key now
    else
      let st2 :=
        if customData_contains (db_customData db) (keyName BrowserKeyPrefix id)
        then show st1 (OverwritePromptShown id) else st1 in
      Some (id, customData_set
                  (customData_set st2 (keyName BrowserKeyPrefix id) key)
                  (createdName Created id) now).
Proof.
  cbn [storeKeyLoop]. unfold afterKeyDialog, declinedCollision. cbv zeta.
  destruct (key_finish round); cbn [negb orb andb]; try reflexivity.
  destruct (isEmpty (key_textValue round)); cbn [negb orb andb]; [reflexivity|].
  destruct (isDatabaseOpened (show st KeyDialogShown)); cbn [negb]; [|reflexivity].
  destruct (customData_contains _ _); cbn [andb]; [|reflexivity].
  destruct (key_answer round); reflexivity.
Qed.

Lemma isDatabaseOpened_show st ev : isDatabaseOpened (show st ev) = isDatabaseOpened st.
Proof. reflexivity. Qed.

Lemma storeKeyLoop_result db key now script : forall st id st',
  getDatabase st = Some db ->
  storeKeyLoop BrowserKeyPrefix Created script db st key now = Some (id, st') ->
  (id = "" /\ getDatabase st' = Some db)
  \/ (id <> ""
      /\ (exists round,
             In round script
             /\ key_finish round = KeyAccepted
             /\ key_textValue round = id
             /\ declinedCollision BrowserKeyPrefix db round = false)
      /\ getDatabase st'
         = Some (mkDatabase
                   (<[createdName Created id := now]>
                      (<[keyName BrowserKeyPrefix id := key]> (db_customData db)))
                   (db_rootGroup db))).
Proof.
  induction script as [|round script IH]; intros st id st' Hdb Hrun;
    [discriminate|].
  rewrite storeKeyLoop_round in Hrun. cbv zeta in Hrun.
  destruct (negb _ || isEmpty (key_textValue round) || negb _) eqn:Hcancel.
  - injection Hrun as <- <-. left.
    now rewrite getDatabase_afterKeyDialog.
  - destruct (declinedCollision BrowserKeyPrefix db round) eqn:Hdeclined.
    + apply IH in Hrun;
        [|now rewrite getDatabase_show, getDatabase_afterKeyDialog].
      destruct Hrun as [Hcancelled | (Hid & (r & Hin & Hr) & Hst')];
        [now left | right].
      split; [exact Hid|]. split; [|exact Hst'].
      exists r. split; [now right | exact Hr].
    + injection Hrun as <- <-. right.
      apply orb_false_elim in Hcancel as [Hcancel Hopen].
      apply orb_false_elim in Hcancel as [Hok Hlabel].
      apply negb_false_iff in Hopen.
      split; [now apply isEmpty_false|]. split.
      * exists round. split; [now left|].
        split; [|split; [reflexivity | exact Hdeclined]].
        destruct (key_finish round); [reflexivity | discriminate | discriminate].
      * set (st2 := if customData_contains _ _ then _ else _).
        assert (Hopen2 : isDatabaseOpened st2 = true)
          by (subst st2; destruct (customData_contains _ _); assumption).
        assert (Hdb2 : getDatabase st2 = Some db).
        { subst st2. destruct (customData_contains _ _);
            now rewrite ?getDatabase_show, getDatabase_afterKeyDialog. }
        destruct (customData_set_open st2 db (keyName BrowserKeyPrefix (key_textValue round))
                                      key Hopen2 Hdb2) as [Hopen3 Hdb3].
        destruct (customData_set_open _ _ (createdName Created (key_textValue round))
                                      now Hopen3 Hdb3) as [_ Hdb4].
        exact Hdb4.
Qed.

Lemma storeKeyLoop_declined db round script st key now :
  declinedCollision BrowserKeyPrefix db round = true ->
  isDatabaseOpened (afterKeyDialog round st) = true ->
  storeKeyLoop BrowserKeyPrefix Created (round :: script) db st key now
  = storeKeyLoop BrowserKeyPrefix Created script db
      (show (afterKeyDialog round st) (OverwritePromptShown (key_textValue round)))
      key now.
Proof.
  intros Hdeclined Hopen. rewrite storeKeyLoop_round. cbv zeta.
  rewrite Hdeclined, Hopen. unfold declinedCollision in Hdeclined.
  destruct (key_finish round); try discriminate.
  destruct (isEmpty (key_textValue round)); [discriminate | reflexivity].
Qed.

Lemma storeKeyLoop_cancelled db round script st key now :
  key_finish round <> KeyAccepted
  \/ key_textValue round = ""
  \/ isDatabaseOpened (afterKeyDialog round st) = false ->
  storeKeyLoop BrowserKeyPrefix Created (round :: script) db st key now
  = Some ("", afterKeyDialog round st).
Proof.
  intros Hcancel. rewrite storeKeyLoop_round. cbv zeta.
  destruct Hcancel as [Hrejected | [-> | ->]].
  - destruct (key_finish round); [congruence | reflexivity | reflexivity].
  - cbn [isEmpty]. now rewrite orb_true_r.
  - cbn [negb]. now rewrite orb_true_r.
Qed.

Lemma storeKeyLoop_persisted db round script st key now :
  key_finish round = KeyAccepted ->
  key_textValue round <> "" ->
  isDatabaseOpened (afterKeyDialog round st) = true ->
  declinedCollision BrowserKeyPrefix db round = false ->
  getDatabase st = Some db ->
  exists st',
    storeKeyLoop BrowserKeyPrefix Created (round :: script) db st key now
    = Some (key_textValue round, st')
    /\ getDatabase st'
       = Some (mkDatabase
                 (<[createdName Created (key_textValue round) := now]>
                    (<[keyName BrowserKeyPrefix (key_textValue round) := key]>
                       (db_customData db)))
                 (db_rootGroup db)).
Proof.
  intros Hok Hlabel Hopen Hround Hdb.
  destruct (storeKeyLoop BrowserKeyPrefix Created (round :: script) db st key now)
    as [[id st']|] eqn:Hrun.
  - pose proof Hrun as Hstep. rewrite storeKeyLoop_round in Hstep. cbv zeta in Hstep.
    apply isEmpty_false in Hlabel.
    rewrite Hok, Hlabel, Hopen, Hround in Hstep. cbn [negb orb] in Hstep.
    injection Hstep as Hid _.
    destruct (storeKeyLoop_result db key now (round :: script) st id st' Hdb Hrun)
      as [[Hempty _] | (_ & _ & Hst')].
    + subst id. apply isEmpty_false in Hlabel. congruence.
    + subst id. eauto.
  - rewrite storeKeyLoop_round in Hrun. cbv zeta in Hrun.
    apply isEmpty_false in Hlabel.
    rewrite Hok, Hlabel, Hopen, Hround in Hrun. discriminate.
Qed.

Lemma storeKeyLoop_returns db key now script : forall st,
  existsb (fun round => negb (declinedCollision BrowserKeyPrefix db round)) script = true ->
  is_Some (storeKeyLoop BrowserKeyPrefix Created script db st key now).
Proof.
  induction script as [|round script IH]; intros st Hends; [discriminate|].
  rewrite storeKeyLoop_round. cbv zeta. cbn [existsb] in Hends.
  destruct (negb _ || isEmpty (key_textValue round) || negb _); [eauto|].
  destruct (declinedCollision BrowserKeyPrefix db round); [now apply IH | eauto].
Qed.

(** C7.  Under distinct custom-data prefixes for keys and creation times:
    when [storeKey] returns the empty identifier the database is the one it
    started with, so no key and no creation time were written and the key of
    every existing label is unchanged; otherwise the identifier is the label
    accepted in a round that was not a declined collision, and the database
    holds the new key and the creation time under that label.  Round by
    round: a rejected dialog, an empty label or a database that is no longer
    open ends the call with the empty identifier; a label that collides, with
    the overwrite prompt answered by [Cancel], writes nothing and leads to the
    next label dialog; any other round persists the key under its label and
    returns the label.  The call returns as soon as some round is not a
    declined collision. *)
Theorem storeKey_cancel_or_persist script st key now :
  BrowserKeyPrefix <> Created +:+ "_" ->
  (forall id st',
      storeKey BrowserKeyPrefix Created script st key now = Some (id, st') ->
      (id = "" /\ getDatabase st' = getDatabase st)
      \/ (id <> ""
          /\ exists db round db',
               getDatabase st = Some db
               /\ In round script
               /\ key_finish round = KeyAccepted
               /\ key_textValue round = id
               /\ declinedCollision BrowserKeyPrefix db round = false
               /\ getDatabase st' = Some db'
               /\ db_customData db'
                  = <[createdName Created id := now]>
                      (<[keyName BrowserKeyPrefix id := key]> (db_customData db))
               /\ db_customData db' !! keyName BrowserKeyPrefix id = Some key
               /\ db_customData db' !! createdName Created id = Some now))
  /\ (forall db round rest st0,
         key_finish round <> KeyAccepted
         \/ key_textValue round = ""
         \/ isDatabaseOpened (afterKeyDialog round st0) = false ->
         storeKeyLoop BrowserKeyPrefix Created (round :: rest) db st0 key now
         = Some ("", afterKeyDialog round st0)
         /\ getDatabase (afterKeyDialog round st0) = getDatabase st0)
  /\ (forall db round rest st0,
         key_finish round = KeyAccepted ->
         key_textValue round <> "" ->
         isDatabaseOpened (afterKeyDialog round st0) = true ->
         declinedCollision BrowserKeyPrefix db round = false ->
         getDatabase st0 = Some db ->
         exists st',
           storeKeyLoop BrowserKeyPrefix Created (round :: rest) db st0 key now
           = Some (key_textValue round, st')
           /\ getDatabase st'
              = Some (mkDatabase
                        (<[createdName Created (key_textValue round) := now]>
                           (<[keyName BrowserKeyPrefix (key_textValue round) := key]>
                              (db_customData db)))
                        (db_rootGroup db)))
  /\ (forall db round rest st0,
         declinedCollision BrowserKeyPrefix db round = true ->
         isDatabaseOpened (afterKeyDialog round st0) = true ->
         let st1 := show (afterKeyDialog round st0)
                         (OverwritePromptShown (key_textValue round)) in
         storeKeyLoop BrowserKeyPrefix Created (round :: rest) db st0 key now
         = storeKeyLoop BrowserKeyPrefix Created rest db st1 key now
         /\ getDatabase st1 = getDatabase st0)
  /\ (forall db,
         getDatabase st = Some db ->
         existsb (fun round => negb (declinedCollision BrowserKeyPrefix db round)) script = true ->
         is_Some (storeKey BrowserKeyPrefix Created script st key now)).
Proof.
  intros Hprefixes. split; [|split; [|split; [|split]]].
  - intros id st' Hrun. unfold storeKey in Hrun.
    destruct (getDatabase st) as [db|] eqn:Hdb.
    + destruct (storeKeyLoop_result db key now script st id st' Hdb Hrun)
        as [Hcancelled | (Hid & (round & Hin & Hok & Hlabel & Hround) & Hst')];
        [now left | right].
      split; [exact Hid|].
      eexists db, round, _.
      split; [reflexivity|]. split; [exact Hin|]. split; [exact Hok|].
      split; [exact Hlabel|]. split; [exact Hround|]. split; [exact Hst'|].
      split; [reflexivity|]. cbn [db_customData]. split.
      * rewrite lookup_insert_ne by now apply keyName_not_createdName.
        apply lookup_insert_eq.
      * apply lookup_insert_eq.
    + injection Hrun as <- <-. left. split; [reflexivity | now rewrite Hdb].
  - intros db round rest st0 Hcancel. split.
    + now apply storeKeyLoop_cancelled.
    + apply getDatabase_afterKeyDialog.
  - intros db round rest st0. apply storeKeyLoop_persisted.
  - intros db round rest st0 Hdeclined Hopen. split.
    + now apply storeKeyLoop_declined.
    + now rewrite getDatabase_show, getDatabase_afterKeyDialog.
  - intros db Hdb Hends. unfold storeKey. rewrite Hdb.
    now apply storeKeyLoop_returns.
Qed.

End Association.

Lemma storeKey_cancel_or_persist_witness :
  exists st' db',
    storeKey "KPXC_BROWSER_" "_CREATED"
             [AssociationExamples.collide; AssociationExamples.free]
             ConfirmExamples.idle AssociationExamples.key AssociationExamples.now
    = Some ("firefox-desktop", st')
    /\ getDatabase st' = Some db'
    /\ db_customData db' !! "KPXC_BROWSER_firefox-desktop"
       = Some AssociationExamples.key
    /\ db_customData db' !! "_CREATED_firefox-desktop"
       = Some AssociationExamples.now.
Proof.
  assert (Hid : fst <$> storeKey "KPXC_BROWSER_" "_CREATED"
                          [AssociationExamples.collide; AssociationExamples.free]
                          ConfirmExamples.idle AssociationExamples.key
                          AssociationExamples.now
                = Some "firefox-desktop") by reflexivity.
  destruct (storeKey _ _ _ _ _ _) as [[id st']|] eqn:Hrun; [|discriminate].
  injection Hid as ->. exists st'.
  destruct (proj1 (storeKey_cancel_or_persist
                     "KPXC_BROWSER_" "_CREATED"
                     [AssociationExamples.collide; AssociationExamples.free]
                     ConfirmExamples.idle AssociationExamples.key
                     AssociationExamples.now ltac:(discriminate))
                  _ _ Hrun)
    as [[Hempty _] | (_ & db & round & db' & _ & _ & _ & _ & _ & Hst' & _ & Hkey & Hnow)];
    [discriminate|].
  exists db'. split; [reflexivity|]. split; [exact Hst'|].
  split; [exact Hkey | exact Hnow].
Defined.

(** The user declines to overwrite [chrome-laptop] and then gives up: the
    overwrite prompt was shown between the two label dialogs, the empty
    identifier is returned and the database, with the key stored for
    [chrome-laptop], is as before. *)
Example storeKey_collision_declined :
  match storeKey "KPXC_BROWSER_" "_CREATED"
                 [AssociationExamples.collide; AssociationExamples.giveUp]
                 ConfirmExamples.idle AssociationExamples.key AssociationExamples.now
  with
  | Some (id, st') =>
      id = ""
      /\ getDatabase st' = getDatabase ConfirmExamples.idle
      /\ ui st' = [KeyDialogShown; OverwritePromptShown "chrome-laptop"; KeyDialogShown]
  | None => False
  end.
Proof. vm_compute. repeat split. Qed.


(** ** Client keys *)
Section ClientKeys.
Variables BrowserKeyPrefix Created : string.
Import QString QStringFacts.

Lemma append_inj_l p : forall a b, p +:+ a = p +:+ b -> a = b.
Proof.
  induction p as [|c p IH]; intros a b; rewrite ?append_nil_l, ?append_cons.
  - auto.
  - intros Heq. injection Heq as Heq. now apply IH.
Qed.

Lemma customData_value_nonempty (m : gmap string string) k v :
  v <> "" -> (customData_value m k = v <-> m !! k = Some v).
Proof.
  intros Hv. unfold customData_value. destruct (m !! k) as [w|]; cbn.
  - split; congruence.
  - split; [congruence | discriminate].
Qed.

Lemma databaseConnected_single id key db :
  key <> "" ->
  db_customData db !! keyName BrowserKeyPrefix id = Some key ->
  databaseConnected BrowserKeyPrefix [(id, key)] db = true.
Proof.
  intros Hkey Hstored. unfold databaseConnected. cbn [existsb fst snd].
  fold (keyName BrowserKeyPrefix id).
  apply (customData_value_nonempty _ _ _ Hkey) in Hstored. rewrite Hstored.
  apply isEmpty_false in Hkey. now rewrite Hkey, String.eqb_refl.
Qed.

(** X1.  A database is connected for a key list exactly when some pair of the
    list names a label whose persisted key is not empty and equals the key
    presented with it.  A label without a persisted key never connects, not
    even for an empty presented key. *)
Theorem databaseConnected_iff keyList db :
  databaseConnected BrowserKeyPrefix keyList db = true
  <-> exists id key,
        In (id, key) keyList
        /\ key <> ""
        /\ db_customData db !! keyName BrowserKeyPrefix id = Some key.
Proof.
  unfold databaseConnected. rewrite existsb_exists. split.
  - intros ([id key] & Hin & Hpair). cbn [fst snd] in Hpair.
    apply andb_true_iff in Hpair as [Hstored Hsame].
    apply String.eqb_eq in Hsame. apply negb_true_iff, isEmpty_false in Hstored.
    exists id, key. split; [exact Hin|].
    rewrite <- Hsame in Hstored. split; [exact Hstored|].
    apply customData_value_nonempty; [exact Hstored | now symmetry].
  - intros (id & key & Hin & Hkey & Hstored). exists (id, key).
    split; [exact Hin|]. cbn [fst snd]. fold (keyName BrowserKeyPrefix id).
    apply (customData_value_nonempty _ _ _ Hkey) in Hstored. rewrite Hstored.
    apply andb_true_iff. split.
    + now apply negb_true_iff, isEmpty_false.
    + apply String.eqb_refl.
Qed.

Lemma storeKey_result script st key now id st' :
  storeKey BrowserKeyPrefix Created script st key now = Some (id, st') ->
  (id = "" /\ getDatabase st' = getDatabase st)
  \/ (id <> ""
      /\ exists db,
           getDatabase st = Some db
           /\ getDatabase st'
              = Some (mkDatabase
                        (<[createdName Created id := now]>
                           (<[keyName BrowserKeyPrefix id := key]> (db_customData db)))
                        (db_rootGroup db))).
Proof.
  unfold storeKey. destruct (getDatabase st) as [db|] eqn:Hdb; intros Hrun.
  - destruct (storeKeyLoop_result BrowserKeyPrefix Created db key now script
                                  st id st' Hdb Hrun)
      as [[Hid Hst'] | (Hid & _ & Hst')]; [left | right; eauto].
    split; [exact Hid | congruence].
  - injection Hrun as <- <-. left. now rewrite Hdb.
Qed.

(** X2.  Association and lookup compose: after [storeKey] has returned a
    label, [getKey] for that label gives the key that was stored, and a
    non-empty key connects the database for the pair (label, key). *)
Theorem storeKey_then_getKey script st key now id st' :
  BrowserKeyPrefix <> Created +:+ "_" ->
  storeKey BrowserKeyPrefix Created script st key now = Some (id, st') ->
  id <> "" ->
  getKey BrowserKeyPrefix st' id = key
  /\ exists db',
       getDatabase st' = Some db'
       /\ (key <> "" -> databaseConnected BrowserKeyPrefix [(id, key)] db' = true).
Proof.
  intros Hprefixes Hrun Hid.
  destruct (storeKey_result script st key now id st' Hrun)
    as [[Hempty _] | (_ & db & _ & Hst')]; [congruence|].
  assert (Hstored :
            <[createdName Created id := now]>
              (<[keyName BrowserKeyPrefix id := key]> (db_customData db))
            !! keyName BrowserKeyPrefix id = Some key).
  { rewrite lookup_insert_ne
      by now apply keyName_not_createdName.
    apply lookup_insert_eq. }
  split.
  - unfold getKey. rewrite Hst'. cbn [db_customData].
    unfold customData_value. now rewrite Hstored.
  - eexists. split; [exact Hst'|]. intros Hkey.
    now apply databaseConnected_single.
Qed.

(** X3.  Association leaves the keys of the other labels alone, given that no
    key name coincides with the name of a creation time: whether [storeKey]
    returns the empty identifier or a label, [getKey] for any other label
    gives what it gave before. *)
Theorem storeKey_keeps_other_keys script st key now id st' id' :
  (forall a b, keyName BrowserKeyPrefix a <> createdName Created b) ->
  storeKey BrowserKeyPrefix Created script st key now = Some (id, st') ->
  id' <> id ->
  getKey BrowserKeyPrefix st' id' = getKey BrowserKeyPrefix st id'.
Proof.
  intros Hnames Hrun Hother. unfold getKey.
  destruct (storeKey_result script st key now id st' Hrun)
    as [[_ ->] | (_ & db & -> & ->)]; [reflexivity|].
  cbn [db_customData]. unfold customData_value.
  rewrite !lookup_insert_ne; [reflexivity | | apply not_eq_sym, Hnames].
  unfold keyName. intros Heq. apply append_inj_l in Heq. congruence.
Qed.

End ClientKeys.

Lemma storeKey_then_getKey_witness :
  exists st' db',
    storeKey "KPXC_BROWSER_" "_CREATED"
             [AssociationExamples.collide; AssociationExamples.free]
             ConfirmExamples.idle AssociationExamples.key AssociationExamples.now
    = Some ("firefox-desktop", st')
    /\ getKey "KPXC_BROWSER_" st' "firefox-desktop" = AssociationExamples.key
    /\ getDatabase st' = Some db'
    /\ databaseConnected "KPXC_BROWSER_"
         [("firefox-desktop", AssociationExamples.key)] db' = true.
Proof.
  assert (Hid : fst <$> storeKey "KPXC_BROWSER_" "_CREATED"
                          [AssociationExamples.collide; AssociationExamples.free]
                          ConfirmExamples.idle AssociationExamples.key
                          AssociationExamples.now
                = Some "firefox-desktop") by reflexivity.
  destruct (storeKey _ _ _ _ _ _) as [[id st']|] eqn:Hrun; [|discriminate].
  injection Hid as ->. exists st'.
  destruct (storeKey_then_getKey
              "KPXC_BROWSER_" "_CREATED"
              [AssociationExamples.collide; AssociationExamples.free]
              ConfirmExamples.idle AssociationExamples.key AssociationExamples.now
              "firefox-desktop" st' ltac:(discriminate) Hrun ltac:(discriminate))
    as (Hkey & db' & Hdb' & Hconnected).
  exists db'. split; [reflexivity|]. split; [exact Hkey|]. split; [exact Hdb'|].
  apply Hconnected. discriminate.
Defined.

Lemma storeKey_keeps_other_keys_witness :
  exists st',
    storeKey "KPXC_BROWSER_" "_CREATED"
             [AssociationExamples.collide; AssociationExamples.free]
             ConfirmExamples.idle AssociationExamples.key AssociationExamples.now
    = Some ("firefox-desktop", st')
    /\ getKey "KPXC_BROWSER_" st' "chrome-laptop" = "c2hhcmVkIGtleQ==".
Proof.
  assert (Hid : fst <$> storeKey "KPXC_BROWSER_" "_CREATED"
                          [AssociationExamples.collide; AssociationExamples.free]
                          ConfirmExamples.idle AssociationExamples.key
                          AssociationExamples.now
                = Some "firefox-desktop") by reflexivity.
  destruct (storeKey _ _ _ _ _ _) as [[id st']|] eqn:Hrun; [|discriminate].
  injection Hid as ->. exists st'. split; [reflexivity|].
  rewrite (storeKey_keeps_other_keys
             "KPXC_BROWSER_" "_CREATED"
             [AssociationExamples.collide; AssociationExamples.free]
             ConfirmExamples.idle AssociationExamples.key AssociationExamples.now
             "firefox-desktop" st' "chrome-laptop");
    [reflexivity | | exact Hrun | discriminate].
  intros a b Hsame. discriminate Hsame.
Defined.

(** ** What a scan returns *)
Section ScanResults.
Context `{Platform}.
Variable settings : BrowserSettings.

(** A loop that only appends: what it adds comes from its items. *)
Lemma fold_left_appends {A B : Type} (f : list B -> A -> list B)
      (P : A -> B -> Prop) :
  (forall acc x, exists added,
      f acc x = acc ++ added /\ forall b, In b added -> P x b) ->
  forall l acc, exists added,
    fold_left f l acc = acc ++ added
    /\ forall b, In b added -> exists x, In x l /\ P x b.
Proof.
  intros Hstep. induction l as [|x l IH]; intros acc; cbn [fold_left].
  - exists []. split; [now rewrite app_nil_r | intros b []].
  - destruct (Hstep acc x) as (added1 & -> & Hadded1).
    destruct (IH (acc ++ added1)) as (added2 & -> & Hadded2).
    exists (added1 ++ added2). split; [now rewrite app_assoc|].
    intros b Hb. apply in_app_or in Hb as [Hb|Hb].
    + exists x. split; [now left | now apply Hadded1].
    + destruct (Hadded2 b Hb) as (y & Hy & Hyb). exists y. split; [now right | exact Hyb].
Qed.

(** A property kept by appending and established at one item holds at the
    end of the loop. *)
Lemma fold_left_reaches {A B : Type} (f : list B -> A -> list B)
      (Q : list B -> Prop) (x0 : A) :
  (forall acc x, exists added, f acc x = acc ++ added) ->
  (forall acc added, Q acc -> Q (acc ++ added)) ->
  (forall acc, Q (f acc x0)) ->
  forall l acc, In x0 l -> Q (fold_left f l acc).
Proof.
  intros Hstep Hmono Hx0.
  assert (Hkeep : forall l acc, Q acc -> Q (fold_left f l acc)).
  { induction l as [|x l IH]; intros acc Hacc; cbn [fold_left]; [exact Hacc|].
    apply IH. destruct (Hstep acc x) as (added & ->). now apply Hmono. }
  induction l as [|x l IH]; intros acc Hin; [destruct Hin|].
  cbn [fold_left]. destruct Hin as [->|Hin].
  - apply Hkeep, Hx0.
  - now apply IH.
Qed.

Lemma entries_contains_app entries added entry :
  entries_contains entries entry = true ->
  entries_contains (entries ++ added) entry = true.
Proof.
  unfold entries_contains. rewrite existsb_app. now intros ->.
Qed.

(** What [scanEntry] appends for one entry. *)
Lemma scanEntry_appends url submitUrl entries entry :
  exists added,
    scanEntry settings url submitUrl entries entry = entries ++ added
    /\ forall e, In e added ->
         e = entry
         /\ entry_isRecycled entry = false
         /\ entryMatches settings entry url submitUrl = true.
Proof.
  unfold scanEntry, entryMatches.
  rewrite (scanAdditionalUrls_result settings).
  destruct (entry_isRecycled entry).
  { exists []. split; [now rewrite app_nil_r | intros e []]. }
  destruct (additionalUrlMatches settings entry url submitUrl) eqn:Haux;
    destruct (entries_contains entries entry) eqn:Hin;
    destruct (handleURL settings (entry_url entry) url submitUrl) eqn:Hprimary;
    cbn [andb negb orb].
  all: first
         [ exists []; split; [now rewrite app_nil_r | intros e []]
         | exists [entry]; split; [reflexivity|];
           intros e [<-|[]]; repeat split; reflexivity
         | exists [entry; entry]; split; [now rewrite <- app_assoc|];
           intros e [<-|[<-|[]]]; repeat split; reflexivity ].
Qed.

Lemma scanEntry_contains url submitUrl entries entry :
  entry_isRecycled entry = false ->
  entryMatches settings entry url submitUrl = true ->
  entries_contains (scanEntry settings url submitUrl entries entry) entry = true.
Proof.
  intros Hlive Hmatch. unfold scanEntry, entryMatches in *.
  rewrite (scanAdditionalUrls_result settings), Hlive.
  destruct (handleURL settings (entry_url entry) url submitUrl);
    cbn [negb orb] in *.
  - apply entries_contains_snoc.
  - rewrite Hmatch. cbn [andb].
    destruct (entries_contains entries entry) eqn:Hin; cbn [negb];
      [exact Hin | apply entries_contains_snoc].
Qed.

Lemma scanGroup_appends url submitUrl entries group :
  exists added,
    scanGroup settings url submitUrl entries group = entries ++ added
    /\ forall e, In e added ->
         searchableGroup group = true
         /\ In e (group_entries group)
         /\ entry_isRecycled e = false
         /\ entryMatches settings e url submitUrl = true.
Proof.
  unfold scanGroup, searchableGroup.
  destruct (group_isRecycled group || negb (group_resolveSearchingEnabled group)).
  { exists []. split; [now rewrite app_nil_r | intros e []]. }
  destruct (fold_left_appends
              (scanEntry settings url submitUrl)
              (fun entry e => e = entry /\ entry_isRecycled entry = false
                              /\ entryMatches settings entry url submitUrl = true)
              (scanEntry_appends url submitUrl)
              (group_entries group) entries) as (added & Hfold & Hadded).
  exists added. split; [exact Hfold|].
  intros e He. destruct (Hadded e He) as (entry & Hin & -> & Hlive & Hmatch).
  auto.
Qed.

(** X4.  Every entry that the scan of one database returns sits in a group
    below the root that is neither recycled nor excluded from searching, is
    not recycled itself, and has a primary or additional URL that matches the
    request. *)
Theorem searchEntries_db_sound db url submitUrl e :
  In e (searchEntries_db settings db url submitUrl) ->
  exists rootGroup group,
    db_rootGroup db = Some rootGroup
    /\ In group (groupsRecursive rootGroup)
    /\ searchableGroup group = true
    /\ In e (group_entries group)
    /\ entry_isRecycled e = false
    /\ entryMatches settings e url submitUrl = true.
Proof.
  unfold searchEntries_db. destruct (db_rootGroup db) as [rootGroup|]; [|intros []].
  destruct (fold_left_appends
              (scanGroup settings url submitUrl)
              (fun group e =>
                 searchableGroup group = true
                 /\ In e (group_entries group)
                 /\ entry_isRecycled e = false
                 /\ entryMatches settings e url submitUrl = true)
              (scanGroup_appends url submitUrl)
              (groupsRecursive rootGroup) []) as (added & -> & Hadded).
  intros He. destruct (Hadded e He) as (group & Hgroup & Hfacts).
  exists rootGroup, group. auto.
Qed.

(** X5.  Conversely, an entry that is not recycled, lies in a scanned group
    of the database and matches the request with its primary or an additional
    URL is in the result (as [QList::contains] finds it, by pointer). *)
Theorem searchEntries_db_complete db rootGroup group url submitUrl e :
  db_rootGroup db = Some rootGroup ->
  In group (groupsRecursive rootGroup) ->
  searchableGroup group = true ->
  In e (group_entries group) ->
  entry_isRecycled e = false ->
  entryMatches settings e url submitUrl = true ->
  entries_contains (searchEntries_db settings db url submitUrl) e = true.
Proof.
  intros Hroot Hgroup Hsearchable He Hlive Hmatch.
  unfold searchEntries_db. rewrite Hroot.
  apply (fold_left_reaches (scanGroup settings url submitUrl)
                           (fun entries => entries_contains entries e = true) group);
    [ | | | exact Hgroup].
  - intros acc g. destruct (scanGroup_appends url submitUrl acc g) as (added & Hg & _).
    eauto.
  - intros acc added. apply entries_contains_app.
  - intros acc. unfold scanGroup. unfold searchableGroup in Hsearchable.
    apply negb_true_iff in Hsearchable. rewrite Hsearchable.
    apply (fold_left_reaches (scanEntry settings url submitUrl)
                             (fun entries => entries_contains entries e = true) e);
      [ | | | exact He].
    + intros acc' x. destruct (scanEntry_appends url submitUrl acc' x) as (added & Hx & _).
      eauto.
    + intros acc' added. apply entries_contains_app.
    + intros acc'. now apply scanEntry_contains.
Qed.

End ScanResults.

Lemma searchEntries_db_sound_witness :
  exists rootGroup group,
    db_rootGroup SearchExamples.database = Some rootGroup
    /\ In group (groupsRecursive rootGroup)
    /\ searchableGroup group = true
    /\ In SearchExamples.entry (group_entries group)
    /\ entry_isRecycled SearchExamples.entry = false
    /\ @entryMatches Sample.platform Sample.settings SearchExamples.entry
         "https://www.example.com/login" "https://www.example.com/login" = true.
Proof.
  apply (@searchEntries_db_sound Sample.platform Sample.settings
           SearchExamples.database
           "https://www.example.com/login" "https://www.example.com/login"
           SearchExamples.entry).
  vm_compute. left. reflexivity.
Defined.

Lemma searchEntries_db_complete_witness :
  entries_contains
    (@searchEntries_db Sample.platform Sample.settings SearchExamples.database
       "https://www.example.com/login" "https://www.example.com/login")
    SearchExamples.entry = true.
Proof.
  apply (@searchEntries_db_complete Sample.platform Sample.settings
           SearchExamples.database
           (mkGroup false true [SearchExamples.entry] [])
           (mkGroup false true [SearchExamples.entry] [])).
  - reflexivity.
  - left. reflexivity.
  - reflexivity.
  - left. reflexivity.
  - reflexivity.
  - reflexivity.
Defined.

(** ** Which databases are searched *)
Section ConnectedStores.
Context `{Platform}.
Variable settings : BrowserSettings.
Variable BrowserKeyPrefix : string.

Lemma databasesToSearch_connected st keyList databases db :
  databasesToSearch settings BrowserKeyPrefix st keyList = Some databases ->
  In db databases ->
  databaseConnected BrowserKeyPrefix keyList db = true
  /\ (getDatabase st = Some db
      \/ exists dbWidget,
           In dbWidget (openDatabases st) /\ widget_database dbWidget = Some db).
Proof.
  unfold databasesToSearch. destruct (searchInAllDatabases settings).
  - intros Hdbs Hin. injection Hdbs as <-.
    destruct (fold_left_appends
                (fun databases dbWidget =>
                   match widget_database dbWidget with
                   | Some db =>
                       if databaseConnected BrowserKeyPrefix keyList db
                       then databases ++ [db] else databases
                   | None => databases
                   end)
                (fun dbWidget db =>
                   widget_database dbWidget = Some db
                   /\ databaseConnected BrowserKeyPrefix keyList db = true)
                ltac:(intros acc w; cbv beta; destruct (widget_database w) as [d|];
                      [destruct (databaseConnected BrowserKeyPrefix keyList d) eqn:Hd;
                       [exists [d]; split; [reflexivity|]; intros b [<-|[]]; auto
                       |exists []; split; [now rewrite app_nil_r | intros b []]]
                      |exists []; split; [now rewrite app_nil_r | intros b []]])
                (openDatabases st) []) as (added & Hfold & Hadded).
    rewrite Hfold in Hin. destruct (Hadded db Hin) as (w & Hw & Hdb & Hconnected).
    split; [exact Hconnected | right; eauto].
  - destruct (getDatabase st) as [current|]; [|discriminate].
    destruct (databaseConnected BrowserKeyPrefix keyList current) eqn:Hconnected;
      intros Hdbs Hin; injection Hdbs as <-; [|destruct Hin].
    destruct Hin as [<-|[]]. auto.
Qed.

Lemma scanDatabases_sources databases url submitUrl e :
  In e (scanDatabases settings databases url submitUrl []) ->
  exists db, In db databases /\ In e (searchEntries_db settings db url submitUrl).
Proof.
  unfold scanDatabases.
  destruct (fold_left_appends
              (fun entries db => entries ++ searchEntries_db settings db url submitUrl)
              (fun db e => In e (searchEntries_db settings db url submitUrl))
              ltac:(intros acc db; cbv beta; eexists; split; [reflexivity | auto])
              databases []) as (added & -> & Hadded).
  exact (Hadded e).
Qed.

(** X6.  Every entry that [searchEntries] returns was found by the scan of a
    database that is connected for the key list of the request, and that
    database is the current one or belongs to an open database widget: a
    client gets nothing from a database it holds no key for. *)
Theorem searchEntries_only_connected st url submitUrl keyList found e :
  searchEntries settings BrowserKeyPrefix st url submitUrl keyList = Some found ->
  In e found ->
  exists db,
    databaseConnected BrowserKeyPrefix keyList db = true
    /\ In e (searchEntries_db settings db url submitUrl)
    /\ (getDatabase st = Some db
        \/ exists dbWidget,
             In dbWidget (openDatabases st) /\ widget_database dbWidget = Some db).
Proof.
  intros Hsearch He.
  destruct (databasesToSearch settings BrowserKeyPrefix st keyList)
    as [databases|] eqn:Hdbs.
  - rewrite (searchEntries_defined settings BrowserKeyPrefix st url submitUrl
                                   keyList databases Hdbs) in Hsearch.
    injection Hsearch as <-.
    destruct (scanDatabases_sources databases url submitUrl e He) as (db & Hdb & Hfound).
    destruct (databasesToSearch_connected st keyList databases db Hdbs Hdb)
      as [Hconnected Hsource].
    exists db. auto.
  - unfold searchEntries in Hsearch. rewrite Hdbs in Hsearch. discriminate.
Qed.

End ConnectedStores.

Lemma searchEntries_only_connected_witness :
  exists db,
    databaseConnected "KPXC_BROWSER_" ConfirmExamples.keyList db = true
    /\ In ConfirmExamples.known
          (@searchEntries_db Sample.platform Sample.settings db
             "https://example.com/login" "https://example.com/login")
    /\ (getDatabase ConfirmExamples.idle = Some db
        \/ exists dbWidget,
             In dbWidget (openDatabases ConfirmExamples.idle)
             /\ widget_database dbWidget = Some db).
Proof.
  apply (@searchEntries_only_connected Sample.platform Sample.settings
           "KPXC_BROWSER_" ConfirmExamples.idle
           "https://example.com/login" "https://example.com/login"
           ConfirmExamples.keyList [ConfirmExamples.known; ConfirmExamples.fresh]).
  - reflexivity.
  - left. reflexivity.
Defined.

(** ** Authorization *)
Section Authorization.
Variable settings : BrowserSettings.
Variable TRUE_STR : string.

Lemma authorize_step st host submitHost realm httpAuth toConfirm pwEntries entry :
  authorize settings TRUE_STR st host submitHost realm httpAuth
            (toConfirm, pwEntries) entry
  = (toConfirm
       ++ (if routedToConfirmation settings TRUE_STR st host submitHost realm
                                   httpAuth entry then [entry] else []),
     pwEntries
       ++ (if includedByPolicy settings TRUE_STR st host submitHost realm
                               httpAuth entry then [entry] else [])).
Proof.
  unfold authorize, routedToConfirmation, includedByPolicy, visibleEntry,
    confirmationForced, optionSet.
  destruct (customData_contains (entry_customData entry) OPTION_HIDE_ENTRY
            && String.eqb (customData_value (entry_customData entry) OPTION_HIDE_ENTRY)
                          TRUE_STR);
    cbn [negb andb orb]; [now rewrite !app_nil_r|].
  destruct httpAuth; cbn [negb andb orb].
  - destruct (httpAuthPermission settings); cbn [negb andb orb].
    + destruct (checkAccess settings st entry host submitHost realm);
        destruct (alwaysAllowAccess settings);
        cbn [negb andb orb isUnknown isAllowedAccess]; now rewrite ?app_nil_r.
    + now rewrite app_nil_r.
  - destruct (customData_contains (entry_customData entry) OPTION_ONLY_HTTP_AUTH
              && String.eqb (customData_value (entry_customData entry)
                                              OPTION_ONLY_HTTP_AUTH) TRUE_STR);
      cbn [negb andb orb]; [now rewrite !app_nil_r|].
    rewrite andb_false_r. cbn [negb andb orb].
    destruct (checkAccess settings st entry host submitHost realm);
      destruct (alwaysAllowAccess settings);
      cbn [negb andb orb isUnknown isAllowedAccess]; now rewrite ?app_nil_r.
Qed.

Lemma authorize_fold st host submitHost realm httpAuth found :
  forall toConfirm pwEntries,
    fold_left (authorize settings TRUE_STR st host submitHost realm httpAuth)
              found (toConfirm, pwEntries)
    = (toConfirm
         ++ List.filter (routedToConfirmation settings TRUE_STR st host submitHost
                                              realm httpAuth) found,
       pwEntries
         ++ List.filter (includedByPolicy settings TRUE_STR st host submitHost
                                          realm httpAuth) found).
Proof.
  induction found as [|entry found IH]; intros toConfirm pwEntries;
    cbn [fold_left List.filter].
  - now rewrite !app_nil_r.
  - rewrite authorize_step, IH, <- !app_assoc.
    destruct (routedToConfirmation _ _ _ _ _ _ _ entry);
      destruct (includedByPolicy _ _ _ _ _ _ _ entry); reflexivity.
Qed.

(** X7.  The authorization loop splits the entries that were found, in their
    order, into those to confirm and those included by policy.  A hidden
    entry, an entry reserved for HTTP authentication on another kind of
    request and an entry with verdict [Denied] (unless confirmation is forced)
    are on neither list; when confirmation is forced, nothing is included by
    policy. *)
Theorem authorization_partition st host submitHost realm httpAuth found :
  fold_left (authorize settings TRUE_STR st host submitHost realm httpAuth)
            found ([], [])
  = (List.filter (routedToConfirmation settings TRUE_STR st host submitHost
                                       realm httpAuth) found,
     List.filter (includedByPolicy settings TRUE_STR st host submitHost
                                   realm httpAuth) found)
  /\ (forall entry,
        visibleEntry TRUE_STR httpAuth entry = false ->
        routedToConfirmation settings TRUE_STR st host submitHost realm httpAuth entry
        = false
        /\ includedByPolicy settings TRUE_STR st host submitHost realm httpAuth entry
           = false)
  /\ (forall entry,
        confirmationForced settings httpAuth = false ->
        checkAccess settings st entry host submitHost realm = Denied ->
        routedToConfirmation settings TRUE_STR st host submitHost realm httpAuth entry
        = false
        /\ includedByPolicy settings TRUE_STR st host submitHost realm httpAuth entry
           = false)
  /\ (confirmationForced settings httpAuth = true ->
      List.filter (includedByPolicy settings TRUE_STR st host submitHost
                                    realm httpAuth) found = []).
Proof.
  split; [apply authorize_fold|]. split; [|split].
  - intros entry Hhidden. unfold routedToConfirmation, includedByPolicy.
    now rewrite Hhidden.
  - intros entry Hfree Hdenied. unfold routedToConfirmation, includedByPolicy.
    rewrite Hfree, Hdenied. cbn [isUnknown isAllowedAccess andb orb].
    now rewrite !andb_false_r.
  - intros Hforced. induction found as [|entry found IH]; [reflexivity|].
    cbn [List.filter]. unfold includedByPolicy at 1. rewrite Hforced.
    cbn [negb]. rewrite andb_false_r. cbn [andb]. exact IH.
Qed.

End Authorization.

Lemma authorization_partition_witness :
  fold_left (authorize Sample.settings "true" ConfirmExamples.idle
                       "example.com" "example.com" "" false)
            [ConfirmExamples.known; ConfirmExamples.fresh] ([], [])
  = ([ConfirmExamples.fresh], [ConfirmExamples.known]).
Proof.
  rewrite (proj1 (authorization_partition
                    Sample.settings "true" ConfirmExamples.idle
                    "example.com" "example.com" "" false
                    [ConfirmExamples.known; ConfirmExamples.fresh])).
  reflexivity.
Defined.

(** ** What a confirmation returns and persists *)
Section ConfirmationResults.
Variable settings : BrowserSettings.

Lemma allowSelected_entries req remember rows : forall allowed st,
  (fold_left (allowSelected req remember) rows (allowed, st)).1
  = allowed ++ omap (fun row => pwEntriesToConfirm req !! row) rows.
Proof.
  induction rows as [|row rows IH]; intros allowed st; cbn [fold_left omap].
  - now rewrite app_nil_r.
  - unfold allowSelected at 2. unfold list_omap. fold (@list_omap nat Entry).
    destruct (pwEntriesToConfirm req !! row) as [entry|]; rewrite IH.
    + now rewrite <- app_assoc.
    + reflexivity.
Qed.

(** X8.  [confirmEntries] returns the entries at the rows the user selected,
    in the order of the selection, when it showed the dialog and the dialog
    was accepted; it returns nothing when there was nothing to confirm, when
    another dialog was active, and when the dialog was rejected or closed by
    a lock or a change of the active database.  Whatever it returns was on
    the list it was given. *)
Theorem confirmEntries_returns_selection events finish st req :
  (confirmEntries (accessDialog events finish) st req).1
  = (if QList_isEmpty (pwEntriesToConfirm req) || m_dialogActive st then []
     else match finish with
          | UserAccepts selectedRows _ =>
              omap (fun row => pwEntriesToConfirm req !! row) selectedRows
          | _ => []
          end)
  /\ forall e,
       In e (confirmEntries (accessDialog events finish) st req).1 ->
       In e (pwEntriesToConfirm req).
Proof.
  assert (Hresult :
            (confirmEntries (accessDialog events finish) st req).1
            = (if QList_isEmpty (pwEntriesToConfirm req) || m_dialogActive st then []
               else match finish with
                    | UserAccepts selectedRows _ =>
                        omap (fun row => pwEntriesToConfirm req !! row) selectedRows
                    | _ => []
                    end)).
  { cbn [confirmEntries].
    destruct (QList_isEmpty (pwEntriesToConfirm req) || m_dialogActive st);
      [reflexivity|].
    destruct finish as [rows remember| | |w]; try reflexivity.
    match goal with
    | |- context [fold_left (allowSelected req remember) rows (?a, ?s)] =>
        pose proof (allowSelected_entries req remember rows a s) as Hrows;
        destruct (fold_left (allowSelected req remember) rows (a, s))
    end.
    exact Hrows. }
  split; [exact Hresult|].
  intros e. rewrite Hresult.
  destruct (QList_isEmpty (pwEntriesToConfirm req) || m_dialogActive st);
    [intros []|].
  destruct finish as [rows remember| | |w]; try (intros []).
  intros He. apply list_elem_of_In, list_elem_of_omap in He as (row & _ & Hrow).
  apply list_elem_of_In. eapply list_elem_of_lookup_2. exact Hrow.
Qed.

Lemma isAllowed_allow c host : BrowserEntryConfig.isAllowed (BrowserEntryConfig.allow c host) host = true.
Proof.
  unfold BrowserEntryConfig.isAllowed, BrowserEntryConfig.allow. cbn.
  apply bool_decide_eq_true. set_solver.
Qed.

Lemma isAllowed_allow_mono c host other :
  BrowserEntryConfig.isAllowed c other = true ->
  BrowserEntryConfig.isAllowed (BrowserEntryConfig.allow c host) other = true.
Proof.
  unfold BrowserEntryConfig.isAllowed, BrowserEntryConfig.allow. cbn.
  rewrite !bool_decide_eq_true. set_solver.
Qed.

Lemma isAllowed_deny c host :
  BrowserEntryConfig.isAllowed (BrowserEntryConfig.deny c host) host = false.
Proof.
  unfold BrowserEntryConfig.isAllowed, BrowserEntryConfig.deny. cbn.
  apply bool_decide_eq_false. set_solver.
Qed.

Lemma isAllowed_deny_mono c host other :
  BrowserEntryConfig.isAllowed c other = false ->
  BrowserEntryConfig.isAllowed (BrowserEntryConfig.deny c host) other = false.
Proof.
  unfold BrowserEntryConfig.isAllowed, BrowserEntryConfig.deny. cbn.
  rewrite !bool_decide_eq_false. set_solver.
Qed.

Lemma isDenied_deny c host :
  BrowserEntryConfig.isDenied (BrowserEntryConfig.deny c host) host = true.
Proof.
  unfold BrowserEntryConfig.isDenied, BrowserEntryConfig.deny. cbn.
  apply bool_decide_eq_true. set_solver.
Qed.

Lemma isDenied_deny_mono c host other :
  BrowserEntryConfig.isDenied c other = true ->
  BrowserEntryConfig.isDenied (BrowserEntryConfig.deny c host) other = true.
Proof.
  unfold BrowserEntryConfig.isDenied, BrowserEntryConfig.deny. cbn.
  rewrite !bool_decide_eq_true. set_solver.
Qed.

(** The rule written for a remembered approval allows the request, whatever
    rule was loaded. *)
Lemma remembered_rule_allows c host submitHost realm :
  hostsAllowed
    (let config := BrowserEntryConfig.allow c host in
     let config :=
       if negb (QString.isEmpty submitHost) && negb (String.eqb host submitHost)
       then BrowserEntryConfig.allow config submitHost else config in
     if negb (QString.isEmpty realm)
     then BrowserEntryConfig.setRealm config realm else config)
    host submitHost = true.
Proof.
  cbv zeta. unfold hostsAllowed.
  assert (Hrealm : forall config,
             BrowserEntryConfig.isAllowed
               (if negb (QString.isEmpty realm)
                then BrowserEntryConfig.setRealm config realm else config)
             = BrowserEntryConfig.isAllowed config)
    by (intros config; now destruct (negb (QString.isEmpty realm))).
  rewrite !Hrealm.
  destruct (QString.isEmpty submitHost) eqn:Hsubmit; cbn [negb andb orb].
  - now rewrite isAllowed_allow.
  - destruct (String.eqb host submitHost) eqn:Hsame; cbn [negb].
    + apply String.eqb_eq in Hsame. subst submitHost. now rewrite isAllowed_allow.
    + rewrite isAllowed_allow, (isAllowed_allow_mono _ submitHost host)
        by apply isAllowed_allow.
      reflexivity.
Qed.

(** A remembered approval keeps what the rule already allowed. *)
Lemma remembered_rule_keeps c host submitHost realm host0 submitHost0 :
  hostsAllowed c host0 submitHost0 = true ->
  hostsAllowed
    (let config := BrowserEntryConfig.allow c host in
     let config :=
       if negb (QString.isEmpty submitHost) && negb (String.eqb host submitHost)
       then BrowserEntryConfig.allow config submitHost else config in
     if negb (QString.isEmpty realm)
     then BrowserEntryConfig.setRealm config realm else config)
    host0 submitHost0 = true.
Proof.
  cbv zeta. unfold hostsAllowed. intros Hbefore.
  apply andb_true_iff in Hbefore as [Hhost Hsubmit].
  assert (Hmono : forall other,
             BrowserEntryConfig.isAllowed c other = true ->
             BrowserEntryConfig.isAllowed
               (if negb (QString.isEmpty realm)
                then BrowserEntryConfig.setRealm
                       (if negb (QString.isEmpty submitHost)
                           && negb (String.eqb host submitHost)
                        then BrowserEntryConfig.allow
                               (BrowserEntryConfig.allow c host) submitHost
                        else BrowserEntryConfig.allow c host) realm
                else if negb (QString.isEmpty submitHost)
                        && negb (String.eqb host submitHost)
                     then BrowserEntryConfig.allow
                            (BrowserEntryConfig.allow c host) submitHost
                     else BrowserEntryConfig.allow c host) other = true).
  { intros other Hother.
    destruct (negb (QString.isEmpty realm));
      destruct (negb (QString.isEmpty submitHost) && negb (String.eqb host submitHost));
      repeat apply isAllowed_allow_mono; exact Hother. }
  rewrite (Hmono host0 Hhost). cbn [andb].
  apply orb_true_iff in Hsubmit as [-> | Hsubmit]; [reflexivity|].
  rewrite (Hmono submitHost0 Hsubmit). apply orb_true_r.
Qed.

Lemma allowSelected_establishes req allowed st row entry :
  pwEntriesToConfirm req !! row = Some entry ->
  entryAllows (allowSelected req true (allowed, st) row).2 (entry_ptr entry)
              (confirm_host req) (confirm_submitHost req) = true.
Proof.
  intros Hrow. unfold allowSelected. rewrite Hrow. cbn [snd].
  unfold entryAllows, config_save. cbn [accessRules set_accessRules].
  rewrite lookup_insert_eq. apply remembered_rule_allows.
Qed.

Lemma allowSelected_keeps req allowed st row ptr :
  entryAllows st ptr (confirm_host req) (confirm_submitHost req) = true ->
  entryAllows (allowSelected req true (allowed, st) row).2 ptr
              (confirm_host req) (confirm_submitHost req) = true.
Proof.
  intros Hbefore. unfold allowSelected.
  destruct (pwEntriesToConfirm req !! row) as [entry|]; [|exact Hbefore].
  cbn [snd]. unfold entryAllows, config_save in *.
  cbn [accessRules set_accessRules].
  destruct (decide (entry_ptr entry = ptr)) as [<-|Hother].
  - rewrite lookup_insert_eq. unfold loadedConfig, config_load.
    destruct (accessRules st !! entry_ptr entry) as [c|]; [|discriminate].
    cbn [default]. now apply remembered_rule_keeps.
  - now rewrite lookup_insert_ne.
Qed.

Lemma allowSelected_fold_allows req rows entry row : forall allowed st,
  pwEntriesToConfirm req !! row = Some entry ->
  In row rows
  \/ entryAllows st (entry_ptr entry) (confirm_host req) (confirm_submitHost req) = true ->
  entryAllows (fold_left (allowSelected req true) rows (allowed, st)).2
              (entry_ptr entry) (confirm_host req) (confirm_submitHost req) = true.
Proof.
  induction rows as [|r rows IH]; intros allowed st Hrow Hcase; cbn [fold_left].
  - destruct Hcase as [[]|Hbefore]. exact Hbefore.
  - destruct (allowSelected req true (allowed, st) r) as [allowed' st'] eqn:Hstep.
    apply IH; [exact Hrow|].
    destruct Hcase as [[->|Hlater]|Hbefore].
    + right. pose proof (allowSelected_establishes req allowed st row entry Hrow) as H.
      now rewrite Hstep in H.
    + now left.
    + right. pose proof (allowSelected_keeps req allowed st r _ Hbefore) as H.
      now rewrite Hstep in H.
Qed.

Lemma checkAccess_entryAllows st entry host submitHost realm :
  entryAllows st (entry_ptr entry) host submitHost = true ->
  entry_isExpired entry = false ->
  checkAccess settings st entry host submitHost realm = Allowed.
Proof.
  unfold entryAllows, checkAccess, config_load, hostsAllowed.
  destruct (accessRules st !! entry_ptr entry) as [c|]; [|discriminate].
  now intros -> ->.
Qed.

(** X9.  A remembered approval is honoured afterwards: when the dialog is
    accepted with "remember", every selected entry that is not expired gets
    [Allowed] from [checkAccess] for the host and submit host of the request,
    for any realm, in the state that [confirmEntries] leaves behind. *)
Theorem confirmEntries_remembered_allows events rows st req row entry realm :
  m_dialogActive st = false ->
  In row rows ->
  pwEntriesToConfirm req !! row = Some entry ->
  entry_isExpired entry = false ->
  checkAccess settings
              (confirmEntries (accessDialog events (UserAccepts rows true)) st req).2
              entry (confirm_host req) (confirm_submitHost req) realm
  = Allowed.
Proof.
  intros Hidle Hin Hrow Hfresh. apply checkAccess_entryAllows; [|exact Hfresh].
  cbn [confirmEntries]. rewrite Hidle.
  destruct (pwEntriesToConfirm req) as [|e es] eqn:Hreq; [discriminate|].
  cbn [QList_isEmpty orb]. rewrite <- Hreq in *.
  match goal with
  | |- context [fold_left (allowSelected req true) rows (?a, ?s)] =>
      pose proof (allowSelected_fold_allows req rows entry row a s Hrow (or_introl Hin))
        as Hallowed;
      destruct (fold_left (allowSelected req true) rows (a, s)) as [allowed st']
  end.
  exact Hallowed.
Qed.

(** X10.  Disabling access is honoured afterwards: once the slot connected
    to [disableAccess] has run for the row of an entry that is not expired,
    [checkAccess] answers [Denied] for the host of the request, whatever
    submit host and realm are asked for. *)
Theorem disableAccess_denies req st row entry submitHost realm :
  pwEntriesToConfirm req !! row = Some entry ->
  entry_isExpired entry = false ->
  checkAccess settings (disableAccess req st row) entry
              (confirm_host req) submitHost realm
  = Denied.
Proof.
  intros Hrow Hfresh. unfold disableAccess. rewrite Hrow.
  unfold checkAccess, config_load, config_save.
  cbn [accessRules set_accessRules]. rewrite lookup_insert_eq, Hfresh.
  set (denied := BrowserEntryConfig.deny (loadedConfig st entry) (confirm_host req)).
  assert (Hrealm : forall config,
             (BrowserEntryConfig.isAllowed
                (if negb (QString.isEmpty (confirm_realm req))
                 then BrowserEntryConfig.setRealm config (confirm_realm req)
                 else config) (confirm_host req)
              = BrowserEntryConfig.isAllowed config (confirm_host req))
             /\ (BrowserEntryConfig.isDenied
                   (if negb (QString.isEmpty (confirm_realm req))
                    then BrowserEntryConfig.setRealm config (confirm_realm req)
                    else config) (confirm_host req)
                 = BrowserEntryConfig.isDenied config (confirm_host req)))
    by (intros config; now destruct (negb (QString.isEmpty (confirm_realm req)))).
  destruct (Hrealm (if negb (QString.isEmpty (confirm_submitHost req))
                       && negb (String.eqb (confirm_host req) (confirm_submitHost req))
                    then BrowserEntryConfig.deny denied (confirm_submitHost req)
                    else denied)) as [-> ->].
  assert (Hallowed : BrowserEntryConfig.isAllowed
                       (if negb (QString.isEmpty (confirm_submitHost req))
                           && negb (String.eqb (confirm_host req)
                                               (confirm_submitHost req))
                        then BrowserEntryConfig.deny denied (confirm_submitHost req)
                        else denied) (confirm_host req) = false).
  { destruct (negb _ && negb _);
      [apply isAllowed_deny_mono|]; apply isAllowed_deny. }
  assert (Hdenied : BrowserEntryConfig.isDenied
                      (if negb (QString.isEmpty (confirm_submitHost req))
                          && negb (String.eqb (confirm_host req)
                                              (confirm_submitHost req))
                       then BrowserEntryConfig.deny denied (confirm_submitHost req)
                       else denied) (confirm_host req) = true).
  { destruct (negb _ && negb _);
      [apply isDenied_deny_mono|]; apply isDenied_deny. }
  now rewrite Hallowed, Hdenied.
Qed.

Lemma execDialog_reentrant_only req events : forall st,
  m_dialogActive st = true ->
  forallb (fun ev => negb (isDisableAccess ev)) events = true ->
  execDialog confirmEntries req events st = st.
Proof.
  induction events as [|[row|req' script'] events IH]; intros st Hbusy Hevents;
    cbn [execDialog forallb isDisableAccess negb andb] in *.
  - reflexivity.
  - discriminate.
  - rewrite confirmEntries_busy by exact Hbusy. cbn [snd]. now apply IH.
Qed.

Lemma allowSelected_forget req rows : forall allowed st,
  accessRules (fold_left (allowSelected req false) rows (allowed, st)).2
  = accessRules st.
Proof.
  induction rows as [|row rows IH]; intros allowed st; cbn [fold_left].
  - reflexivity.
  - unfold allowSelected at 2.
    destruct (pwEntriesToConfirm req !! row); apply IH.
Qed.

(** X11.  Nothing is persisted unless the user asks for it: when no
    [disableAccess] signal arrives while the dialog is open and the dialog
    does not end in an approval with "remember", the access rules after
    [confirmEntries] are the rules before it. *)
Theorem confirmEntries_persists_on_request events finish st req :
  forallb (fun ev => negb (isDisableAccess ev)) events = true ->
  remembers finish = false ->
  accessRules (confirmEntries (accessDialog events finish) st req).2
  = accessRules st.
Proof.
  intros Hevents Hforget. cbn [confirmEntries].
  destruct (QList_isEmpty (pwEntriesToConfirm req) || m_dialogActive st);
    [reflexivity|].
  rewrite execDialog_reentrant_only by (reflexivity || exact Hevents).
  destruct finish as [rows remember| | |w]; cbn [remembers] in Hforget;
    cbn [dialogEnds snd].
  - subst remember.
    match goal with
    | |- context [fold_left (allowSelected req false) rows (?a, ?s)] =>
        pose proof (allowSelected_forget req rows a s) as Hrules;
        destruct (fold_left (allowSelected req false) rows (a, s)) as [allowed st']
    end.
    exact Hrules.
  - reflexivity.
  - unfold lockCurrentDatabase. cbn.
    now destruct (m_currentDatabaseWidget st).
  - reflexivity.
Qed.

End ConfirmationResults.

Lemma confirmEntries_remembered_allows_witness :
  checkAccess Sample.settings
              (confirmEntries (accessDialog [] (UserAccepts [0%nat] true))
                              ConfirmExamples.idle ConfirmExamples.request).2
              ConfirmExamples.fresh "example.com" "example.com" "Any realm"
  = Allowed.
Proof.
  apply (confirmEntries_remembered_allows
           Sample.settings [] [0%nat] ConfirmExamples.idle ConfirmExamples.request
           0%nat ConfirmExamples.fresh "Any realm").
  - reflexivity.
  - left. reflexivity.
  - reflexivity.
  - reflexivity.
Defined.

Lemma disableAccess_denies_witness :
  checkAccess Sample.settings
              (disableAccess ConfirmExamples.request ConfirmExamples.idle 0%nat)
              ConfirmExamples.fresh "example.com" "" ""
  = Denied.
Proof.
  apply (disableAccess_denies Sample.settings ConfirmExamples.request
                              ConfirmExamples.idle 0%nat ConfirmExamples.fresh "" "");
    reflexivity.
Defined.

Lemma confirmEntries_persists_on_request_witness :
  accessRules
    (confirmEntries
       (accessDialog
          [Reentrant ConfirmExamples.request (accessDialog [] (UserAccepts [0%nat] true))]
          (UserAccepts [0%nat] false))
       ConfirmExamples.idle ConfirmExamples.request).2
  = accessRules ConfirmExamples.idle.
Proof.
  apply confirmEntries_persists_on_request; reflexivity.
Defined.

(** ** Ordering the results *)
Section SortedResults.
Context `{Platform}.
Variable settings : BrowserSettings.

Lemma sortPriority_level entry host submitUrl baseSubmitUrl :
  In (sortPriority entry host submitUrl baseSubmitUrl) priorityLevels.
Proof.
  unfold sortPriority.
  repeat match goal with
         | |- context [if ?b then _ else _] => destruct b
         end;
    vm_compute; tauto.
Qed.

Lemma levelsDecreasing_head i levels :
  levelsDecreasing (i :: levels) = true ->
  levelsDecreasing levels = true /\ forall j, In j levels -> j < i.
Proof.
  revert i. induction levels as [|k levels IH]; intros i Hdec.
  - split; [reflexivity | intros j []].
  - cbn [levelsDecreasing] in Hdec. apply andb_true_iff in Hdec as [Hki Hrest].
    fold (levelsDecreasing (k :: levels)) in Hrest.
    split; [exact Hrest|].
    destruct (IH k Hrest) as [_ Hbelow].
    intros j [<-|Hj]; [lia|]. specialize (Hbelow j Hj). lia.
Qed.

Lemma filter_complement_perm {A : Type} (f : A -> bool) (l : list A) :
  Permutation (List.filter f l ++ List.filter (fun x => negb (f x)) l) l.
Proof.
  induction l as [|x l IH]; cbn [List.filter]; [constructor|].
  destruct (f x); cbn [negb app].
  - now constructor.
  - symmetry. apply Permutation_cons_app. now symmetry.
Qed.

Lemma flat_map_perm {A B : Type} (f g : A -> list B) (l : list A) :
  (forall x, In x l -> Permutation (f x) (g x)) ->
  Permutation (flat_map f l) (flat_map g l).
Proof.
  induction l as [|x l IH]; intros Hfg; cbn [flat_map]; [constructor|].
  apply Permutation_app; [apply Hfg; now left|].
  apply IH. intros y Hy. apply Hfg. now right.
Qed.

(** Splitting a list of prioritized entries by level loses and repeats
    nothing, as long as every priority is one of the levels. *)
Lemma levels_partition levels : forall priorities : list (Z * Entry),
  levelsDecreasing levels = true ->
  (forall p, In p priorities -> In p.1 levels) ->
  Permutation
    (flat_map (fun i => List.filter (fun p => p.1 =? i) priorities) levels)
    priorities.
Proof.
  induction levels as [|i levels IH]; intros priorities Hdec Hkeys.
  - destruct priorities as [|p priorities]; [constructor|].
    destruct (Hkeys p (or_introl eq_refl)).
  - destruct (levelsDecreasing_head i levels Hdec) as [Hrest Hbelow].
    cbn [flat_map].
    set (others := List.filter (fun p => negb (p.1 =? i)) priorities).
    transitivity (List.filter (fun p => p.1 =? i) priorities ++ others);
      [|apply filter_complement_perm].
    apply Permutation_app_head.
    transitivity (flat_map (fun j => List.filter (fun p => p.1 =? j) others) levels).
    + apply flat_map_perm. intros j Hj. subst others.
      assert (Hji : j <> i) by (specialize (Hbelow j Hj); lia).
      clear -Hji. induction priorities as [|p priorities IHp];
        cbn [List.filter]; [constructor|].
      destruct (p.1 =? i) eqn:Hpi; cbn [negb List.filter].
      * apply Z.eqb_eq in Hpi.
        destruct (p.1 =? j) eqn:Hpj; [apply Z.eqb_eq in Hpj; congruence | exact IHp].
      * destruct (p.1 =? j); [now constructor | exact IHp].
    + apply IH; [exact Hrest|]. intros p Hp. subst others.
      apply filter_In in Hp as [Hp Hpi]. apply negb_true_iff, Z.eqb_neq in Hpi.
      destruct (Hkeys p Hp) as [Heq|Hin]; [congruence | exact Hin].
Qed.

(** The batch that the loop appends for level [i]. *)
Lemma collectLevels_all pwEntries priorities field levels : forall results,
  bestMatchOnly settings = false ->
  collectLevels settings pwEntries priorities field levels results
  = results
      ++ flat_map (fun i =>
                     if Z.of_nat (List.length (multimap_values priorities i)) >? 0
                     then std_sort Entry (entryLess field) (multimap_values priorities i)
                     else [])
                  levels.
Proof.
  intros results Hall. revert results.
  induction levels as [|i levels IH]; intros results;
    cbn [collectLevels flat_map].
  - now rewrite app_nil_r.
  - rewrite Hall. cbn [andb].
    destruct (Z.of_nat (List.length (multimap_values priorities i)) >? 0);
      rewrite IH; [now rewrite app_assoc | reflexivity].
Qed.

Lemma batch_perm priorities field i :
  sortRearranges ->
  Permutation
    (if Z.of_nat (List.length (multimap_values priorities i)) >? 0
     then std_sort Entry (entryLess field) (multimap_values priorities i)
     else [])
    (map snd (List.filter (fun p => p.1 =? i) priorities)).
Proof.
  intros Hsort. unfold multimap_values.
  destruct (rev (map snd (List.filter (fun p => p.1 =? i) priorities)))
    as [|e es] eqn:Hvalues.
  - cbn. apply (f_equal (@rev Entry)) in Hvalues. rewrite rev_involutive in Hvalues.
    rewrite Hvalues. constructor.
  - replace (Z.of_nat (List.length (e :: es)) >? 0) with true
      by (symmetry; apply Z.gtb_lt; cbn [List.length]; lia).
    rewrite (Hsort _ _), <- Hvalues. symmetry. apply Permutation_rev.
Qed.

Lemma flat_map_map_snd (priorities : list (Z * Entry)) levels :
  flat_map (fun i => map snd (List.filter (fun p => p.1 =? i) priorities)) levels
  = map snd (flat_map (fun i => List.filter (fun p => p.1 =? i) priorities) levels).
Proof.
  induction levels as [|i levels IH]; cbn [flat_map]; [reflexivity|].
  now rewrite map_app, IH.
Qed.

Lemma priorities_levels (host entryUrl : string) (pwEntries : list Entry) p :
  In p (map (fun entry => (priorityFor host entryUrl entry, entry)) pwEntries) ->
  In p.1 priorityLevels.
Proof.
  intros Hp. apply in_map_iff in Hp as (entry & <- & _).
  apply sortPriority_level.
Qed.

Lemma map_snd_priorities (host entryUrl : string) (pwEntries : list Entry) :
  map snd (map (fun entry => (priorityFor host entryUrl entry, entry)) pwEntries)
  = pwEntries.
Proof.
  induction pwEntries as [|e es IH]; cbn [map snd]; [reflexivity | now rewrite IH].
Qed.

Lemma sortEntries_unfold pwEntries host entryUrl :
  sortEntries settings pwEntries host entryUrl
  = collectLevels settings pwEntries
      (map (fun entry => (priorityFor host entryUrl entry, entry)) pwEntries)
      (if sortByTitle settings then "Title" else "UserName")
      priorityLevels [].
Proof. reflexivity. Qed.

(** X12.  Without "best match only", and with a [std::sort] that rearranges
    what it is given, [sortEntries] returns a rearrangement of the entries it
    was given: every score falls on one of the levels the loop visits, so no
    entry is dropped and none is repeated. *)
Theorem sortEntries_rearranges pwEntries host entryUrl :
  sortRearranges ->
  bestMatchOnly settings = false ->
  Permutation (sortEntries settings pwEntries host entryUrl) pwEntries.
Proof.
  intros Hsort Hall.
  rewrite sortEntries_unfold.
  rewrite collectLevels_all by exact Hall. cbn [app].
  set (priorities := map (fun entry => (priorityFor host entryUrl entry, entry)) pwEntries).
  transitivity
    (flat_map (fun i => map snd (List.filter (fun p => p.1 =? i) priorities))
              priorityLevels).
  - apply flat_map_perm. intros i _. now apply batch_perm.
  - rewrite flat_map_map_snd.
    transitivity (map snd priorities);
      [|subst priorities; now rewrite map_snd_priorities].
    apply Permutation_map, levels_partition; [reflexivity|].
    apply priorities_levels.
Qed.

Lemma nonIncreasing_app priority l1 l2 :
  nonIncreasing priority l1 ->
  nonIncreasing priority l2 ->
  (forall a b, In a l1 -> In b l2 -> priority b <= priority a) ->
  nonIncreasing priority (l1 ++ l2).
Proof.
  induction l1 as [|x l1 IH]; intros H1 H2 Hcross; cbn [app nonIncreasing] in *;
    [exact H2|].
  destruct H1 as [Hx H1]. split.
  - intros e' He'. apply in_app_or in He' as [He'|He'];
      [now apply Hx | apply Hcross; [now left | exact He']].
  - apply IH; [exact H1 | exact H2|]. intros a b Ha Hb. apply Hcross; [now right | exact Hb].
Qed.

Lemma nonIncreasing_constant priority l i :
  (forall e, In e l -> priority e = i) -> nonIncreasing priority l.
Proof.
  induction l as [|x l IH]; intros Hconst; cbn [nonIncreasing]; [exact I|].
  split.
  - intros e' He'. rewrite (Hconst x (or_introl eq_refl)), (Hconst e' (or_intror He')).
    lia.
  - apply IH. intros e He. apply Hconst. now right.
Qed.

(** The entries of the batch of level [i] have priority [i]. *)
Lemma batch_priority host entryUrl pwEntries field i e :
  sortRearranges ->
  In e (if Z.of_nat
             (List.length
                (multimap_values
                   (map (fun entry => (priorityFor host entryUrl entry, entry)) pwEntries) i))
           >? 0
        then std_sort Entry (entryLess field)
               (multimap_values
                  (map (fun entry => (priorityFor host entryUrl entry, entry)) pwEntries) i)
        else []) ->
  priorityFor host entryUrl e = i /\ In e pwEntries.
Proof.
  intros Hsort He.
  apply (Permutation_in _ (batch_perm _ field i Hsort)) in He.
  apply in_map_iff in He as ([k e'] & <- & Hp). cbn [snd].
  apply filter_In in Hp as [Hp Hk]. cbn [fst] in Hk. apply Z.eqb_eq in Hk.
  apply in_map_iff in Hp as (entry & Hpair & Hentry).
  injection Hpair as <- <-. auto.
Qed.

Lemma batches_nonIncreasing host entryUrl pwEntries field levels :
  sortRearranges ->
  levelsDecreasing levels = true ->
  nonIncreasing (priorityFor host entryUrl)
    (flat_map (fun i =>
                 if Z.of_nat
                      (List.length
                         (multimap_values
                            (map (fun entry => (priorityFor host entryUrl entry, entry))
                                 pwEntries) i))
                    >? 0
                 then std_sort Entry (entryLess field)
                        (multimap_values
                           (map (fun entry => (priorityFor host entryUrl entry, entry))
                                pwEntries) i)
                 else [])
              levels).
Proof.
  intros Hsort. induction levels as [|i levels IH]; intros Hdec;
    cbn [flat_map]; [exact I|].
  destruct (levelsDecreasing_head i levels Hdec) as [Hrest Hbelow].
  apply nonIncreasing_app.
  - apply (nonIncreasing_constant _ _ i). intros e He.
    now destruct (batch_priority host entryUrl pwEntries field i e Hsort He).
  - now apply IH.
  - intros a b Ha Hb.
    destruct (batch_priority host entryUrl pwEntries field i a Hsort Ha) as [-> _].
    apply in_flat_map in Hb as (j & Hj & Hb).
    destruct (batch_priority host entryUrl pwEntries field j b Hsort Hb) as [-> _].
    specialize (Hbelow j Hj). lia.
Qed.

(** X13.  Without "best match only", the list that [sortEntries] returns is
    ordered by score: no entry is followed by an entry of a higher
    priority. *)
Theorem sortEntries_by_priority pwEntries host entryUrl :
  sortRearranges ->
  bestMatchOnly settings = false ->
  nonIncreasing (priorityFor host entryUrl)
                (sortEntries settings pwEntries host entryUrl).
Proof.
  intros Hsort Hall.
  rewrite sortEntries_unfold.
  rewrite collectLevels_all by exact Hall. cbn [app].
  now apply batches_nonIncreasing.
Qed.

Lemma multimap_values_empty (priorities : list (Z * Entry)) i :
  (Z.of_nat (List.length (multimap_values priorities i)) >? 0) = false ->
  forall p, In p priorities -> p.1 <> i.
Proof.
  intros Hempty p Hp Hpi.
  assert (Hin : In p.2 (multimap_values priorities i)).
  { unfold multimap_values. apply in_rev. rewrite rev_involutive.
    apply in_map, filter_In. split; [exact Hp | now apply Z.eqb_eq]. }
  destruct (multimap_values priorities i) as [|e es]; [destruct Hin|].
  cbn [List.length] in Hempty. rewrite Z.gtb_ltb in Hempty.
  apply Z.ltb_ge in Hempty. lia.
Qed.

(** With "best match only" the loop stops at the first level that has
    entries, and no entry has a priority above that level. *)
Lemma collectLevels_best pwEntries priorities field levels :
  bestMatchOnly settings = true ->
  pwEntries <> [] ->
  priorities <> [] ->
  levelsDecreasing levels = true ->
  (forall p, In p priorities -> In p.1 levels) ->
  exists top,
    collectLevels settings pwEntries priorities field levels []
    = std_sort Entry (entryLess field) (multimap_values priorities top)
    /\ (Z.of_nat (List.length (multimap_values priorities top)) >? 0) = true
    /\ forall p, In p priorities -> p.1 <= top.
Proof.
  intros Hbest Hsome Hnonempty.
  induction levels as [|i levels IH]; intros Hdec Hkeys.
  - destruct priorities as [|p priorities]; [congruence|].
    destruct (Hkeys p (or_introl eq_refl)).
  - destruct (levelsDecreasing_head i levels Hdec) as [Hrest Hbelow].
    cbn [collectLevels].
    destruct (Z.of_nat (List.length (multimap_values priorities i)) >? 0) eqn:Hbatch.
    + exists i. rewrite Hbest. destruct pwEntries as [|e es]; [congruence|].
      cbn [QList_isEmpty negb andb app]. split; [reflexivity|].
      split; [exact Hbatch|].
      intros p Hp. destruct (Hkeys p Hp) as [<-|Hlater]; [lia|].
      specialize (Hbelow p.1 Hlater). lia.
    + apply IH; [exact Hrest|]. intros p Hp.
      destruct (Hkeys p Hp) as [Heq|Hlater]; [|exact Hlater].
      now destruct (multimap_values_empty priorities i Hbatch p Hp).
Qed.

Lemma filter_priorities (host entryUrl : string) (pwEntries : list Entry) i :
  map snd (List.filter (fun p => p.1 =? i)
                       (map (fun entry => (priorityFor host entryUrl entry, entry))
                            pwEntries))
  = List.filter (fun entry => priorityFor host entryUrl entry =? i) pwEntries.
Proof.
  induction pwEntries as [|e es IH]; cbn [map List.filter fst]; [reflexivity|].
  destruct (priorityFor host entryUrl e =? i); cbn [map snd]; now rewrite IH.
Qed.

(** X14.  With "best match only", a non-empty list of entries is reduced to
    its best batch: the result is a rearrangement of the entries that have
    the highest priority occurring in the list. *)
Theorem sortEntries_best_match pwEntries host entryUrl :
  sortRearranges ->
  bestMatchOnly settings = true ->
  pwEntries <> [] ->
  exists top,
    (forall e, In e pwEntries -> priorityFor host entryUrl e <= top)
    /\ (exists e, In e pwEntries /\ priorityFor host entryUrl e = top)
    /\ Permutation (sortEntries settings pwEntries host entryUrl)
                   (List.filter (fun e => priorityFor host entryUrl e =? top) pwEntries).
Proof.
  intros Hsort Hbest Hsome.
  rewrite sortEntries_unfold.
  destruct (collectLevels_best
              pwEntries
              (map (fun entry => (priorityFor host entryUrl entry, entry)) pwEntries)
              (if sortByTitle settings then "Title" else "UserName")
              priorityLevels Hbest Hsome)
    as (top & -> & Hbatch & Hmax).
  - destruct pwEntries; [congruence | discriminate].
  - reflexivity.
  - apply priorities_levels.
  - exists top. split; [|split].
    + intros e He.
      apply (Hmax (priorityFor host entryUrl e, e)), in_map_iff. eauto.
    + pose proof (batch_perm
                    (map (fun entry => (priorityFor host entryUrl entry, entry)) pwEntries)
                    (if sortByTitle settings then "Title" else "UserName")
                    top Hsort) as Hperm.
      rewrite Hbatch, filter_priorities in Hperm.
      destruct (std_sort Entry _ _) as [|e es] eqn:Hsorted.
      * pose proof (Hsort (entryLess (if sortByTitle settings then "Title" else "UserName"))
                          (multimap_values
                             (map (fun entry => (priorityFor host entryUrl entry, entry))
                                  pwEntries) top)) as Hsame.
        rewrite Hsorted in Hsame. apply Permutation_nil in Hsame.
        rewrite Hsame in Hbatch. discriminate.
      * assert (He : In e (List.filter (fun e => priorityFor host entryUrl e =? top)
                                       pwEntries))
          by (apply (Permutation_in _ Hperm); now left).
        apply filter_In in He as [He Htop]. apply Z.eqb_eq in Htop. eauto.
    + rewrite (Hsort _ _). unfold multimap_values.
      rewrite <- Permutation_rev, filter_priorities. reflexivity.
Qed.

(** Whatever the mode, [sortEntries] returns entries it was given. *)
Lemma collectLevels_In pwEntries priorities field levels :
  sortRearranges ->
  forall results e,
    In e (collectLevels settings pwEntries priorities field levels results) ->
    In e results \/ In e (map snd priorities).
Proof.
  intros Hsort. induction levels as [|i levels IH]; intros results e;
    cbn [collectLevels]; [auto|].
  assert (Hbatch : forall x,
             In x (std_sort Entry (entryLess field) (multimap_values priorities i)) ->
             In x (map snd priorities)).
  { intros x Hx. apply (Permutation_in _ (Hsort _ _)) in Hx.
    unfold multimap_values in Hx. apply in_rev in Hx.
    apply in_map_iff in Hx as (p & <- & Hp). apply filter_In in Hp as [Hp _].
    now apply in_map. }
  destruct (Z.of_nat (List.length (multimap_values priorities i)) >? 0).
  - destruct (bestMatchOnly settings && negb (QList_isEmpty pwEntries)).
    + intros He. apply in_app_or in He as [He|He]; [now left | right; now apply Hbatch].
    + intros He. apply IH in He as [He|He]; [|now right].
      apply in_app_or in He as [He|He]; [now left | right; now apply Hbatch].
  - apply IH.
Qed.

Lemma sortEntries_In pwEntries host entryUrl e :
  sortRearranges ->
  In e (sortEntries settings pwEntries host entryUrl) ->
  In e pwEntries.
Proof.
  intros Hsort He.
  rewrite sortEntries_unfold in He.
  apply (collectLevels_In _ _ _ _ Hsort) in He as [[]|He].
  now rewrite map_snd_priorities in He.
Qed.

End SortedResults.

Lemma sample_insert_perm {A : Type} (less : A -> A -> bool) x l :
  Permutation (Sample.insert less x l) (x :: l).
Proof.
  induction l as [|y l IH]; cbn [Sample.insert]; [reflexivity|].
  destruct (less y x); [|reflexivity].
  rewrite IH. apply perm_swap.
Qed.

Lemma sample_sort_rearranges : @sortRearranges Sample.platform.
Proof.
  intros less l. cbn [std_sort Sample.platform]. unfold Sample.sort.
  induction l as [|x l IH]; cbn [fold_right]; [reflexivity|].
  rewrite sample_insert_perm. now constructor.
Qed.

Lemma sortEntries_rearranges_witness :
  Permutation
    (@sortEntries Sample.platform Sample.settings
       [RankingExamples.mail; RankingExamples.mailLogin]
       "mail.example.com" "https://mail.example.com/login")
    [RankingExamples.mail; RankingExamples.mailLogin].
Proof.
  apply (@sortEntries_rearranges Sample.platform Sample.settings).
  - exact sample_sort_rearranges.
  - reflexivity.
Defined.

Lemma sortEntries_by_priority_witness :
  nonIncreasing
    (@priorityFor Sample.platform "mail.example.com" "https://mail.example.com/login")
    (@sortEntries Sample.platform Sample.settings
       [RankingExamples.mail; RankingExamples.mailLogin]
       "mail.example.com" "https://mail.example.com/login").
Proof.
  apply (@sortEntries_by_priority Sample.platform Sample.settings).
  - exact sample_sort_rearranges.
  - reflexivity.
Defined.

Lemma sortEntries_best_match_witness :
  exists top,
    (forall e, In e [RankingExamples.mail; RankingExamples.mailLogin] ->
               @priorityFor Sample.platform "mail.example.com"
                            "https://mail.example.com/login" e <= top)
    /\ (exists e, In e [RankingExamples.mail; RankingExamples.mailLogin]
                  /\ @priorityFor Sample.platform "mail.example.com"
                                  "https://mail.example.com/login" e = top)
    /\ Permutation
         (@sortEntries Sample.platform RankingSettings.bestMatch
            [RankingExamples.mail; RankingExamples.mailLogin]
            "mail.example.com" "https://mail.example.com/login")
         (List.filter
            (fun e => @priorityFor Sample.platform "mail.example.com"
                                   "https://mail.example.com/login" e =? top)
            [RankingExamples.mail; RankingExamples.mailLogin]).
Proof.
  apply (@sortEntries_best_match Sample.platform RankingSettings.bestMatch).
  - exact sample_sort_rearranges.
  - reflexivity.
  - discriminate.
Defined.

(** The best batch of the two sample entries is the exact match alone. *)
Example sortEntries_best_match_example :
  @sortEntries Sample.platform RankingSettings.bestMatch
     [RankingExamples.mail; RankingExamples.mailLogin]
     "mail.example.com" "https://mail.example.com/login"
  = [RankingExamples.mailLogin]
  /\ @sortEntries Sample.platform Sample.settings
       [RankingExamples.mail; RankingExamples.mailLogin]
       "mail.example.com" "https://mail.example.com/login"
     = [RankingExamples.mailLogin; RankingExamples.mail].
Proof. split; vm_compute; reflexivity. Qed.

(** ** What a request discloses *)
Section Disclosure.
Context `{Platform}.
Variable settings : BrowserSettings.
Variable TRUE_STR BrowserKeyPrefix : string.
Variable QJsonObject : Type.
Variable prepareEntry : Entry -> QJsonObject.

Lemma confirmEntries_subset script st req e :
  In e (confirmEntries script st req).1 -> In e (pwEntriesToConfirm req).
Proof.
  destruct script as [events finish]. cbn [confirmEntries].
  destruct (QList_isEmpty (pwEntriesToConfirm req) || m_dialogActive st);
    [intros []|].
  destruct finish as [rows remember| | |w]; try (intros []).
  match goal with
  | |- context [fold_left (allowSelected req remember) rows (?a, ?s)] =>
      pose proof (allowSelected_entries req remember rows a s) as Hrows;
      destruct (fold_left (allowSelected req remember) rows (a, s))
  end.
  cbn [fst app] in *. subst. intros He.
  apply list_elem_of_In, list_elem_of_omap in He as (row & _ & Hrow).
  apply list_elem_of_In. eapply list_elem_of_lookup_2. exact Hrow.
Qed.

Lemma routedToConfirmation_facts st host submitHost realm httpAuth e :
  routedToConfirmation settings TRUE_STR st host submitHost realm httpAuth e = true ->
  visibleEntry TRUE_STR httpAuth e = true
  /\ (confirmationForced settings httpAuth = false ->
      checkAccess settings st e host submitHost realm <> Denied).
Proof.
  unfold routedToConfirmation. intros Hrouted.
  apply andb_true_iff in Hrouted as [Hvisible Hcase]. split; [exact Hvisible|].
  intros Hfree. rewrite Hfree in Hcase. cbn [orb] in Hcase.
  destruct (checkAccess settings st e host submitHost realm); discriminate.
Qed.

Lemma includedByPolicy_facts st host submitHost realm httpAuth e :
  includedByPolicy settings TRUE_STR st host submitHost realm httpAuth e = true ->
  visibleEntry TRUE_STR httpAuth e = true
  /\ checkAccess settings st e host submitHost realm <> Denied.
Proof.
  unfold includedByPolicy. intros Hincluded.
  apply andb_true_iff in Hincluded as [Hhead Hcase].
  apply andb_true_iff in Hhead as [Hvisible _]. split; [exact Hvisible|].
  destruct (checkAccess settings st e host submitHost realm); discriminate.
Qed.

(** X15.  Given a [std::sort] that rearranges its input, every object in the
    answer of [findMatchingEntries] is the serialization of an entry that
    [searchEntries] found for the request and that is neither hidden nor
    reserved for HTTP authentication on another kind of request; unless
    confirmation was forced by an HTTP authentication request, its verdict at
    the time of the request was not [Denied]; and the current database is
    open when the answer is given. *)
Theorem findMatchingEntries_discloses
        script st dbid url submitUrl realm keyList httpAuth result st' j :
  sortRearranges ->
  findMatchingEntries settings TRUE_STR BrowserKeyPrefix QJsonObject prepareEntry
                      script st dbid url submitUrl realm keyList httpAuth
  = Some (result, st') ->
  In j result ->
  exists found e,
    searchEntries settings BrowserKeyPrefix st url submitUrl keyList = Some found
    /\ In e found
    /\ j = prepareEntry e
    /\ visibleEntry TRUE_STR httpAuth e = true
    /\ (confirmationForced settings httpAuth = false ->
        checkAccess settings st e (url_host (QUrl_parse url))
                    (url_host (QUrl_parse submitUrl)) realm <> Denied)
    /\ isDatabaseOpened st' = true.
Proof.
  intros Hsort Hrun Hj. unfold findMatchingEntries in Hrun.
  destruct (searchEntries settings BrowserKeyPrefix st url submitUrl keyList)
    as [found|]; [|discriminate].
  rewrite authorize_fold in Hrun. cbn [app] in Hrun.
  set (toConfirm := List.filter _ found) in Hrun.
  set (pwEntries := List.filter _ found) in Hrun.
  pose proof (confirmEntries_subset
                script st
                (mkConfirm toConfirm url (url_host (QUrl_parse url))
                           (url_host (QUrl_parse submitUrl)) realm httpAuth))
    as Hselected.
  destruct (confirmEntries script st _) as [selected stc].
  cbn [fst pwEntriesToConfirm] in Hselected.
  destruct (QList_isEmpty _) eqn:Hnone in Hrun;
    [injection Hrun as <- _; destruct Hj|].
  destruct (isDatabaseOpened stc) eqn:Hopen; cbn [negb] in Hrun;
    [|injection Hrun as <- _; destruct Hj].
  injection Hrun as <- <-.
  apply in_map_iff in Hj as (e & <- & He).
  apply (sortEntries_In settings _ _ _ _ Hsort) in He.
  assert (Hsource : In e pwEntries \/ In e toConfirm).
  { destruct (QList_isEmpty selected); cbn [negb] in He; [now left|].
    apply in_app_or in He as [He|He]; [now left | right; now apply Hselected]. }
  exists found, e. split; [reflexivity|].
  destruct Hsource as [He'|He']; subst pwEntries toConfirm;
    apply filter_In in He' as [Hfound Hclass].
  - apply includedByPolicy_facts in Hclass as [Hvisible Hverdict]. auto 6.
  - apply routedToConfirmation_facts in Hclass as [Hvisible Hverdict]. auto 6.
Qed.

End Disclosure.

Lemma findMatchingEntries_discloses_witness :
  exists found e,
    @searchEntries Sample.platform Sample.settings "KPXC_BROWSER_"
       ConfirmExamples.idle "https://example.com/login" "https://example.com/login"
       ConfirmExamples.keyList = Some found
    /\ In e found
    /\ ("alice", "Example") = Sample.prepare e
    /\ visibleEntry "true" false e = true
    /\ (confirmationForced Sample.settings false = false ->
        checkAccess Sample.settings ConfirmExamples.idle e
                    (url_host (@QUrl_parse Sample.platform "https://example.com/login"))
                    (url_host (@QUrl_parse Sample.platform "https://example.com/login"))
                    "" <> Denied).
Proof.
  assert (Hresult :
            fst <$> @findMatchingEntries Sample.platform Sample.settings "true"
                      "KPXC_BROWSER_" (string * string) Sample.prepare
                      (accessDialog [] UserRejects) ConfirmExamples.idle ""
                      "https://example.com/login" "https://example.com/login" ""
                      ConfirmExamples.keyList false
            = Some [("alice", "Example")]) by (vm_compute; reflexivity).
  destruct (findMatchingEntries _ _ _ _ _ _ _ _ _ _ _ _ _)
    as [[result st']|] eqn:Hrun; [|discriminate].
  injection Hresult as ->.
  destruct (@findMatchingEntries_discloses
              Sample.platform Sample.settings "true" "KPXC_BROWSER_"
              (string * string) Sample.prepare
              (accessDialog [] UserRejects) ConfirmExamples.idle ""
              "https://example.com/login" "https://example.com/login" ""
              ConfirmExamples.keyList false [("alice", "Example")] st'
              ("alice", "Example") sample_sort_rearranges Hrun
              (or_introl eq_refl))
    as (found & e & Hfound & He & Hj & Hvisible & Hverdict & _).
  exists found, e. auto.
Defined.

(** ** More facts about the [QString] operations *)
Module QStringSuffix.
Import QString QStringFacts.

Lemma take_drop n : forall s, take n s +:+ drop n s = s.
Proof.
  induction n as [|n IH]; intros [|c s]; cbn [take drop];
    rewrite ?append_nil_l, ?append_cons; try reflexivity.
  now rewrite IH.
Qed.

Lemma take_app a b : take (Z.to_nat (length a)) (a +:+ b) = a.
Proof.
  induction a as [|c a IH].
  - reflexivity.
  - cbn [length]. pose proof (length_nonneg a).
    replace (Z.to_nat (1 + length a)) with (S (Z.to_nat (length a))) by lia.
    rewrite append_cons. cbn [take]. now rewrite IH.
Qed.

Lemma chop_app a b : chop (a +:+ b) (length b) = a.
Proof.
  unfold chop. rewrite length_app.
  replace (length a + length b - length b) with (length a) by lia.
  apply take_app.
Qed.

(** [endsWith] holds exactly for the strings that have [x] at their end. *)
Lemma endsWith_iff s x : endsWith s x = true <-> exists p, s = p +:+ x.
Proof.
  unfold endsWith, mid. split.
  - intros Hends. apply andb_true_iff in Hends as [_ Heq].
    apply String.eqb_eq in Heq.
    exists (take (Z.to_nat (length s - length x)) s).
    transitivity (take (Z.to_nat (length s - length x)) s
                  +:+ drop (Z.to_nat (length s - length x)) s);
      [symmetry; apply take_drop | now rewrite Heq].
  - intros [p ->]. rewrite length_app.
    pose proof (length_nonneg p). pose proof (length_nonneg x).
    apply andb_true_iff. split; [apply Z.leb_le; lia|].
    replace (length p + length x - length x) with (length p) by lia.
    rewrite drop_app. apply String.eqb_refl.
Qed.

Lemma startsWith_app x rest : startsWith (x +:+ rest) x = true.
Proof.
  induction x as [|c x IH]; [apply startsWith_empty|].
  rewrite append_cons. cbn [startsWith].
  now rewrite Ascii.eqb_refl, IH.
Qed.

Lemma indexOfFrom_found p x from :
  0 <= from -> indexOfFrom (p +:+ x) x from <> -1.
Proof.
  revert from. induction p as [|c p IH]; intros from Hfrom.
  - rewrite append_nil_l.
    destruct x as [|d x]; cbn [indexOfFrom]; [cbn; lia|].
    pose proof (startsWith_app (String d x) "") as Hself.
    rewrite append_empty_r in Hself. rewrite Hself. lia.
  - rewrite append_cons. cbn [indexOfFrom].
    destruct (startsWith (String c (p +:+ x)) x); [lia|].
    apply IH. lia.
Qed.

Lemma contains_suffix p x : contains (p +:+ x) x = true.
Proof.
  unfold contains, indexOf. apply negb_true_iff, Z.eqb_neq.
  now apply indexOfFrom_found.
Qed.

Lemma split_nonempty s sep : split s sep <> [].
Proof.
  destruct s as [|c s]; cbn [split]; [discriminate|].
  destruct (Ascii.eqb c sep); [discriminate|].
  destruct (split s sep); discriminate.
Qed.

(** Round trip: joining the parts of a split gives the string back. *)
Lemma joinWith_split sep s : joinWith sep (split s sep) = s.
Proof.
  induction s as [|c s IH]; [reflexivity|].
  cbn [split]. destruct (Ascii.eqb c sep) eqn:Hc.
  - apply Ascii.eqb_eq in Hc. subst c.
    pose proof (split_nonempty s sep).
    cbn [joinWith]. destruct (split s sep) as [|w ws]; [congruence|].
    rewrite append_nil_l. now rewrite IH.
  - pose proof (split_nonempty s sep).
    destruct (split s sep) as [|w ws]; [congruence|].
    cbn [joinWith] in *. destruct ws as [|w' ws].
    + now rewrite IH.
    + rewrite append_cons. now rewrite IH.
Qed.

Lemma last_cons (w : string) ws :
  ws <> [] -> last (w :: ws) = last ws.
Proof. destruct ws; [congruence | reflexivity]. Qed.

(** The last part of a split on dots has no dot and ends the string. *)
Lemma last_split_dot s :
  count (last (split s ".")) "." = 0
  /\ exists pre, s = pre +:+ last (split s ".").
Proof.
  induction s as [|c s (Hcount & pre & Hpre)].
  - split; [reflexivity | exists ""; reflexivity].
  - pose proof (split_nonempty s ".") as Hparts.
    pose proof (joinWith_split "." s) as Hjoin.
    cbn [split]. destruct (Ascii.eqb c ".") eqn:Hc.
    + rewrite last_cons by exact Hparts. split; [exact Hcount|].
      exists (String c pre). rewrite append_cons. now rewrite <- Hpre.
    + destruct (split s ".") as [|w ws]; [congruence|].
      destruct ws as [|w' ws].
      * cbn [joinWith] in Hjoin. subst w. unfold last in *. cbn [List.last] in *.
        split; [|exists ""; reflexivity].
        rewrite count_dot_cons. rewrite Ascii.eqb_sym in Hc. rewrite Hc. lia.
      * rewrite last_cons by discriminate.
        rewrite last_cons in Hcount, Hpre by discriminate.
        split; [exact Hcount|].
        exists (String c pre). rewrite append_cons. now rewrite <- Hpre.
Qed.

End QStringSuffix.

(** ** When a URL matches *)
Section UrlMatching.
Context `{Platform}.
Variable settings : BrowserSettings.
Import QString QStringFacts QStringSuffix.

(** X16.  For a request that is not about a local file, [handleURL] accepts
    an entry URL only if it is not empty, parses to a non-empty host, has
    none of the illegal characters, names no port or the port of the page,
    has (under scheme matching) no scheme or the scheme of the page, has the
    base domain of the page, and has a host that ends the host of the page;
    so the host of the entry is never longer than the host of the page. *)
Theorem handleURL_requires entryUrl url submitUrl :
  contains url "file://" = false ->
  handleURL settings entryUrl url submitUrl = true ->
  entryUrl <> ""
  /\ url_host (parsedEntryUrl settings entryUrl) <> ""
  /\ hasIllegalChar entryUrl = false
  /\ (url_port (parsedEntryUrl settings entryUrl) > 0 ->
      url_port (parsedEntryUrl settings entryUrl) = url_port (QUrl_parse url))
  /\ (matchUrlScheme settings = true ->
      url_scheme (parsedEntryUrl settings entryUrl) <> "" ->
      url_scheme (parsedEntryUrl settings entryUrl) = url_scheme (QUrl_parse url))
  /\ baseDomain (url_host (QUrl_parse url))
     = baseDomain (url_host (parsedEntryUrl settings entryUrl))
  /\ (exists subdomains,
        url_host (QUrl_parse url)
        = subdomains +:+ url_host (parsedEntryUrl settings entryUrl))
  /\ length (url_host (parsedEntryUrl settings entryUrl))
     <= length (url_host (QUrl_parse url)).
Proof.
  intros Hnet Hmatch. unfold handleURL in Hmatch.
  fold (parsedEntryUrl settings entryUrl) in Hmatch.
  set (entry := parsedEntryUrl settings entryUrl) in *.
  destruct (isEmpty entryUrl) eqn:Hentry; [discriminate|].
  rewrite Hnet in Hmatch.
  destruct (isEmpty (url_host entry)) eqn:Hhost; [discriminate|].
  destruct ((url_port entry >? 0)
            && negb (url_port entry =? url_port (QUrl_parse url))) eqn:Hport;
    [discriminate|].
  destruct (matchUrlScheme settings
            && negb (isEmpty (url_scheme entry))
            && negb (String.eqb (url_scheme entry) (url_scheme (QUrl_parse url))))
    eqn:Hscheme; [discriminate|].
  destruct (hasIllegalChar entryUrl) eqn:Hchars; [discriminate|].
  destruct (negb (String.eqb (baseDomain (url_host (QUrl_parse url)))
                             (baseDomain (url_host entry)))) eqn:Hbase;
    [discriminate|].
  destruct (endsWith (url_host (QUrl_parse url)) (url_host entry)) eqn:Hends;
    [|discriminate].
  apply endsWith_iff in Hends as [subdomains Hends].
  split; [now apply isEmpty_false|]. split; [now apply isEmpty_false|].
  split; [reflexivity|]. split; [|split; [|split; [|split]]].
  - intros Hused. destruct (Z.gtb_spec (url_port entry) 0) as [_|Hle]; [|lia].
    cbn [andb] in Hport. apply negb_false_iff, Z.eqb_eq in Hport. exact Hport.
  - intros Hstrict Hnamed. rewrite Hstrict in Hscheme.
    apply isEmpty_false in Hnamed. rewrite Hnamed in Hscheme. cbn [negb andb] in Hscheme.
    now apply negb_false_iff, String.eqb_eq in Hscheme.
  - now apply negb_false_iff, String.eqb_eq in Hbase.
  - eauto.
  - rewrite Hends, length_app. pose proof (length_nonneg subdomains). lia.
Qed.

End UrlMatching.

Lemma handleURL_requires_witness :
  "https://example.com" <> ""
  /\ url_host (@parsedEntryUrl Sample.platform Sample.settings "https://example.com") <> ""
  /\ hasIllegalChar "https://example.com" = false
  /\ (url_port (@parsedEntryUrl Sample.platform Sample.settings "https://example.com") > 0 ->
      url_port (@parsedEntryUrl Sample.platform Sample.settings "https://example.com")
      = url_port (@QUrl_parse Sample.platform "https://www.example.com/login"))
  /\ (matchUrlScheme Sample.settings = true ->
      url_scheme (@parsedEntryUrl Sample.platform Sample.settings "https://example.com") <> "" ->
      url_scheme (@parsedEntryUrl Sample.platform Sample.settings "https://example.com")
      = url_scheme (@QUrl_parse Sample.platform "https://www.example.com/login"))
  /\ @baseDomain Sample.platform
       (url_host (@QUrl_parse Sample.platform "https://www.example.com/login"))
     = @baseDomain Sample.platform
         (url_host (@parsedEntryUrl Sample.platform Sample.settings "https://example.com"))
  /\ (exists subdomains,
        url_host (@QUrl_parse Sample.platform "https://www.example.com/login")
        = subdomains
          +:+ url_host (@parsedEntryUrl Sample.platform Sample.settings "https://example.com"))
  /\ QString.length
       (url_host (@parsedEntryUrl Sample.platform Sample.settings "https://example.com"))
     <= QString.length
          (url_host (@QUrl_parse Sample.platform "https://www.example.com/login")).
Proof.
  apply (@handleURL_requires Sample.platform Sample.settings
           "https://example.com" "https://www.example.com/login"
           "https://www.example.com/login");
    reflexivity.
Defined.

(** ** The shape of a base domain *)
Section BaseDomainShape.
Context `{Platform}.
Import QString QStringFacts QStringSuffix.

(** X17.  For a host that is no IP literal, is not empty and ends with the
    public suffix reported for it, [baseDomain] is one label without a dot
    followed by that suffix, and it ends the host: the base domain of a host
    is always a tail of the host. *)
Theorem baseDomain_label_and_suffix hostname :
  QHostAddress_isNull hostname = true ->
  url_host (QUrl_fromUserInput hostname) <> "" ->
  endsWith (url_host (QUrl_fromUserInput hostname))
           (QUrl_topLevelDomain (QUrl_fromUserInput hostname)) = true ->
  exists label,
    baseDomain hostname = label +:+ QUrl_topLevelDomain (QUrl_fromUserInput hostname)
    /\ count label "." = 0
    /\ endsWith (url_host (QUrl_fromUserInput hostname)) (baseDomain hostname) = true.
Proof.
  intros Hname Hhost Hsuffix. unfold baseDomain. rewrite Hname. cbn [negb].
  set (host := url_host (QUrl_fromUserInput hostname)) in *.
  set (tld := QUrl_topLevelDomain (QUrl_fromUserInput hostname)) in *.
  apply endsWith_iff in Hsuffix as [front Hfront].
  apply isEmpty_false in Hhost. rewrite Hhost, Hfront, contains_suffix, chop_app.
  cbn [negb orb].
  destruct (last_split_dot front) as (Hlabel & pre & Hpre).
  exists (last (split front ".")). split; [reflexivity|]. split; [exact Hlabel|].
  apply endsWith_iff. exists pre.
  rewrite Hpre at 1. apply append_assoc.
Qed.

End BaseDomainShape.

Lemma baseDomain_label_and_suffix_witness :
  exists label,
    @baseDomain Sample.platform "another.example.co.uk"
    = label +:+ @QUrl_topLevelDomain Sample.platform
                  (@QUrl_fromUserInput Sample.platform "another.example.co.uk")
    /\ QString.count label "." = 0
    /\ QString.endsWith
         (url_host (@QUrl_fromUserInput Sample.platform "another.example.co.uk"))
         (@baseDomain Sample.platform "another.example.co.uk") = true.
Proof.
  apply (@baseDomain_label_and_suffix Sample.platform "another.example.co.uk").
  - reflexivity.
  - discriminate.
  - reflexivity.
Defined.

(** ** Group paths *)
Section GroupPaths.
Import QString QStringFacts QStringSuffix.

Lemma joinWith_cons sep a b parts :
  joinWith sep (a :: b :: parts) = a +:+ String sep (joinWith sep (b :: parts)).
Proof. reflexivity. Qed.

Lemma joinWith_snoc sep done g :
  done <> [] ->
  joinWith sep (done ++ [g]) = joinWith sep done +:+ String sep g.
Proof.
  induction done as [|d done IH]; [congruence|]. intros _.
  destruct done as [|d' done].
  - reflexivity.
  - change ((d :: d' :: done) ++ [g]) with (d :: d' :: (done ++ [g])).
    rewrite !joinWith_cons.
    change (d' :: (done ++ [g])) with ((d' :: done) ++ [g]).
    rewrite IH by discriminate.
    now rewrite append_assoc, append_cons.
Qed.

Lemma getGroupName_loop_joins n : forall done rest,
  (n <= List.length rest)%nat ->
  getGroupName_loop (done ++ rest) (List.length done) n (joinWith "/" done)
  = Some (joinWith "/" (done ++ firstn n rest)).
Proof.
  induction n as [|n IH]; intros done rest Hn; cbn [getGroupName_loop firstn].
  - now rewrite app_nil_r.
  - destruct rest as [|g rest]; [cbn in Hn; lia|].
    rewrite lookup_app_r by lia. rewrite Nat.sub_diag. cbn [lookup list_lookup].
    replace (joinWith "/" done +:+ (if Nat.eqb (List.length done) 0 then "" else "/") +:+ g)
      with (joinWith "/" (done ++ [g])).
    + replace (S (List.length done)) with (List.length (done ++ [g]))
        by (rewrite List.length_app; cbn; lia).
      replace (done ++ g :: rest) with ((done ++ [g]) ++ rest)
        by now rewrite <- app_assoc.
      rewrite IH by (cbn in Hn; lia).
      now rewrite <- app_assoc.
    + destruct done as [|d done].
      * reflexivity.
      * rewrite joinWith_snoc by discriminate. reflexivity.
Qed.

Lemma joinWith_prefix sep n : forall parts,
  startsWith (joinWith sep parts) (joinWith sep (firstn (S n) parts)) = true.
Proof.
  induction n as [|n IH]; intros [|p parts]; cbn [firstn joinWith];
    try reflexivity.
  - destruct parts; [|apply startsWith_app].
    pose proof (startsWith_app p "") as Hself. now rewrite append_empty_r in Hself.
  - specialize (IH parts). destruct parts as [|q parts]; cbn [firstn joinWith] in *.
    + pose proof (startsWith_app p "") as Hself. now rewrite append_empty_r in Hself.
    + clear -IH. induction p as [|c p IHp]; rewrite ?append_nil_l, ?append_cons.
      * cbn [startsWith]. now rewrite Ascii.eqb_refl.
      * cbn [startsWith]. now rewrite Ascii.eqb_refl.
Qed.

(** X18.  The lambda [getGroupName] of [createNewGroup] rebuilds the
    requested path from its parts: at the last depth it gives the group name
    that was split, at every depth within the parts it gives a prefix of that
    name, and beyond the parts it has no value. *)
Theorem getGroupName_rebuilds_path groupName depth :
  getGroupName (split groupName "/") (List.length (split groupName "/") - 1)
  = Some groupName
  /\ ((depth < List.length (split groupName "/"))%nat ->
      exists path,
        getGroupName (split groupName "/") depth = Some path
        /\ startsWith groupName path = true)
  /\ ((List.length (split groupName "/") <= depth)%nat ->
      getGroupName (split groupName "/") depth = None).
Proof.
  pose proof (split_nonempty groupName "/") as Hparts.
  pose proof (joinWith_split "/" groupName) as Hjoin.
  set (groups := split groupName "/") in *.
  assert (Hdepth : forall d, (d < List.length groups)%nat ->
                             getGroupName groups d
                             = Some (joinWith "/" (firstn (S d) groups))).
  { intros d Hd. unfold getGroupName.
    replace (d + 1)%nat with (S d) by lia.
    exact (getGroupName_loop_joins (S d) [] groups ltac:(lia)). }
  split; [|split].
  - rewrite Hdepth by (destruct groups; [congruence | cbn; lia]).
    replace (S (List.length groups - 1)) with (List.length groups)
      by (destruct groups; [congruence | cbn; lia]).
    now rewrite firstn_all, Hjoin.
  - intros Hd. exists (joinWith "/" (firstn (S depth) groups)).
    split; [now apply Hdepth|]. rewrite <- Hjoin at 1. apply joinWith_prefix.
  - intros Hd. unfold getGroupName.
    replace (depth + 1)%nat with (S depth) by lia.
    assert (Hloop : forall n i acc,
               (0 < n)%nat ->
               (List.length groups < i + n)%nat ->
               getGroupName_loop groups i n acc = None).
    { induction n as [|n IH]; intros i acc Hn Hi; [lia|].
      cbn [getGroupName_loop].
      destruct (groups !! i) eqn:Hlookup; [|reflexivity].
      apply lookup_lt_Some in Hlookup.
      apply IH; lia. }
    apply Hloop; lia.
Qed.

End GroupPaths.

Lemma getGroupName_rebuilds_path_witness :
  exists path,
    getGroupName (QString.split "Work/Web/Shops" "/") 1 = Some path
    /\ QString.startsWith "Work/Web/Shops" path = true.
Proof.
  apply (proj1 (proj2 (getGroupName_rebuilds_path "Work/Web/Shops" 1))).
  vm_compute. lia.
Defined.

(** ** Moving legacy settings *)
Section LegacySettings.

Lemma attributes_contains_remove entry name :
  attributes_contains (attributes_remove entry name) name = false.
Proof.
  unfold attributes_contains, attributes_remove, attributes_keys.
  cbn [entry_attributes].
  induction (entry_attributes entry) as [|[k v] l IH]; cbn [List.filter map existsb fst];
    [reflexivity|].
  destruct (String.eqb k name) eqn:Hk; cbn [negb map existsb fst]; [exact IH|].
  rewrite String.eqb_sym, Hk. exact IH.
Qed.

Lemma attributes_contains_remove_other entry name other :
  other <> name ->
  attributes_contains (attributes_remove entry name) other
  = attributes_contains entry other.
Proof.
  intros Hother. unfold attributes_contains, attributes_remove, attributes_keys.
  cbn [entry_attributes].
  induction (entry_attributes entry) as [|[k v] l IH]; cbn [List.filter map existsb fst];
    [reflexivity|].
  destruct (String.eqb k name) eqn:Hk; cbn [negb map existsb fst].
  - apply String.eqb_eq in Hk. subst k.
    apply String.eqb_neq in Hother. now rewrite Hother.
  - now rewrite IH.
Qed.

Lemma attributes_value_remove_other entry name other :
  other <> name ->
  attributes_value (attributes_remove entry name) other
  = attributes_value entry other.
Proof.
  intros Hother. unfold attributes_value, attributes_remove.
  cbn [entry_attributes].
  induction (entry_attributes entry) as [|[k v] l IH]; cbn [List.filter assoc_value fst];
    [reflexivity|].
  destruct (String.eqb k name) eqn:Hk; cbn [negb assoc_value].
  - apply String.eqb_eq in Hk. subst k.
    apply not_eq_sym, String.eqb_neq in Hother. now rewrite Hother.
  - now rewrite IH.
Qed.

(** X19.  [moveSettingsToCustomData] reports whether the entry had the
    attribute.  Afterwards the attribute is gone, so a second call reports
    [false] and changes nothing; the other attributes keep their values; and
    the custom data holds the value of the attribute under
    [KEEPASSXCBROWSER_NAME] if that value was not empty, and is unchanged
    otherwise. *)
Theorem moveSettingsToCustomData_once entry name :
  let moved := (moveSettingsToCustomData entry name).1 in
  let entry' := (moveSettingsToCustomData entry name).2 in
  moved = attributes_contains entry name
  /\ attributes_contains entry' name = false
  /\ moveSettingsToCustomData entry' name = (false, entry')
  /\ (forall other, other <> name ->
        attributes_contains entry' other = attributes_contains entry other
        /\ attributes_value entry' other = attributes_value entry other)
  /\ entry_customData entry'
     = (if attributes_contains entry name
           && negb (QString.isEmpty (attributes_value entry name))
        then <[KEEPASSXCBROWSER_NAME := attributes_value entry name]>
               (entry_customData entry)
        else entry_customData entry).
Proof.
  cbv zeta. unfold moveSettingsToCustomData.
  destruct (attributes_contains entry name) eqn:Hhas; cbn [fst snd andb].
  - split; [reflexivity|]. split; [apply attributes_contains_remove|].
    split; [now rewrite attributes_contains_remove|]. split.
    + intros other Hother.
      rewrite attributes_contains_remove_other, attributes_value_remove_other
        by exact Hother.
      now destruct (negb (QString.isEmpty (attributes_value entry name))).
    + now destruct (negb (QString.isEmpty (attributes_value entry name))).
  - split; [reflexivity|]. split; [exact Hhas|].
    split; [now rewrite Hhas|]. split; [auto | reflexivity].
Qed.

End LegacySettings.

Section AllLegacySettings.

Lemma moveSettingsToCustomData_moved entry name :
  (moveSettingsToCustomData entry name).1 = attributes_contains entry name.
Proof.
  unfold moveSettingsToCustomData.
  now destruct (attributes_contains entry name).
Qed.

Lemma moveSettingsToCustomData_removes entry name :
  attributes_contains (moveSettingsToCustomData entry name).2 name = false.
Proof.
  unfold moveSettingsToCustomData.
  destruct (attributes_contains entry name) eqn:Hhas; cbn [snd];
    [apply attributes_contains_remove | exact Hhas].
Qed.

Lemma moveSettingsToCustomData_other entry name other :
  other <> name ->
  attributes_contains (moveSettingsToCustomData entry name).2 other
  = attributes_contains entry other
  /\ attributes_value (moveSettingsToCustomData entry name).2 other
     = attributes_value entry other.
Proof.
  intros Hother. unfold moveSettingsToCustomData.
  destruct (attributes_contains entry name); cbn [snd]; [|auto].
  rewrite attributes_contains_remove_other, attributes_value_remove_other
    by exact Hother.
  now destruct (negb (QString.isEmpty (attributes_value entry name))).
Qed.

Lemma moveSettingsToCustomData_customData entry name :
  entry_customData (moveSettingsToCustomData entry name).2
  = (if attributes_contains entry name
        && negb (QString.isEmpty (attributes_value entry name))
     then <[KEEPASSXCBROWSER_NAME := attributes_value entry name]>
            (entry_customData entry)
     else entry_customData entry).
Proof.
  unfold moveSettingsToCustomData.
  destruct (attributes_contains entry name); cbn [snd andb]; [|reflexivity].
  now destruct (negb (QString.isEmpty (attributes_value entry name))).
Qed.

(** X20.  The three calls that [convertAttributesToCustomData] makes for an
    entry count the legacy attributes the entry had, leave none of the three
    behind, and write only the custom-data key [KEEPASSXCBROWSER_NAME]: it
    receives the non-empty value of the attribute handled last, so
    "KeePassXC-Browser Settings" overrides "keepassxc-browser Settings",
    which overrides "KeePassHttp Settings"; with no non-empty value the key is
    left as it was. *)
Theorem moveAllSettingsToCustomData_precedence entry :
  let counter := (moveAllSettingsToCustomData entry).1 in
  let entry' := (moveAllSettingsToCustomData entry).2 in
  let has name := attributes_contains entry name in
  let filled name :=
    has name && negb (QString.isEmpty (attributes_value entry name)) in
  counter = Z.b2z (has KEEPASSHTTP_NAME) + Z.b2z (has KEEPASSXCBROWSER_OLD_NAME)
            + Z.b2z (has KEEPASSXCBROWSER_NAME)
  /\ attributes_contains entry' KEEPASSHTTP_NAME = false
  /\ attributes_contains entry' KEEPASSXCBROWSER_OLD_NAME = false
  /\ attributes_contains entry' KEEPASSXCBROWSER_NAME = false
  /\ entry_customData entry' !! KEEPASSXCBROWSER_NAME
     = (if filled KEEPASSXCBROWSER_NAME
        then Some (attributes_value entry KEEPASSXCBROWSER_NAME)
        else if filled KEEPASSXCBROWSER_OLD_NAME
        then Some (attributes_value entry KEEPASSXCBROWSER_OLD_NAME)
        else if filled KEEPASSHTTP_NAME
        then Some (attributes_value entry KEEPASSHTTP_NAME)
        else entry_customData entry !! KEEPASSXCBROWSER_NAME)
  /\ (forall key, key <> KEEPASSXCBROWSER_NAME ->
        entry_customData entry' !! key = entry_customData entry !! key).
Proof.
  cbv zeta. unfold moveAllSettingsToCustomData.
  assert (Hho : KEEPASSXCBROWSER_OLD_NAME <> KEEPASSHTTP_NAME) by discriminate.
  assert (Hhn : KEEPASSXCBROWSER_NAME <> KEEPASSHTTP_NAME) by discriminate.
  assert (Hon : KEEPASSXCBROWSER_NAME <> KEEPASSXCBROWSER_OLD_NAME) by discriminate.
  pose proof (moveSettingsToCustomData_moved entry KEEPASSHTTP_NAME) as Hm1.
  pose proof (moveSettingsToCustomData_customData entry KEEPASSHTTP_NAME) as Hc1.
  pose proof (moveSettingsToCustomData_other entry _ _ Hho) as [Ho1 Hov1].
  pose proof (moveSettingsToCustomData_other entry _ _ Hhn) as [Hn1 Hnv1].
  pose proof (moveSettingsToCustomData_removes entry KEEPASSHTTP_NAME) as Hr1.
  destruct (moveSettingsToCustomData entry KEEPASSHTTP_NAME) as [m1 e1].
  cbn [fst snd] in Hm1, Hc1, Ho1, Hov1, Hn1, Hnv1, Hr1.
  pose proof (moveSettingsToCustomData_moved e1 KEEPASSXCBROWSER_OLD_NAME) as Hm2.
  pose proof (moveSettingsToCustomData_customData e1 KEEPASSXCBROWSER_OLD_NAME) as Hc2.
  pose proof (moveSettingsToCustomData_other e1 _ _ Hon) as [Hn2 Hnv2].
  pose proof (moveSettingsToCustomData_other e1 _ _ (not_eq_sym Hho)) as [Hh2 _].
  pose proof (moveSettingsToCustomData_removes e1 KEEPASSXCBROWSER_OLD_NAME) as Hr2.
  destruct (moveSettingsToCustomData e1 KEEPASSXCBROWSER_OLD_NAME) as [m2 e2].
  cbn [fst snd] in Hm2, Hc2, Hn2, Hnv2, Hh2, Hr2.
  pose proof (moveSettingsToCustomData_moved e2 KEEPASSXCBROWSER_NAME) as Hm3.
  pose proof (moveSettingsToCustomData_customData e2 KEEPASSXCBROWSER_NAME) as Hc3.
  pose proof (moveSettingsToCustomData_other e2 _ _ (not_eq_sym Hhn)) as [Hh3 _].
  pose proof (moveSettingsToCustomData_other e2 _ _ (not_eq_sym Hon)) as [Ho3 _].
  pose proof (moveSettingsToCustomData_removes e2 KEEPASSXCBROWSER_NAME) as Hr3.
  destruct (moveSettingsToCustomData e2 KEEPASSXCBROWSER_NAME) as [m3 e3].
  cbn [fst snd] in Hm3, Hc3, Hh3, Ho3, Hr3 |- *.
  rewrite Hn2, Hn1 in Hm3, Hc3. rewrite Hnv2, Hnv1 in Hc3.
  rewrite Ho1 in Hm2, Hc2. rewrite Hov1 in Hc2.
  subst m1 m2 m3.
  split; [|split; [|split; [|split; [|split]]]].
  - destruct (attributes_contains entry KEEPASSHTTP_NAME),
      (attributes_contains entry KEEPASSXCBROWSER_OLD_NAME),
      (attributes_contains entry KEEPASSXCBROWSER_NAME); reflexivity.
  - now rewrite Hh3, Hh2.
  - now rewrite Ho3.
  - exact Hr3.
  - rewrite Hc3, Hc2, Hc1.
    destruct (attributes_contains entry KEEPASSXCBROWSER_NAME
              && negb (QString.isEmpty (attributes_value entry KEEPASSXCBROWSER_NAME)));
      [apply lookup_insert_eq|].
    destruct (attributes_contains entry KEEPASSXCBROWSER_OLD_NAME
              && negb (QString.isEmpty
                         (attributes_value entry KEEPASSXCBROWSER_OLD_NAME)));
      [apply lookup_insert_eq|].
    destruct (attributes_contains entry KEEPASSHTTP_NAME
              && negb (QString.isEmpty (attributes_value entry KEEPASSHTTP_NAME)));
      [apply lookup_insert_eq | reflexivity].
  - intros key Hkey. rewrite Hc3, Hc2, Hc1.
    repeat match goal with
           | |- context [if ?b then _ else _] => destruct b
           end;
      rewrite ?lookup_insert_ne by (apply not_eq_sym; exact Hkey); reflexivity.
Qed.

End AllLegacySettings.

(** ** Moving legacy keys *)
Section LegacyKeys.
Variables BrowserKeyPrefix BrowserLegacyKeyPrefix : string.

Lemma moveKey_none entry keys keyCounter :
  fold_left (moveKey BrowserKeyPrefix BrowserLegacyKeyPrefix entry) keys
            (keyCounter, None)
  = (keyCounter, None).
Proof.
  induction keys as [|key keys IH]; cbn [fold_left]; [reflexivity|].
  unfold moveKey at 2.
  now destruct (QString.contains key BrowserLegacyKeyPrefix).
Qed.

Lemma moveKey_step entry keyCounter d key :
  moveKey BrowserKeyPrefix BrowserLegacyKeyPrefix entry (keyCounter, Some d) key
  = (if QString.contains key BrowserLegacyKeyPrefix
        && negb (customData_contains
                   (db_customData d)
                   (keyName BrowserKeyPrefix
                            (QString_remove key BrowserLegacyKeyPrefix)))
     then (keyCounter + 1,
           Some (mkDatabase
                   (<[keyName BrowserKeyPrefix
                              (QString_remove key BrowserLegacyKeyPrefix)
                      := attributes_value entry key]> (db_customData d))
                   (db_rootGroup d)))
     else (keyCounter, Some d)).
Proof.
  unfold moveKey.
  destruct (QString.contains key BrowserLegacyKeyPrefix); cbn [andb];
    [|reflexivity].
  now destruct (negb _).
Qed.

Lemma moveKey_fold entry keys keyCounter d :
  exists added d',
    fold_left (moveKey BrowserKeyPrefix BrowserLegacyKeyPrefix entry) keys
              (keyCounter, Some d)
    = (keyCounter + added, Some d')
    /\ db_rootGroup d' = db_rootGroup d
    /\ db_customData d ⊆ db_customData d'
    /\ Z.of_nat (size (db_customData d'))
       = Z.of_nat (size (db_customData d)) + added
    /\ (forall name value,
          db_customData d !! name = None ->
          db_customData d' !! name = Some value ->
          exists key,
            In key keys
            /\ QString.contains key BrowserLegacyKeyPrefix = true
            /\ name = keyName BrowserKeyPrefix
                              (QString_remove key BrowserLegacyKeyPrefix)
            /\ value = attributes_value entry key).
Proof.
  revert keyCounter d.
  induction keys as [|key keys IH]; intros keyCounter d; cbn [fold_left].
  - exists 0, d. rewrite Z.add_0_r.
    split; [reflexivity|]. split; [reflexivity|]. split; [reflexivity|].
    split; [lia|]. intros name value Hnone Hsome. congruence.
  - assert (Hskip :
      exists added d',
        fold_left (moveKey BrowserKeyPrefix BrowserLegacyKeyPrefix entry) keys
                  (keyCounter, Some d)
        = (keyCounter + added, Some d')
        /\ db_rootGroup d' = db_rootGroup d
        /\ db_customData d ⊆ db_customData d'
        /\ Z.of_nat (size (db_customData d'))
           = Z.of_nat (size (db_customData d)) + added
        /\ (forall name value,
              db_customData d !! name = None ->
              db_customData d' !! name = Some value ->
              exists key0,
                In key0 (key :: keys)
                /\ QString.contains key0 BrowserLegacyKeyPrefix = true
                /\ name = keyName BrowserKeyPrefix
                                  (QString_remove key0 BrowserLegacyKeyPrefix)
                /\ value = attributes_value entry key0)).
    { destruct (IH keyCounter d)
        as (added & d' & Hfold & Hroot & Hsub & Hsize & Hnew).
      exists added, d'. split; [exact Hfold|]. split; [exact Hroot|].
      split; [exact Hsub|]. split; [exact Hsize|].
      intros name value Hnone Hsome.
      destruct (Hnew name value Hnone Hsome) as (key0 & Hin & Hrest).
      exists key0. split; [now right | exact Hrest]. }
    rewrite moveKey_step.
    destruct (QString.contains key BrowserLegacyKeyPrefix) eqn:Hlegacy;
      cbn [andb]; [|exact Hskip].
    unfold customData_contains in *.
    destruct (db_customData d
                !! keyName BrowserKeyPrefix
                     (QString_remove key BrowserLegacyKeyPrefix)) as [old|] eqn:Hold.
    + rewrite bool_decide_eq_true_2 by eauto. exact Hskip.
    + rewrite bool_decide_eq_false_2 by (intros [? ?]; discriminate).
      cbn [negb]. clear Hskip.
      destruct (IH (keyCounter + 1)
                   (mkDatabase
                      (<[keyName BrowserKeyPrefix
                                 (QString_remove key BrowserLegacyKeyPrefix)
                         := attributes_value entry key]> (db_customData d))
                      (db_rootGroup d)))
        as (added & d' & Hfold & Hroot & Hsub & Hsize & Hnew).
      cbn [db_customData db_rootGroup] in *.
      exists (1 + added), d'. split; [rewrite Hfold; f_equal; lia|].
      split; [exact Hroot|]. split.
      { etransitivity; [apply insert_subseteq; exact Hold | exact Hsub]. }
      split.
      { rewrite Hsize, map_size_insert_None by exact Hold. lia. }
      intros name value Hnone Hsome.
      destruct (decide (name = keyName BrowserKeyPrefix
                                       (QString_remove key BrowserLegacyKeyPrefix)))
        as [->|Hname].
      * exists key. split; [now left|]. split; [exact Hlegacy|].
        split; [reflexivity|].
        pose proof (lookup_weaken _ _ _ _ (lookup_insert_eq _ _ _) Hsub) as Hkept.
        congruence.
      * rewrite <- (lookup_insert_ne _ _ _ (attributes_value entry key)
                      (not_eq_sym Hname)) in Hnone.
        destruct (Hnew name value Hnone Hsome) as (key0 & Hin & Hrest).
        exists key0. split; [now right | exact Hrest].
Qed.

(** X21.  [moveKeysToCustomData] without a database moves nothing and counts
    nothing.  With a database it never overwrites or removes a key of the
    database's custom data, and it leaves the group tree alone; the counter it
    returns is the number of keys it added; and each added key is
    [BrowserKeyPrefix] followed by the name of an attribute of the entry with
    every occurrence of [BrowserLegacyKeyPrefix] removed, holding that
    attribute's value. *)
Theorem moveKeysToCustomData_adds_only entry db :
  match db with
  | None =>
      moveKeysToCustomData BrowserKeyPrefix BrowserLegacyKeyPrefix entry None
      = (0, None)
  | Some d =>
      exists d',
        (moveKeysToCustomData BrowserKeyPrefix BrowserLegacyKeyPrefix entry db).2
        = Some d'
        /\ db_rootGroup d' = db_rootGroup d
        /\ (forall name value,
              db_customData d !! name = Some value ->
              db_customData d' !! name = Some value)
        /\ Z.of_nat (size (db_customData d'))
           = Z.of_nat (size (db_customData d))
             + (moveKeysToCustomData BrowserKeyPrefix BrowserLegacyKeyPrefix
                                     entry db).1
        /\ (forall name value,
              db_customData d !! name = None ->
              db_customData d' !! name = Some value ->
              exists key,
                In key (attributes_keys entry)
                /\ QString.contains key BrowserLegacyKeyPrefix = true
                /\ name = keyName BrowserKeyPrefix
                                  (QString_remove key BrowserLegacyKeyPrefix)
                /\ value = attributes_value entry key)
  end.
Proof.
  unfold moveKeysToCustomData. destruct db as [d|].
  - destruct (moveKey_fold entry (attributes_keys entry) 0 d)
      as (added & d' & Hfold & Hroot & Hsub & Hsize & Hnew).
    exists d'. rewrite Hfold. cbn [fst snd]. rewrite Z.add_0_l.
    split; [reflexivity|]. split; [exact Hroot|]. split.
    + intros name value Hsome. exact (lookup_weaken _ _ _ _ Hsome Hsub).
    + split; [exact Hsize | exact Hnew].
  - apply moveKey_none.
Qed.

End LegacyKeys.

(** ** Client sessions *)
Section ClientSessions.
Variables Message Response Action : Type.
Variable clientID : Message -> string.
Variable create : Action.
Variable process : Action -> Message -> Action * Response.

Lemma isEmpty_iff s : QString.isEmpty s = true <-> s = "".
Proof. destruct s; cbn; split; congruence. Qed.

Lemma processClientMessage_lookup clients message id :
  (processClientMessage clientID create process clients message).1 !! id
  = (if negb (QString.isEmpty (clientID message))
        && String.eqb (clientID message) id
     then Some (process (default create (clients !! id)) message).1
     else clients !! id).
Proof.
  unfold processClientMessage.
  destruct (QString.isEmpty (clientID message)); cbn [negb andb fst];
    [reflexivity|].
  set (cid := clientID message).
  assert (Hcreated :
    (if negb (bool_decide (is_Some (clients !! cid)))
     then <[cid := create]> clients else clients) !! cid
    = Some (default create (clients !! cid))).
  { destruct (clients !! cid) as [action|] eqn:Hcid.
    - rewrite bool_decide_eq_true_2 by eauto. exact Hcid.
    - rewrite bool_decide_eq_false_2 by (intros [? ?]; discriminate).
      apply lookup_insert_eq. }
  rewrite Hcreated.
  destruct (process (default create (clients !! cid)) message)
    as [action response] eqn:Hprocess.
  cbn [fst]. destruct (String.eqb_spec cid id) as [<-|Hother].
  - rewrite lookup_insert_eq, Hprocess. reflexivity.
  - rewrite lookup_insert_ne by exact Hother.
    destruct (negb (bool_decide (is_Some (clients !! cid))));
      [apply lookup_insert_ne; exact Hother | reflexivity].
Qed.

Lemma processClientMessages_cons clients message messages :
  processClientMessages clientID create process clients (message :: messages)
  = processClientMessages
      clientID create process
      (processClientMessage clientID create process clients message).1 messages.
Proof. reflexivity. Qed.

(** X22.  After any sequence of messages, the session kept for a non-empty
    client ID is the one obtained by giving that client's own messages, in
    order, to the session it had before (a fresh one if it had none):
    messages of other clients do not touch it, and with no message of its
    own the client's entry is as before. *)
Theorem processClientMessages_own_messages clients messages id :
  QString.isEmpty id = false ->
  processClientMessages clientID create process clients messages !! id
  = match List.filter (fun message => String.eqb (clientID message) id) messages with
    | [] => clients !! id
    | own => Some (sessionAfter process (default create (clients !! id)) own)
    end.
Proof.
  intros Hid. revert clients.
  induction messages as [|message messages IH]; intros clients; [reflexivity|].
  rewrite processClientMessages_cons, IH, processClientMessage_lookup.
  cbn [List.filter].
  destruct (String.eqb_spec (clientID message) id) as [Hsame|Hother].
  - rewrite Hsame, Hid. cbn [negb andb].
    destruct (List.filter _ messages); reflexivity.
  - rewrite andb_false_r. reflexivity.
Qed.

(** X23.  Delivering messages never removes a client's session, and a session
    appears only for the non-empty client ID of a delivered message: a
    message without a client ID creates nothing. *)
Theorem processClientMessages_sessions clients messages :
  let clients' :=
    processClientMessages clientID create process clients messages in
  (forall id, is_Some (clients !! id) -> is_Some (clients' !! id))
  /\ (forall id,
        is_Some (clients' !! id) ->
        is_Some (clients !! id)
        \/ (QString.isEmpty id = false
            /\ exists message, In message messages /\ clientID message = id)).
Proof.
  cbv zeta. revert clients.
  induction messages as [|message messages IH]; intros clients.
  - split; [auto | now left].
  - rewrite processClientMessages_cons.
    destruct (IH (processClientMessage clientID create process clients message).1)
      as [Hkeeps Hnew].
    split.
    + intros id Hsome. apply Hkeeps. rewrite processClientMessage_lookup.
      destruct (_ && _); [eauto | exact Hsome].
    + intros id Hsome. destruct (Hnew id Hsome) as [Hbefore|(Hid & m & Hin & Hm)].
      * rewrite processClientMessage_lookup in Hbefore.
        destruct (QString.isEmpty (clientID message)) eqn:Hempty;
          cbn [negb andb] in Hbefore; [now left|].
        destruct (String.eqb_spec (clientID message) id) as [<-|Hother];
          [|now left].
        right. split; [exact Hempty|]. exists message. split; [now left | reflexivity].
      * right. split; [exact Hid|]. exists m. split; [now right | exact Hm].
Qed.

End ClientSessions.

Lemma processClientMessages_own_messages_witness :
  processClientMessages ClientExamples.clientID ClientExamples.create
                        ClientExamples.process ∅ ClientExamples.messages
    !! "tab-1"
  = Some ["lock-database"; "get-logins"].
Proof.
  rewrite (processClientMessages_own_messages
             _ _ _ ClientExamples.clientID ClientExamples.create
             ClientExamples.process ∅ ClientExamples.messages "tab-1");
    reflexivity.
Defined.
